(** * The DAG engine of [app/etl/dag.py]: scheduler, executor, serialisation

    A shallow embedding of the classes [TaskStatus], [TaskNode] and [DAG],
    with the properties of the graph builder ([add_task]), of the scheduler
    ([_topological_sort], Kahn's algorithm), of the executor ([run]) and of
    the serialisation ([to_dict]).

    Conventions of the embedding:
    - a Python [dict] is insertion ordered and iterated in that order, so
      [self.tasks], [in_degree] and [summary["tasks"]] are lists of items
      ([dict V]), assigned to in place; that the keys are pairwise distinct
      is the invariant [dict_wf];
    - the context and the result mappings are only merged and read by key,
      so they are finite maps ([gmap string Any]);
    - a raised exception is a value of [Exception], and code that may raise
      returns an [outcome]; the three errors of the engine are [ValueError]s
      told apart by their message;
    - the [while] loop of the scheduler is run with fuel, and the fuel it
      is given, [len(self.tasks)], is shown to be enough;
    - [run] mutates the nodes of [self] in place: it is a function from the
      graph to the graph it leaves behind, together with the log of the
      calls it made to the nodes' [execute_fn];
    - the context of a run is one object, handed as it is to every logic:
      a logic can change it, and can return it, and then the node's
      [result] is that object and changes with it. The loop of [run]
      therefore keeps the names of the nodes whose [result] is the context
      object ([st_shared]) and reads a result through [held];
    - [time.perf_counter] and [round] are parameters of [run].

    The file has the embedding first, then the vocabulary of the properties
    and the example graphs, then the lemmas, and last one theorem for each
    property C1 to C10 of the specification, followed by further
    properties of the same code. *)

From stdpp Require Import gmap strings list fin_maps relations.
From Stdlib Require Import ZArith.

Open Scope string_scope.
Open Scope list_scope.
Open Scope Z_scope.

(** ** Values and exceptions *)

(** [Any]: the values stored under the keys of a context. *)
Inductive Any : Type :=
  | PyNone
  | PyInt (z : Z)
  | PyBool (b : bool)
  | PyStr (s : string).

(** The exceptions that leave a method of the engine: the two classes of
    [Exception] that its own code raises, and [SystemExiting exc] for an
    exception that is not an instance of [Exception] ([SystemExit],
    [KeyboardInterrupt], [GeneratorExit] or another direct subclass of
    [BaseException]), which only the logic of a node can raise. *)
Inductive Exception : Type :=
  | ValueError (msg : string)
  | KeyError (key : string)
  | SystemExiting (exc : string).

(** What a piece of code does: it returns, it raises, or (for the [while]
    loop only) it has not finished within the iterations granted. *)
Inductive outcome (A : Type) : Type :=
  | Return (a : A)
  | Raise (e : Exception)
  | OutOfFuel.
Arguments Return {A} a.
Arguments Raise {A} e.
Arguments OutOfFuel {A}.

(** Sequencing, written [x ← m; k]: an exception ends the computation. *)
Global Instance outcome_bind : MBind outcome := λ A B k m,
  match m with
  | Return a => k a
  | Raise e => Raise e
  | OutOfFuel => OutOfFuel
  end.

(** [for x in l: s = body(s, x)], stopping at the first exception. *)
Fixpoint for_each {A S} (body : S → A → outcome S) (l : list A) (s : S)
  : outcome S :=
  match l with
  | [] => Return s
  | x :: l' => s' ← body s x ; for_each body l' s'
  end.

(** ** Insertion-ordered dictionaries *)

(** [dict V]: the items of a dictionary with values in [V], in insertion
    order. *)
Abbreviation dict V := (list (string * V)).

Section dict.
Context {V : Type}.

Definition keys (d : dict V) : list string := d.*1.
Definition values (d : dict V) : list V := d.*2.

(** [d.get(k)] *)
Fixpoint dict_get (k : string) (d : dict V) : option V :=
  match d with
  | [] => None
  | (k', v) :: d' => if decide (k' = k) then Some v else dict_get k d'
  end.

(** [k in d] *)
Definition dict_in (k : string) (d : dict V) : bool :=
  bool_decide (k ∈ keys d).

(** [d[k]], a [KeyError] when [k] is absent *)
Definition dict_item (k : string) (d : dict V) : outcome V :=
  match dict_get k d with
  | Some v => Return v
  | None => Raise (KeyError k)
  end.

(** [d[k] = v]: an existing key keeps its position, a new one goes last *)
Fixpoint dict_set (k : string) (v : V) (d : dict V) : dict V :=
  match d with
  | [] => [(k, v)]
  | (k', v') :: d' =>
      if decide (k' = k) then (k, v) :: d' else (k', v') :: dict_set k v d'
  end.

Definition dict_wf (d : dict V) : Prop := NoDup (keys d).
End dict.

(** ** [TaskStatus], [TaskNode], [DAG] *)

Inductive TaskStatus : Type := PENDING | RUNNING | SUCCESS | FAILED | SKIPPED.

Global Instance TaskStatus_eq_dec : EqDecision TaskStatus.
Proof. solve_decision. Defined.

(** [TaskStatus.value] *)
Definition status_value (s : TaskStatus) : string :=
  match s with
  | PENDING => "pending"
  | RUNNING => "running"
  | SUCCESS => "success"
  | FAILED => "failed"
  | SKIPPED => "skipped"
  end.

(** What a node's logic returns: [None], the context object it was handed,
    or a mapping of its own, an object that only the node will hold. *)
Inductive ReturnValue : Type :=
  | NoneValue
  | TheContext
  | AMapping (m : gmap string Any).

(** One call of a node's logic, [execute_fn(context)], as [run] sees it.
    The logic is handed the context object of the run, not a copy of it, so
    it can change it: [context'] is the content of that object when the
    call ends. The call ends in one of three ways:
    - it returns, [None] or a mapping, as the annotation of [execute_fn]
      says;
    - it raises an instance of [Exception], the fault that the clause
      [except Exception] of [run] catches and of which [run] keeps
      [str(exc)];
    - it raises an exception that is not an instance of [Exception], which
      that clause does not catch.
    The logic is a function of the content of the context it is given, and
    it reaches the objects of the engine through that argument only, while
    it is called. *)
Inductive completion : Type :=
  | Returns (context' : gmap string Any) (value : ReturnValue)
  | Raises (context' : gmap string Any) (str_exc : string)
  | Escapes (context' : gmap string Any) (exc : string).

(** The content of the context when the call ends. *)
Definition context_after (c : completion) : gmap string Any :=
  match c with
  | Returns context' _ => context'
  | Raises context' _ => context'
  | Escapes context' _ => context'
  end.

(** [execute_fn(context) or {}] is the context object itself: the logic
    returned its argument and the context is not empty (an empty mapping is
    falsy, and [or] then makes a new one). *)
Definition returns_context (c : completion) : bool :=
  match c with
  | Returns context' TheContext => bool_decide (context' ≠ ∅)
  | _ => false
  end.

(** The content of the object that the node of a call holds as its
    [result] once the call has ended with [c], when it held [old] before
    and the content of the context is [context]: line 136 assigns the
    result only when the logic returns. *)
Definition holds_after (c : completion) (old context : gmap string Any)
  : gmap string Any :=
  match c with
  | Returns _ NoneValue => ∅
  | Returns _ (AMapping m) => m
  | Returns _ TheContext => if returns_context c then context else ∅
  | Raises _ _ => old
  | Escapes _ _ => old
  end.

(** [result] is the content of the mapping that the node holds. *)
Record TaskNode : Type := mkTaskNode {
  name : string;
  execute_fn : gmap string Any → completion;
  depends_on : list string;
  status : TaskStatus;
  result : gmap string Any;
  error : option string;
  duration_ms : Z
}.

Record DAG : Type := mkDAG {
  dag_name : string;
  tasks : dict TaskNode
}.

(** [DAG.__init__] *)
Definition DAG_init (name : string) : DAG :=
  {| dag_name := name; tasks := [] |}.

(** [TaskNode(name=..., execute_fn=..., depends_on=...)] with the defaults
    of the dataclass for the other fields *)
Definition TaskNode_init (name : string)
    (execute_fn : gmap string Any → completion) (depends_on : list string)
  : TaskNode :=
  {| name := name; execute_fn := execute_fn; depends_on := depends_on;
     status := PENDING; result := ∅; error := None; duration_ms := 0 |}.

(** [DAG.add_task]: the graph it leaves and what it returns ([self], for
    chaining, left out) *)
Definition add_task (self : DAG) (name : string)
    (execute_fn : gmap string Any → completion)
    (depends_on : option (list string)) : DAG * outcome unit :=
  if dict_in name (tasks self) then
    (self, Raise (ValueError ("Duplicate task name: " +:+ name)))
  else
    ({| dag_name := dag_name self;
        tasks := dict_set name
                   (TaskNode_init name execute_fn (default [] depends_on))
                   (tasks self) |},
     Return ()).

(** ** The scheduler: [DAG._topological_sort] *)

(** lines 80-85, the body of the inner [for dep in task.depends_on] *)
Definition count_dependency (self : DAG) (task : TaskNode)
    (in_degree : dict Z) (dep : string) : outcome (dict Z) :=
  if dict_in dep (tasks self) then
    n ← dict_item (name task) in_degree ;
    Return (dict_set (name task) (n + 1) in_degree)
  else
    Raise (ValueError ("Task '" +:+ name task +:+
                       "' depends on unknown task '" +:+ dep +:+ "'")).

(** lines 78-85 *)
Definition initial_in_degree (self : DAG) : outcome (dict Z) :=
  for_each
    (λ in_degree task,
       for_each (count_dependency self task) (depends_on task) in_degree)
    (values (tasks self))
    (map (λ name, (name, 0)) (keys (tasks self))).

(** lines 94-97, the body of [for name, task in self.tasks.items()];
    the state is [(in_degree, queue)] *)
Definition release (current : string) (st : dict Z * list string)
    (item : string * TaskNode) : outcome (dict Z * list string) :=
  let '(in_degree, queue) := st in
  let '(name, task) := item in
  if bool_decide (current ∈ depends_on task) then
    n ← dict_item name in_degree ;
    let in_degree := dict_set name (n - 1) in_degree in
    if decide (n - 1 = 0) then Return (in_degree, queue ++ [name])
    else Return (in_degree, queue)
  else Return (in_degree, queue).

(** lines 90-97, [while queue: ...], run for at most [fuel] iterations *)
Fixpoint while_queue (fuel : nat) (self : DAG) (in_degree : dict Z)
    (queue order : list string) : outcome (list string) :=
  match queue with
  | [] => Return order
  | current :: queue =>
      match fuel with
      | O => OutOfFuel
      | S fuel =>
          st ← for_each (release current) (tasks self) (in_degree, queue) ;
          while_queue fuel self st.1 st.2 (order ++ [current])
      end
  end.

(** The whole method. The loop pops one node per iteration and no node is
    queued twice, so [len(self.tasks)] iterations are all it can take
    ([topological_sort_terminates]). *)
Definition _topological_sort (self : DAG) : outcome (list string) :=
  in_degree ← initial_in_degree self ;
  let queue := (filter (λ item, item.2 = 0) in_degree).*1 in
  order ← while_queue (length (tasks self)) self in_degree queue [] ;
  if decide (length order ≠ length (tasks self)) then
    Raise (ValueError "Cycle detected in DAG")
  else Return order.

(** ** The executor: [DAG.run] *)

(** An entry of [summary["tasks"]]: [{"status": "skipped"}] for a skipped
    node, [{"status": .., "duration_ms": .., "error": ..}] for one that ran *)
Inductive TaskEntry : Type :=
  | SkippedEntry (status : string)
  | RanEntry (status : string) (duration_ms : Z) (error : option string).

Definition entry_status (e : TaskEntry) : string :=
  match e with
  | SkippedEntry s => s
  | RanEntry s _ _ => s
  end.

(** The dictionary [run] returns *)
Record Summary : Type := mkSummary {
  summary_pipeline : string;
  summary_tasks : dict TaskEntry;
  summary_status : string
}.

(** What the loop of [run] works on: the nodes of [self], the content of
    the local [context], the names of the nodes whose [result] is that
    context object, [summary["tasks"]], and the calls made so far to the
    nodes' logic, each with the content of the context it was given. For a
    node of [st_shared] the field [result] is not kept up to date: what the
    node holds is [st_context]. *)
Record RunState : Type := mkRunState {
  st_tasks : dict TaskNode;
  st_context : gmap string Any;
  st_shared : gset string;
  st_summary : dict TaskEntry;
  st_calls : list (string * gmap string Any)
}.

Definition set_status (s : TaskStatus) (t : TaskNode) : TaskNode :=
  {| name := name t; execute_fn := execute_fn t; depends_on := depends_on t;
     status := s; result := result t; error := error t;
     duration_ms := duration_ms t |}.

Definition set_result (r : gmap string Any) (t : TaskNode) : TaskNode :=
  {| name := name t; execute_fn := execute_fn t; depends_on := depends_on t;
     status := status t; result := r; error := error t;
     duration_ms := duration_ms t |}.

Definition set_error (e : option string) (t : TaskNode) : TaskNode :=
  {| name := name t; execute_fn := execute_fn t; depends_on := depends_on t;
     status := status t; result := result t; error := e;
     duration_ms := duration_ms t |}.

Definition set_duration_ms (d : Z) (t : TaskNode) : TaskNode :=
  {| name := name t; execute_fn := execute_fn t; depends_on := depends_on t;
     status := status t; result := result t; error := error t;
     duration_ms := d |}.

(** lines 118-120: [any(self.tasks[dep].status == FAILED for dep in ...)],
    which stops at the first failed dependency *)
Fixpoint upstream_failed (tasks : dict TaskNode) (deps : list string)
  : outcome bool :=
  match deps with
  | [] => Return false
  | dep :: deps =>
      t ← dict_item dep tasks ;
      if decide (status t = FAILED) then Return true
      else upstream_failed tasks deps
  end.

(** [self.tasks[dep].result] while the content of the context is
    [context]: the context itself for a node of [shared] *)
Definition held (shared : gset string) (context : gmap string Any)
    (dep : string) (task : TaskNode) : gmap string Any :=
  if decide (dep ∈ shared) then context else result task.

(** lines 128-129: [context.update(r)] lets the keys of [r] win, and
    changes nothing when [r] is the context *)
Definition merge_upstream (tasks : dict TaskNode) (shared : gset string)
    (deps : list string) (context : gmap string Any)
  : outcome (gmap string Any) :=
  for_each
    (λ context dep,
       t ← dict_item dep tasks ; Return (held shared context dep t ∪ context))
    deps context.

(** line 136: which nodes hold the context object after a call of
    [task_name] that ended with [c] *)
Definition shared_after (shared : gset string) (task_name : string)
    (c : completion) : gset string :=
  match c with
  | Returns _ _ =>
      if returns_context c then shared ∪ {[task_name]}
      else shared ∖ {[task_name]}
  | _ => shared
  end.

Section executor.
(** The clock: the time in milliseconds that [time.perf_counter] measures
    around the call of a node's logic, and [round(_, 2)], both taken as
    given. *)
Variable elapsed_ms : string → Z.
Variable round2 : Z → Z.

(** lines 132-143: [try / except Exception / finally], the node as the call
    leaves it. An exception that is not an [Exception] leaves the status
    RUNNING; [finally] sets the duration in every case. *)
Definition invoke (task_name : string) (task : TaskNode)
    (context : gmap string Any) : TaskNode :=
  let task := set_status RUNNING task in
  let task :=
    match execute_fn task context with
    | Returns context' value =>
        set_status SUCCESS
          (set_result
             (holds_after (Returns context' value) (result task) context')
             task)
    | Raises _ str_exc => set_error (Some str_exc) (set_status FAILED task)
    | Escapes _ _ => task
    end in
  set_duration_ms (elapsed_ms task_name) task.

(** lines 115-149, the body of [for task_name in execution_order]: the
    state it leaves, and whether it ends normally. A lookup that fails
    raises before anything is assigned; an exception that the logic raises
    and [except Exception] does not catch leaves the loop after [finally],
    before the entry of the summary is written. *)
Definition visit (st : RunState) (task_name : string)
  : RunState * outcome unit :=
  match dict_item task_name (st_tasks st) with
  | Return task =>
      match upstream_failed (st_tasks st) (depends_on task) with
      | Return true =>
          ({| st_tasks :=
                dict_set task_name (set_status SKIPPED task) (st_tasks st);
              st_context := st_context st;
              st_shared := st_shared st;
              st_summary :=
                dict_set task_name (SkippedEntry "skipped") (st_summary st);
              st_calls := st_calls st |},
           Return ())
      | Return false =>
          match merge_upstream (st_tasks st) (st_shared st) (depends_on task)
                  (st_context st) with
          | Return context =>
              let ended := execute_fn task context in
              let task := invoke task_name task context in
              ({| st_tasks := dict_set task_name task (st_tasks st);
                  st_context := context_after ended;
                  st_shared := shared_after (st_shared st) task_name ended;
                  st_summary :=
                    match ended with
                    | Escapes _ _ => st_summary st
                    | _ =>
                        dict_set task_name
                          (RanEntry (status_value (status task))
                             (round2 (duration_ms task)) (error task))
                          (st_summary st)
                    end;
                  st_calls := st_calls st ++ [(task_name, context)] |},
               match ended with
               | Escapes _ exc => Raise (SystemExiting exc)
               | _ => Return ()
               end)
          | Raise e => (st, Raise e)
          | OutOfFuel => (st, OutOfFuel)
          end
      | Raise e => (st, Raise e)
      | OutOfFuel => (st, OutOfFuel)
      end
  | Raise e => (st, Raise e)
  | OutOfFuel => (st, OutOfFuel)
  end.

(** lines 114-149: the loop; an exception ends it in the state that the
    visit which raised has left *)
Fixpoint run_loop (execution_order : list string) (st : RunState)
  : RunState * outcome unit :=
  match execution_order with
  | [] => (st, Return ())
  | task_name :: execution_order =>
      match visit st task_name with
      | (st', Return _) => run_loop execution_order st'
      | (st', Raise e) => (st', Raise e)
      | (st', OutOfFuel) => (st', OutOfFuel)
      end
  end.

(** The nodes as they are when the loop has ended in [st]: the nodes of
    [st_shared] hold the context. *)
Definition published (st : RunState) : dict TaskNode :=
  map (λ item,
         (item.1,
          set_result (held (st_shared st) (st_context st) item.1 item.2)
            item.2))
    (st_tasks st).

(** line 109, [dict(initial_context or {})]: a new object, and the state in
    which [run] enters its loop *)
Definition initial_state (self : DAG)
    (initial_context : option (gmap string Any)) : RunState :=
  {| st_tasks := tasks self; st_context := default ∅ initial_context;
     st_shared := ∅; st_summary := []; st_calls := [] |}.

(** [DAG.run]: the graph as the run leaves it, the calls made to the
    nodes' logic, and the summary returned or the exception raised *)
Definition run (self : DAG) (initial_context : option (gmap string Any))
  : DAG * list (string * gmap string Any) * outcome Summary :=
  match _topological_sort self with
  | Return execution_order =>
      let '(st, r) :=
        run_loop execution_order (initial_state self initial_context) in
      let self' := {| dag_name := dag_name self; tasks := published st |} in
      (self', st_calls st,
       _ ← r ;
       let all_success :=
         forallb (λ t, bool_decide (status t = SUCCESS))
           (values (tasks self')) in
       Return {| summary_pipeline := dag_name self';
                 summary_tasks := st_summary st;
                 summary_status :=
                   if all_success then "completed" else "failed" |})
  | Raise e => (self, [], Raise e)
  | OutOfFuel => (self, [], OutOfFuel)
  end.

End executor.

(** ** Serialisation: [DAG.to_dict] *)

(** [{"depends_on": task.depends_on}] *)
Record TaskDefinition : Type := mkTaskDefinition {
  def_depends_on : list string
}.

(** [{"name": .., "tasks": {..}}] *)
Record Definition_ : Type := mkDefinition {
  def_name : string;
  def_tasks : dict TaskDefinition
}.

Definition to_dict (self : DAG) : Definition_ :=
  {| def_name := dag_name self;
     def_tasks :=
       map (λ item, (item.1, {| def_depends_on := depends_on item.2 |}))
         (tasks self) |}.

(** ** Graphs: the vocabulary of the properties *)

(** What [add_task] maintains: keys are pairwise distinct and each node is
    stored under its own name. *)
Definition dag_wf (g : DAG) : Prop :=
  dict_wf (tasks g) ∧ Forall (λ item, name item.2 = item.1) (tasks g).

Global Instance dag_wf_dec g : Decision (dag_wf g).
Proof. unfold dag_wf, dict_wf. apply _. Defined.

(** [depends g n d]: node [n] lists [d] in its [depends_on]. *)
Definition depends (g : DAG) (n d : string) : Prop :=
  ∃ t, (n, t) ∈ tasks g ∧ d ∈ depends_on t.

(** Every declared dependency names a node of the graph. *)
Definition resolves (g : DAG) : Prop :=
  ∀ n d, depends g n d → d ∈ keys (tasks g).

(** No node reaches itself along dependency edges. *)
Definition acyclic (g : DAG) : Prop := ∀ n, ¬ tc (depends g) n n.

(** No node lists the same dependency twice. *)
Definition deps_distinct (g : DAG) : Prop :=
  ∀ k t, (k, t) ∈ tasks g → NoDup (depends_on t).

(** In [order], every node comes strictly after each of its direct
    dependencies. *)
Definition dependencies_first (g : DAG) (order : list string) : Prop :=
  ∀ i n d, order !! i = Some n → depends g n d →
    ∃ j, (j < i)%nat ∧ order !! j = Some d.

(** What the scheduler reads of a graph: the keys in insertion order and,
    for each node, its name and its dependency list. *)
Definition structure (g : DAG) : list (string * (string * list string)) :=
  map (λ item, (item.1, (name item.2, depends_on item.2))) (tasks g).

(** The number of dependency entries that the nodes [ts] named [k] declare. *)
Fixpoint declared (ts : list TaskNode) (k : string) : Z :=
  match ts with
  | [] => 0
  | t :: ts =>
      (if decide (name t = k) then Z.of_nat (length (depends_on t)) else 0)
      + declared ts k
  end.

(** The invariant of the [while] loop of [_topological_sort]. *)
Record kahn_inv (g : DAG) (in_degree : dict Z) (queue order : list string)
  : Prop := mk_kahn_inv {
  inv_keys : keys in_degree = keys (tasks g);
  inv_nodup : NoDup (order ++ queue);
  inv_degree : ∀ k t, (k, t) ∈ tasks g →
    dict_get k in_degree
    = Some (Z.of_nat (length (depends_on t))
            - Z.of_nat (length (filter (.∈ depends_on t) order)));
  inv_ready : ∀ k, k ∈ order ++ queue ↔ dict_get k in_degree = Some 0;
  inv_first : dependencies_first g (order ++ queue)
}.

(** The nodes of [items] that list [current] as a dependency, and those of
    them that one decrement makes ready. *)
Definition dependents (current : string) (items : dict TaskNode)
  : dict TaskNode :=
  filter (λ item, current ∈ depends_on item.2) items.

Definition newly_ready (current : string) (in_degree : dict Z)
    (items : dict TaskNode) : list string :=
  keys (filter (λ item, dict_get item.1 in_degree = Some 1)
          (dependents current items)).
(** What [add_task] fixes of each node and [run] never assigns: the key,
    the name, the logic and the dependency list. *)
Definition definitions (d : dict TaskNode)
  : list (string * (string * (gmap string Any → completion) * list string)) :=
  map (λ item, (item.1, (name item.2, execute_fn item.2, depends_on item.2))) d.

(** The state of the loop after the visit of a node that was skipped, and
    of a node whose logic was called with [context]. *)
Definition skipped_state (task_name : string) (task : TaskNode) (st : RunState)
  : RunState :=
  {| st_tasks := dict_set task_name (set_status SKIPPED task) (st_tasks st);
     st_context := st_context st;
     st_shared := st_shared st;
     st_summary := dict_set task_name (SkippedEntry "skipped") (st_summary st);
     st_calls := st_calls st |}.

Definition ran_state (elapsed_ms : string → Z) (round2 : Z → Z)
    (task_name : string) (task : TaskNode) (context : gmap string Any)
    (st : RunState) : RunState :=
  let ended := execute_fn task context in
  let task := invoke elapsed_ms task_name task context in
  {| st_tasks := dict_set task_name task (st_tasks st);
     st_context := context_after ended;
     st_shared := shared_after (st_shared st) task_name ended;
     st_summary :=
       match ended with
       | Escapes _ _ => st_summary st
       | _ =>
           dict_set task_name
             (RanEntry (status_value (status task)) (round2 (duration_ms task))
                (error task))
             (st_summary st)
       end;
     st_calls := st_calls st ++ [(task_name, context)] |}.

(** How a visit ends when the call of the logic has ended with [c]. *)
Definition leaves (c : completion) : outcome unit :=
  match c with
  | Escapes _ exc => Raise (SystemExiting exc)
  | _ => Return ()
  end.

(** No logic of the graph raises an exception that [except Exception]
    does not catch. *)
Definition catches (g : DAG) : Prop :=
  ∀ k t context context' exc,
    (k, t) ∈ tasks g → execute_fn t context ≠ Escapes context' exc.

(** No logic of the graph removes a key from the context. *)
Definition keeps_keys (g : DAG) : Prop :=
  ∀ k t context,
    (k, t) ∈ tasks g → dom context ⊆ dom (context_after (execute_fn t context)).

(** ** The context along the calls of a run

    [g] is the graph before the run, [initial] the content of the context
    when the loop starts, and [pre] the calls made so far, in order. *)

(** The content of the context once the calls [pre] have ended: the last
    of them left it. *)
Definition context_left (g : DAG) (initial : gmap string Any)
    (pre : list (string * gmap string Any)) : gmap string Any :=
  match last pre with
  | Some (n, c) =>
      match dict_get n (tasks g) with
      | Some t => context_after (execute_fn t c)
      | None => c
      end
  | None => initial
  end.

(** What node [d], which was [t] before the run, holds as its result once
    the calls [pre] have ended, while the content of the context is
    [context]. *)
Definition holds (pre : list (string * gmap string Any))
    (context : gmap string Any) (d : string) (t : TaskNode)
  : gmap string Any :=
  match dict_get d pre with
  | Some c => holds_after (execute_fn t c) (result t) context
  | None => result t
  end.

(** The context after the results of the nodes [deps] have been merged
    into it, in the order of the list. *)
Definition merged (g : DAG) (pre : list (string * gmap string Any))
    (deps : list string) (context : gmap string Any) : gmap string Any :=
  foldl
    (λ context d,
       match dict_get d (tasks g) with
       | Some t => holds pre context d t ∪ context
       | None => context
       end)
    context deps.

(** The contexts of the calls form one chain: each call is given the
    context as the call before it left it (the initial context for the
    first call) with the results of the called node's dependencies merged
    in. *)
Definition context_chain (g : DAG) (initial : gmap string Any)
    (calls : list (string * gmap string Any)) : Prop :=
  ∀ pre n c post, calls = pre ++ (n, c) :: post →
    ∃ t, dict_get n (tasks g) = Some t
      ∧ c = merged g pre (depends_on t) (context_left g initial pre).

(** ** Example graphs, built with [add_task] *)

(** [lambda ctx: None], and [lambda ctx: m] for a mapping [m] built from
    the context *)
Definition returns_none : gmap string Any → completion :=
  λ ctx, Returns ctx NoneValue.

Definition returns (m : gmap string Any → gmap string Any)
  : gmap string Any → completion :=
  λ ctx, Returns ctx (AMapping (m ctx)).

(** [def f(ctx): raise RuntimeError(msg)] *)
Definition raises (msg : string) : gmap string Any → completion :=
  λ ctx, Raises ctx msg.

Definition build (name : string)
    (nodes : list (string * (gmap string Any → completion) * list string))
  : DAG :=
  foldl (λ g node, (add_task g node.1.1 node.1.2 (Some node.2)).1)
    (DAG_init name) nodes.

(** [ctx[key] + n] for an integer entry *)
Definition plus (key : string) (n : Z) (ctx : gmap string Any) : Z :=
  match ctx !! key with
  | Some (PyInt z) => z + n
  | _ => n
  end.

(** [test_linear_dag_executes_in_order] *)
Definition linear : DAG :=
  build "test_linear"
    [("a", returns (λ _, {["from_a" := PyInt 1]}), []);
     ("b", returns (λ _, {["from_b" := PyInt 2]}), ["a"]);
     ("c", returns_none, ["b"])].

(** [test_diamond_dag] *)
Definition diamond : DAG :=
  build "diamond"
    [("a", returns (λ _, {["val" := PyInt 1]}), []);
     ("b", returns (λ ctx, {["b_val" := PyInt (plus "val" 10 ctx)]}), ["a"]);
     ("c", returns (λ ctx, {["c_val" := PyInt (plus "val" 20 ctx)]}), ["a"]);
     ("d", returns (λ ctx, {["total" :=
                     PyInt (plus "b_val" (plus "c_val" 0 ctx) ctx)]}),
      ["b"; "c"])].

(** [test_cycle_detection] *)
Definition two_cycle : DAG :=
  build "test_cycle" [("a", returns_none, ["b"]); ("b", returns_none, ["a"])].

(** [test_failed_task_skips_downstream] *)
Definition failure : DAG :=
  build "test_failure"
    [("fail", raises "Intentional failure", []);
     ("after", returns_none, ["fail"])].

(** A chain whose first node fails: a -> b -> c *)
Definition failing_chain : DAG :=
  build "chain"
    [("a", raises "Intentional failure", []);
     ("b", returns_none, ["a"]);
     ("c", returns_none, ["b"])].

(** A node that lists its only dependency twice *)
Definition duplicate_entry : DAG :=
  build "duplicate_entry"
    [("a", returns_none, []); ("b", returns_none, ["a"; "a"])].

(** A node that depends on a name that was never added *)
Definition dangling : DAG :=
  build "dangling"
    [("a", returns_none, []); ("b", returns_none, ["a"; "missing"])].

(** Two unrelated branches: x <- c and a <- b *)
Definition two_branches : DAG :=
  build "two_branches"
    [("x", returns (λ _, {["x_out" := PyInt 7]}), []);
     ("a", returns (λ _, {["a_out" := PyInt 1]}), []);
     ("b", returns_none, ["a"]);
     ("c", returns_none, ["x"])].

(** A node whose logic returns the context it was handed, [lambda ctx:
    ctx], before a node that returns a mapping and a node that depends on
    the latter: a <- m <- q *)
Definition returns_its_argument : DAG :=
  build "returns_its_argument"
    [("a", λ ctx, Returns ctx TheContext, []);
     ("m", returns (λ _, {["z" := PyInt 1]}), ["a"]);
     ("q", returns_none, ["m"])].

(** A node whose logic leaves with [sys.exit()], before a node that
    depends on it, and after one that does not *)
Definition exits : DAG :=
  build "exits"
    [("first", returns_none, []);
     ("stop", λ ctx, Escapes ctx "SystemExit", []);
     ("next", returns_none, ["stop"])].

(** A node whose logic empties the context, [ctx.clear()], and returns a
    mapping, before a node that depends on it *)
Definition forgets : DAG :=
  build "forgets"
    [("a", λ _, Returns ∅ (AMapping {["a_out" := PyInt 1]}), []);
     ("b", returns_none, ["a"])].

(** A node whose logic writes to the context, [ctx["seen"] = True], and
    returns nothing, before a node that does not depend on it *)
Definition writes : DAG :=
  build "writes"
    [("w", λ ctx, Returns (<["seen" := PyBool true]> ctx) NoneValue, []);
     ("r", returns_none, [])].

(** A clock that measures nothing *)
Definition no_time : string → Z := λ _, 0.

(** What a computation returned, if it did *)
Definition returned {A} (o : outcome A) : option A :=
  match o with
  | Return a => Some a
  | _ => None
  end.
(** ** Further vocabulary *)

Global Instance from_option_dec {A} (P : A → Prop) `{!∀ x, Decision (P x)}
    (o : option A) : Decision (from_option P False o).
Proof. destruct o; simpl; apply _. Defined.

(** The nodes without dependencies, in insertion order. *)
Definition roots (g : DAG) : list string :=
  (filter (λ item, depends_on item.2 = []) (tasks g)).*1.

(** *** First ready, first out *)

(** The position of [k] in [l] (the length of [l] when it is not there). *)
Fixpoint index_of (k : string) (l : list string) : nat :=
  match l with
  | [] => 0
  | x :: l => if decide (x = k) then 0 else S (index_of k l)
  end.

(** How many nodes of [order] are emitted before node [n] is ready: all
    up to the last of its dependencies, none for a node without
    dependencies. *)
Definition ready_after (g : DAG) (order : list string) (n : string) : nat :=
  match dict_get n (tasks g) with
  | Some t => max_list ((λ d, S (index_of d order)) <$> depends_on t)
  | None => 0
  end.

(** [x] is served before [y]: it is ready earlier, or at the same time and
    it comes first in [self.tasks]. *)
Definition served_before (g : DAG) (order : list string) (x y : string)
  : Prop :=
  (ready_after g order x < ready_after g order y)%nat
  ∨ (ready_after g order x = ready_after g order y
     ∧ (index_of x (keys (tasks g)) < index_of y (keys (tasks g)))%nat).

(** [order] emits the nodes first ready, first out. *)
Definition first_ready_first_out (g : DAG) (order : list string) : Prop :=
  ∀ i j x y, order !! i = Some x → order !! j = Some y → (i < j)%nat →
    served_before g order x y.

(** A schedule of [g] by that rule: every node once, after its
    dependencies, first ready first out. *)
Definition fifo_schedule (g : DAG) (order : list string) : Prop :=
  NoDup order ∧ order ≡ₚ keys (tasks g) ∧ dependencies_first g order
  ∧ first_ready_first_out g order.

(** *** What a run leaves *)

(** The node that the call of [t] with [c] leaves at the end of a run in
    which the context ends as [context]. *)
Definition finished (elapsed_ms : string → Z) (task_name : string)
    (t : TaskNode) (c context : gmap string Any) : TaskNode :=
  set_result (holds_after (execute_fn t c) (result t) context)
    (invoke elapsed_ms task_name t c).

(** How [run] left node [n], which was [t] before the run: skipped because
    a direct dependency ended FAILED, or called with the context [c] while
    no direct dependency was FAILED. [final], [calls] and [summary] are the
    nodes, the calls and the entries of the summary after the run,
    [context] is the content of the context at the end. *)
Definition visit_skipped (final : dict TaskNode)
    (calls : list (string * gmap string Any)) (summary : dict TaskEntry)
    (n : string) (t : TaskNode) : Prop :=
  dict_get n final = Some (set_status SKIPPED t)
  ∧ dict_get n summary = Some (SkippedEntry "skipped")
  ∧ (n ∉ calls.*1)
  ∧ ∃ d td, d ∈ depends_on t ∧ dict_get d final = Some td
            ∧ status td = FAILED.

Definition visit_called (elapsed_ms : string → Z) (round2 : Z → Z)
    (final : dict TaskNode) (calls : list (string * gmap string Any))
    (summary : dict TaskEntry) (context : gmap string Any)
    (n : string) (t : TaskNode) (c : gmap string Any) : Prop :=
  (n, c) ∈ calls
  ∧ leaves (execute_fn t c) = Return ()
  ∧ dict_get n final = Some (finished elapsed_ms n t c context)
  ∧ dict_get n summary
    = Some (RanEntry (status_value (status (invoke elapsed_ms n t c)))
              (round2 (duration_ms (invoke elapsed_ms n t c)))
              (error (invoke elapsed_ms n t c)))
  ∧ ∀ d td, d ∈ depends_on t → dict_get d final = Some td →
      status td ≠ FAILED.

(** What a run that returns [summary] leaves: [g] is the graph before the
    run, [initial] the initial context and [order] the schedule, [g'] is
    the graph after the run and [calls] the calls made. *)
Record run_facts (elapsed_ms : string → Z) (round2 : Z → Z) (g : DAG)
    (initial : gmap string Any) (order : list string) (g' : DAG)
    (calls : list (string * gmap string Any)) (summary : Summary)
  : Prop := mk_run_facts {
  rf_wf : dag_wf g';
  rf_name : dag_name g' = dag_name g;
  rf_definitions : definitions (tasks g') = definitions (tasks g);
  rf_order : NoDup order ∧ order ≡ₚ keys (tasks g);
  rf_pipeline : summary_pipeline summary = dag_name g;
  rf_summary_keys : keys (summary_tasks summary) = order;
  rf_status :
    summary_status summary
    = if forallb (λ t, bool_decide (status t = SUCCESS)) (values (tasks g'))
      then "completed" else "failed";
  rf_calls : calls.*1 `sublist_of` order;
  rf_chain : context_chain g initial calls;
  rf_visits : ∀ n t, dict_get n (tasks g) = Some t →
    visit_skipped (tasks g') calls (summary_tasks summary) n t
    ∨ ∃ c, visit_called elapsed_ms round2 (tasks g') calls
             (summary_tasks summary) (context_left g initial calls) n t c
}.

(** [pipeline.py], [build_patient_ingestion_pipeline]. The five steps work
    on records, which are outside [Any]; they are parameters here. *)
Definition build_patient_ingestion_pipeline
    (extract validate check_consent transform load
       : gmap string Any → completion) : DAG :=
  let dag := DAG_init "patient_ingestion" in
  let dag := (add_task dag "extract" extract None).1 in
  let dag := (add_task dag "validate" validate (Some ["extract"])).1 in
  let dag :=
    (add_task dag "check_consent" check_consent (Some ["validate"])).1 in
  let dag := (add_task dag "transform" transform (Some ["check_consent"])).1 in
  let dag := (add_task dag "load" load (Some ["transform"])).1 in
  dag.

(** *** The invariant of the loop of [run]

    [prefix] is the part of the order that the loop has visited when it is
    in state [st]; [g] is the graph before the run and [initial] the
    content of the context when the loop started. *)

Definition visited_skipped (st : RunState) (n : string) (t : TaskNode)
  : Prop :=
  dict_get n (st_tasks st) = Some (set_status SKIPPED t)
  ∧ (n ∉ st_shared st)
  ∧ dict_get n (st_summary st) = Some (SkippedEntry "skipped")
  ∧ (n ∉ (st_calls st).*1)
  ∧ ∃ d td, d ∈ depends_on t ∧ dict_get d (st_tasks st) = Some td
            ∧ status td = FAILED.

Definition visited_called (elapsed_ms : string → Z) (round2 : Z → Z)
    (st : RunState) (n : string) (t : TaskNode) (c : gmap string Any)
  : Prop :=
  (n, c) ∈ st_calls st
  ∧ leaves (execute_fn t c) = Return ()
  ∧ dict_get n (st_tasks st) = Some (invoke elapsed_ms n t c)
  ∧ (n ∈ st_shared st ↔ returns_context (execute_fn t c) = true)
  ∧ dict_get n (st_summary st)
    = Some (RanEntry (status_value (status (invoke elapsed_ms n t c)))
              (round2 (duration_ms (invoke elapsed_ms n t c)))
              (error (invoke elapsed_ms n t c)))
  ∧ ∀ d td, d ∈ depends_on t → dict_get d (st_tasks st) = Some td →
      status td ≠ FAILED.

Record run_inv (elapsed_ms : string → Z) (round2 : Z → Z) (g : DAG)
    (initial : gmap string Any) (prefix : list string) (st : RunState)
  : Prop := mk_run_inv {
  ri_definitions : definitions (st_tasks st) = definitions (tasks g);
  ri_summary_keys : keys (st_summary st) = prefix;
  ri_calls : (st_calls st).*1 `sublist_of` prefix;
  ri_context : st_context st = context_left g initial (st_calls st);
  ri_chain : context_chain g initial (st_calls st);
  ri_unvisited : ∀ n, n ∉ prefix →
    dict_get n (st_tasks st) = dict_get n (tasks g) ∧ n ∉ st_shared st;
  ri_visited : ∀ n t, n ∈ prefix → dict_get n (tasks g) = Some t →
    visited_skipped st n t ∨ ∃ c, visited_called elapsed_ms round2 st n t c
}.
(** * Lemmas *)

(** ** Dictionaries *)

Section dict_lemmas.
Context {V : Type}.
Implicit Types (d : dict V) (k : string) (v : V).

Lemma dict_get_Some_elem d k v : dict_get k d = Some v → (k, v) ∈ d.
Proof.
  induction d as [|[k' v'] d IH]; simpl; [done|].
  case_decide; intros ?; simplify_eq; [left | right; auto].
Qed.

Lemma dict_get_None d k : dict_get k d = None ↔ k ∉ keys d.
Proof.
  unfold keys. induction d as [|[k' v'] d IH]; simpl.
  - split; [intros _; apply not_elem_of_nil | done].
  - rewrite not_elem_of_cons. case_decide as Hk.
    + split; [done | by intros [? _]].
    + rewrite IH. split; [by intros ? | by intros [_ ?]].
Qed.

Lemma dict_get_is_Some d k : is_Some (dict_get k d) ↔ k ∈ keys d.
Proof.
  destruct (dict_get k d) eqn:E.
  - split; [intros _ | by eauto].
    apply dict_get_Some_elem in E. unfold keys.
    apply list_elem_of_fmap. by exists (k, v).
  - apply dict_get_None in E. split; [by intros [? ?] | done].
Qed.

Lemma dict_get_elem d k v : dict_wf d → (k, v) ∈ d → dict_get k d = Some v.
Proof.
  unfold dict_wf, keys. induction d as [|[k' v'] d IH]; simpl.
  - intros _ H. by apply elem_of_nil in H.
  - rewrite NoDup_cons. intros [Hk Hd] [H|H]%elem_of_cons.
    + simplify_eq. by rewrite decide_True.
    + rewrite decide_False; [auto|]. intros ->. apply Hk.
      apply list_elem_of_fmap. by exists (k, v).
Qed.

Lemma dict_get_set_eq d k v : dict_get k (dict_set k v d) = Some v.
Proof.
  induction d as [|[k' v'] d IH]; simpl.
  - by rewrite decide_True.
  - case_decide; simpl; [by rewrite decide_True | by rewrite decide_False].
Qed.

Lemma dict_get_set_ne d k k' v :
  k ≠ k' → dict_get k' (dict_set k v d) = dict_get k' d.
Proof.
  intros Hne. induction d as [|[k0 v0] d IH]; simpl.
  - by rewrite decide_False.
  - case_decide; simpl; subst.
    + by rewrite !decide_False.
    + by rewrite IH.
Qed.

Lemma dict_get_set d k k' v :
  dict_get k' (dict_set k v d)
  = if decide (k = k') then Some v else dict_get k' d.
Proof.
  case_decide; [subst; apply dict_get_set_eq | by apply dict_get_set_ne].
Qed.

(** Assigning to a key that is present keeps the order of the keys. *)
Lemma keys_dict_set_in d k v : k ∈ keys d → keys (dict_set k v d) = keys d.
Proof.
  unfold keys. induction d as [|[k' v'] d IH]; simpl.
  - intros H. by apply elem_of_nil in H.
  - intros H. case_decide; simpl; [by subst|].
    f_equal. apply IH. apply elem_of_cons in H as [?|?]; [congruence | done].
Qed.

(** A new key goes last. *)
Lemma dict_set_notin d k v : k ∉ keys d → dict_set k v d = d ++ [(k, v)].
Proof.
  unfold keys. induction d as [|[k' v'] d IH]; simpl; [done|].
  rewrite not_elem_of_cons. intros [? ?].
  rewrite decide_False by done. by rewrite IH.
Qed.

Lemma dict_wf_set d k v : dict_wf d → dict_wf (dict_set k v d).
Proof.
  unfold dict_wf. intros Hd. destruct (decide (k ∈ keys d)) as [Hin|Hin].
  - by rewrite keys_dict_set_in.
  - rewrite dict_set_notin by done. unfold keys in *.
    rewrite fmap_app. simpl. apply NoDup_app. split_and!; [done| |].
    + intros x Hx ->%list_elem_of_singleton. done.
    + apply NoDup_singleton.
Qed.

Lemma dict_item_Return d k v : dict_get k d = Some v → dict_item k d = Return v.
Proof. unfold dict_item. by intros ->. Qed.

Lemma elem_keys d k v : (k, v) ∈ d → k ∈ keys d.
Proof. intros H. apply list_elem_of_fmap. by exists (k, v). Qed.

Lemma elem_values d k v : (k, v) ∈ d → v ∈ values d.
Proof. intros H. apply list_elem_of_fmap. by exists (k, v). Qed.
End dict_lemmas.

(** ** The first loop of the scheduler *)

Lemma bind_Return {A B} (a : A) (k : A → outcome B) : (Return a ≫= k) = k a.
Proof. done. Qed.

Lemma bind_Raise {A B} e (k : A → outcome B) : (Raise e ≫= k) = Raise e.
Proof. done. Qed.

Lemma for_each_cons {A S} (body : S → A → outcome S) x l s :
  for_each body (x :: l) s = (s' ← body s x; for_each body l s').
Proof. done. Qed.

Lemma for_each_app {A S} (body : S → A → outcome S) l1 l2 s :
  for_each body (l1 ++ l2) s = (s' ← for_each body l1 s; for_each body l2 s').
Proof.
  revert s. induction l1 as [|x l1 IH]; intros s; simpl; [done|].
  destruct (body s x); simpl; auto.
Qed.

Lemma dag_wf_name g k t : dag_wf g → (k, t) ∈ tasks g → name t = k.
Proof. intros [_ H] Hin. rewrite Forall_forall in H. apply (H _ Hin). Qed.

Lemma dag_wf_get g k t : dag_wf g → (k, t) ∈ tasks g → dict_get k (tasks g) = Some t.
Proof. intros [Hwf _]. by apply dict_get_elem. Qed.

Lemma dag_wf_functional g k t t' :
  dag_wf g → (k, t) ∈ tasks g → (k, t') ∈ tasks g → t = t'.
Proof.
  intros Hwf H1%(dag_wf_get _ _ _ Hwf) H2%(dag_wf_get _ _ _ Hwf). congruence.
Qed.

Lemma count_dependency_known g t in_degree dep n :
  dep ∈ keys (tasks g) → dict_get (name t) in_degree = Some n →
  count_dependency g t in_degree dep
  = Return (dict_set (name t) (n + 1) in_degree).
Proof.
  intros Hdep Hn. unfold count_dependency, dict_in.
  rewrite bool_decide_eq_true_2 by done. by rewrite (dict_item_Return _ _ _ Hn).
Qed.

Lemma count_dependency_unknown g t in_degree dep :
  dep ∉ keys (tasks g) →
  count_dependency g t in_degree dep
  = Raise (ValueError ("Task '" +:+ name t +:+
                       "' depends on unknown task '" +:+ dep +:+ "'")).
Proof.
  intros Hdep. unfold count_dependency, dict_in.
  by rewrite bool_decide_eq_false_2.
Qed.

(** The inner loop on one node: either every entry resolves and the counter
    of the node grows by their number, or the first unknown entry is
    reported. *)
Lemma count_dependencies g t deps in_degree :
  name t ∈ keys in_degree →
  (Forall (.∈ keys (tasks g)) deps ∧
   ∃ in_degree',
     for_each (count_dependency g t) deps in_degree = Return in_degree'
     ∧ keys in_degree' = keys in_degree
     ∧ ∀ k, dict_get k in_degree'
            = if decide (name t = k)
              then (λ n, n + Z.of_nat (length deps)) <$> dict_get k in_degree
              else dict_get k in_degree)
  ∨ (∃ dep, dep ∈ deps ∧ (dep ∉ keys (tasks g)) ∧
       for_each (count_dependency g t) deps in_degree
       = Raise (ValueError ("Task '" +:+ name t +:+
                            "' depends on unknown task '" +:+ dep +:+ "'"))).
Proof.
  revert in_degree. induction deps as [|dep deps IH]; intros in_degree Hname.
  - left. split; [constructor|]. exists in_degree. split_and!; [done..|].
    intros k. case_decide; [|done]. destruct (dict_get k in_degree); simpl; [|done].
    f_equal. lia.
  - simpl. destruct (decide (dep ∈ keys (tasks g))) as [Hdep|Hdep]; cycle 1.
    { right. exists dep. rewrite count_dependency_unknown by done.
      split_and!; [left|done..]. }
    apply dict_get_is_Some in Hname as Hn. destruct Hn as [n Hn].
    rewrite (count_dependency_known _ _ _ _ _ Hdep Hn). simpl.
    destruct (IH (dict_set (name t) (n + 1) in_degree)) as
      [[Hall (in' & Hrun & Hkeys & Hget)]|(d & Hd & Hnd & Hrun)].
    + by rewrite keys_dict_set_in.
    + left. split; [by constructor|]. exists in'. split_and!; [done| |].
      * by rewrite Hkeys, keys_dict_set_in.
      * intros k. rewrite Hget, dict_get_set. case_decide; [|done]. subst k.
        rewrite Hn. simpl. f_equal. lia.
    + right. exists d. split_and!; [by right|done..].
Qed.

(** The outer loop, on the nodes [ts]. *)
Lemma count_all_dependencies g ts in_degree :
  Forall (λ t, name t ∈ keys in_degree) ts →
  (Forall (λ t, Forall (.∈ keys (tasks g)) (depends_on t)) ts ∧
   ∃ in_degree',
     for_each (λ in_degree task,
        for_each (count_dependency g task) (depends_on task) in_degree)
       ts in_degree = Return in_degree'
     ∧ keys in_degree' = keys in_degree
     ∧ ∀ k, dict_get k in_degree'
            = (λ n, n + declared ts k) <$> dict_get k in_degree)
  ∨ (∃ t dep, t ∈ ts ∧ dep ∈ depends_on t ∧ (dep ∉ keys (tasks g)) ∧
       for_each (λ in_degree task,
          for_each (count_dependency g task) (depends_on task) in_degree)
         ts in_degree
       = Raise (ValueError ("Task '" +:+ name t +:+
                            "' depends on unknown task '" +:+ dep +:+ "'"))).
Proof.
  revert in_degree. induction ts as [|t ts IH]; intros in_degree Hnames.
  - left. split; [constructor|]. exists in_degree. split_and!; [done..|].
    intros k. destruct (dict_get k in_degree); simpl; [|done]. f_equal. lia.
  - apply Forall_cons in Hnames as [Hname Hnames]. simpl.
    destruct (count_dependencies g t (depends_on t) in_degree Hname) as
      [[Hall (in1 & Hrun1 & Hkeys1 & Hget1)]|(d & Hd & Hnd & Hrun)].
    + rewrite Hrun1. simpl.
      destruct (IH in1) as
        [[Hall' (in2 & Hrun2 & Hkeys2 & Hget2)]|(t' & d & Ht' & Hd & Hnd & Hrun)].
      * by rewrite Hkeys1.
      * left. split; [by constructor|]. exists in2. split_and!; [done|congruence|].
        intros k. rewrite Hget2, Hget1.
        case_decide; destruct (dict_get k in_degree); simpl; try done; f_equal; lia.
      * right. exists t', d. split_and!; [by right|done..].
    + right. exists t, d. rewrite Hrun. split_and!; [left|done..].
Qed.

Lemma declared_absent ts k : k ∉ name <$> ts → declared ts k = 0.
Proof.
  induction ts as [|t ts IH]; simpl; [done|].
  rewrite not_elem_of_cons. intros [? ?]. rewrite decide_False by done.
  rewrite IH by done. lia.
Qed.

Lemma names_are_keys (d : dict TaskNode) :
  (∀ k t, (k, t) ∈ d → name t = k) → name <$> values d = keys d.
Proof.
  unfold values, keys. induction d as [|[k t] d IH]; simpl; [done|]. intros H.
  rewrite (H k t) by left. f_equal. apply IH. intros ???. apply H. by right.
Qed.

Lemma declared_wf (d : dict TaskNode) k t :
  dict_wf d → (∀ k t, (k, t) ∈ d → name t = k) → (k, t) ∈ d →
  declared (values d) k = Z.of_nat (length (depends_on t)).
Proof.
  unfold dict_wf. induction d as [|[k0 t0] d IH]; simpl.
  - intros _ _ H. by apply elem_of_nil in H.
  - unfold keys. simpl. rewrite NoDup_cons. intros [Hk0 Hnd] Hname Hin.
    assert (Hname' : ∀ k t, (k, t) ∈ d → name t = k)
      by (intros ???; apply Hname; by right).
    assert (name t0 = k0) as Hn0 by (apply Hname; left).
    apply elem_of_cons in Hin as [Heq|Hin].
    + simplify_eq. rewrite decide_True by done.
      rewrite declared_absent; [lia|]. by rewrite names_are_keys.
    + rewrite decide_False.
      * rewrite (IH Hnd Hname' Hin). lia.
      * rewrite Hn0. intros ->. apply Hk0. by eapply elem_keys.
Qed.

Lemma dict_get_zeros (ks : list string) k :
  dict_get k (map (λ name, (name, 0)) ks) = if decide (k ∈ ks) then Some 0 else None.
Proof.
  induction ks as [|k0 ks IH]; [done|].
  cbn [map dict_get]. rewrite IH.
  destruct (decide (k0 = k)) as [->|Hne].
  - rewrite decide_True; [done | left].
  - destruct (decide (k ∈ ks)) as [Hin|Hin].
    + rewrite decide_True; [done | by right].
    + rewrite decide_False; [done|]. rewrite not_elem_of_cons. by split.
Qed.

Lemma keys_zeros (ks : list string) :
  keys (map (λ name, (name, 0)) ks) = ks.
Proof. unfold keys. induction ks as [|k ks IH]; simpl; [done | by f_equal]. Qed.

(** With every dependency known, the first loop counts for each node the
    entries of its [depends_on]. *)
Lemma initial_in_degree_resolves g :
  dag_wf g → resolves g →
  ∃ in_degree, initial_in_degree g = Return in_degree
    ∧ keys in_degree = keys (tasks g)
    ∧ ∀ k t, (k, t) ∈ tasks g →
        dict_get k in_degree = Some (Z.of_nat (length (depends_on t))).
Proof.
  intros Hdag Hres. pose proof (dag_wf_name g) as Hname.
  specialize (λ k t, Hname k t Hdag). destruct Hdag as [Hwf _].
  unfold initial_in_degree.
  destruct (count_all_dependencies g (values (tasks g))
              (map (λ name, (name, 0)) (keys (tasks g)))) as
    [[_ (in' & Hrun & Hkeys & Hget)]|(t & d & Ht & Hd & Hnd & _)].
  - rewrite keys_zeros. apply Forall_forall. intros t Ht.
    apply list_elem_of_fmap in Ht as ([k t'] & -> & Hin). simpl.
    rewrite (Hname _ _ Hin). by eapply elem_keys.
  - exists in'. split_and!; [done|by rewrite Hkeys, keys_zeros|].
    intros k t Hin. rewrite Hget, dict_get_zeros.
    rewrite decide_True by (by eapply elem_keys). simpl.
    rewrite (declared_wf _ _ _ Hwf Hname Hin). f_equal; lia.
  - exfalso. apply Hnd. apply list_elem_of_fmap in Ht as ([k t'] & -> & Hin).
    apply (Hres k d). by exists t'.
Qed.

(** With an unknown dependency, the first loop reports one. *)
Lemma initial_in_degree_unknown g :
  dag_wf g → ¬ resolves g →
  ∃ k t dep, (k, t) ∈ tasks g ∧ dep ∈ depends_on t ∧ (dep ∉ keys (tasks g)) ∧
    initial_in_degree g
    = Raise (ValueError ("Task '" +:+ name t +:+
                         "' depends on unknown task '" +:+ dep +:+ "'")).
Proof.
  intros Hdag Hres. pose proof (dag_wf_name g) as Hname.
  specialize (λ k t, Hname k t Hdag). destruct Hdag as [Hwf _].
  unfold initial_in_degree.
  destruct (count_all_dependencies g (values (tasks g))
              (map (λ name, (name, 0)) (keys (tasks g)))) as
    [[Hall _]|(t & d & Ht & Hd & Hnd & Hrun)].
  - rewrite keys_zeros. apply Forall_forall. intros t Ht.
    apply list_elem_of_fmap in Ht as ([k t'] & -> & Hin). simpl.
    rewrite (Hname _ _ Hin). by eapply elem_keys.
  - exfalso. apply Hres. intros n d (t & Hin & Hd).
    rewrite Forall_forall in Hall. specialize (Hall t (elem_values _ _ _ Hin)).
    rewrite Forall_forall in Hall. by apply Hall.
  - apply list_elem_of_fmap in Ht as ([k t'] & -> & Hin).
    exists k, t', d. done.
Qed.

(** ** Counting the emitted dependencies *)

Lemma filter_ext_in {A} (P Q : A → Prop) `{!∀ x, Decision (P x)}
    `{!∀ x, Decision (Q x)} (l : list A) :
  (∀ x, x ∈ l → P x ↔ Q x) → filter P l = filter Q l.
Proof.
  induction l as [|x l IH]; intros Hext; [done|].
  rewrite !filter_cons. rewrite IH by (intros ??; apply Hext; by right).
  destruct (decide (P x)) as [HP|HP], (decide (Q x)) as [HQ|HQ]; try done.
  - exfalso. apply HQ, Hext; [left | done].
  - exfalso. apply HP, Hext; [left | done].
Qed.

Section emitted.
Implicit Types order deps : list string.

Lemma emitted_le order deps :
  NoDup order →
  (length (filter (.∈ deps) order) ≤ length deps)%nat.
Proof.
  intros Hnd. apply submseteq_length, NoDup_submseteq.
  - by apply NoDup_filter.
  - intros x Hx. by apply list_elem_of_filter in Hx as [? _].
Qed.

(** When as many nodes of [deps] were emitted as [deps] has entries, all
    of them were (and no entry is repeated). *)
Lemma emitted_all order deps d :
  NoDup order →
  (length deps ≤ length (filter (.∈ deps) order))%nat →
  d ∈ deps → d ∈ order.
Proof.
  intros Hnd Hlen Hd.
  assert (filter (.∈ deps) order ≡ₚ deps) as Hperm.
  { apply submseteq_length_Permutation; [|done]. apply NoDup_submseteq.
    - by apply NoDup_filter.
    - intros x Hx. by apply list_elem_of_filter in Hx as [? _]. }
  rewrite <- Hperm in Hd. by apply list_elem_of_filter in Hd as [_ ?].
Qed.

Lemma emitted_full order deps :
  NoDup deps → (∀ d, d ∈ deps → d ∈ order) →
  (length deps ≤ length (filter (.∈ deps) order))%nat.
Proof.
  intros Hnd Hall. apply submseteq_length, NoDup_submseteq; [done|].
  intros x Hx. apply list_elem_of_filter. auto.
Qed.

Lemma emitted_snoc order deps c :
  length (filter (.∈ deps) (order ++ [c]))
  = (length (filter (.∈ deps) order)
     + if decide (c ∈ deps) then 1 else 0)%nat.
Proof.
  rewrite filter_app, length_app. f_equal.
  rewrite filter_cons, filter_nil. by case_decide.
Qed.
End emitted.

(** ** The body of the [while] loop *)

Lemma keys_dependents_subseteq c (items : dict TaskNode) k :
  k ∈ keys (dependents c items) → k ∈ keys items.
Proof.
  unfold keys, dependents. intros ([k' t] & -> & Hin)%list_elem_of_fmap.
  apply list_elem_of_filter in Hin as [_ Hin]. by eapply elem_keys.
Qed.

Lemma elem_keys_dependents c (items : dict TaskNode) k :
  k ∈ keys (dependents c items)
  ↔ ∃ t, (k, t) ∈ items ∧ c ∈ depends_on t.
Proof.
  unfold keys, dependents. rewrite list_elem_of_fmap. split.
  - intros ([k' t] & -> & Hin). apply list_elem_of_filter in Hin as [? ?].
    by exists t.
  - intros (t & Hin & Hc). exists (k, t). split; [done|].
    by apply list_elem_of_filter.
Qed.

Lemma elem_newly_ready c in_degree (items : dict TaskNode) k :
  k ∈ newly_ready c in_degree items
  ↔ dict_get k in_degree = Some 1 ∧ ∃ t, (k, t) ∈ items ∧ c ∈ depends_on t.
Proof.
  unfold newly_ready, keys, dependents. rewrite list_elem_of_fmap. split.
  - intros ([k' t] & -> & Hin).
    apply list_elem_of_filter in Hin as [? Hin].
    apply list_elem_of_filter in Hin as [? ?]. split; [done | by exists t].
  - intros (Hget & t & Hin & Hc). exists (k, t). split; [done|].
    apply list_elem_of_filter. split; [done|]. by apply list_elem_of_filter.
Qed.

Lemma NoDup_newly_ready c in_degree (items : dict TaskNode) :
  dict_wf items → NoDup (newly_ready c in_degree items).
Proof.
  unfold dict_wf, newly_ready, keys, dependents. intros Hnd.
  eapply sublist_NoDup; [exact Hnd|]. apply fmap_sublist.
  etrans; apply sublist_filter.
Qed.

Lemma dependents_cons_True c k t (items : dict TaskNode) :
  c ∈ depends_on t →
  dependents c ((k, t) :: items) = (k, t) :: dependents c items.
Proof. intros H. unfold dependents. by rewrite filter_cons_True. Qed.

Lemma dependents_cons_False c k t (items : dict TaskNode) :
  c ∉ depends_on t → dependents c ((k, t) :: items) = dependents c items.
Proof. intros H. unfold dependents. by rewrite filter_cons_False. Qed.

Lemma release_stay c in_degree queue k t :
  c ∉ depends_on t →
  release c (in_degree, queue) (k, t) = Return (in_degree, queue).
Proof. intros H. unfold release. by rewrite bool_decide_eq_false_2. Qed.

Lemma release_decrement c in_degree queue k t n :
  c ∈ depends_on t → dict_get k in_degree = Some n →
  release c (in_degree, queue) (k, t)
  = Return (dict_set k (n - 1) in_degree,
            if decide (n = 1) then queue ++ [k] else queue).
Proof.
  intros H Hn. unfold release. rewrite bool_decide_eq_true_2 by done.
  rewrite (dict_item_Return _ _ _ Hn). simpl.
  destruct (decide (n - 1 = 0)), (decide (n = 1)); (done || lia).
Qed.

(** The inner loop decrements the counter of every dependent of [current]
    and queues, in dictionary order, those that reach zero. *)
Lemma release_all c (items : dict TaskNode) in_degree queue :
  dict_wf items → (∀ k, k ∈ keys items → k ∈ keys in_degree) →
  ∃ in_degree',
    for_each (release c) items (in_degree, queue)
    = Return (in_degree', queue ++ newly_ready c in_degree items)
    ∧ keys in_degree' = keys in_degree
    ∧ ∀ k, dict_get k in_degree'
           = if decide (k ∈ keys (dependents c items))
             then (λ n, n - 1) <$> dict_get k in_degree
             else dict_get k in_degree.
Proof.
  unfold dict_wf. revert in_degree queue.
  induction items as [|[k0 t0] items IH]; intros in_degree queue Hnd Hkeys.
  - exists in_degree. split_and!.
    + cbn [for_each]. change (newly_ready c in_degree []) with (@nil string).
      by rewrite app_nil_r.
    + done.
    + intros k. rewrite decide_False; [done | apply not_elem_of_nil].
  - unfold keys in Hnd. simpl in Hnd. apply NoDup_cons in Hnd as [Hk0 Hnd].
    assert (Hkeys' : ∀ k, k ∈ keys items → k ∈ keys in_degree).
    { intros k Hk. apply Hkeys. unfold keys. simpl. by right. }
    cbn [for_each]. destruct (decide (c ∈ depends_on t0)) as [Hc|Hc].
    + destruct (dict_get k0 in_degree) as [n|] eqn:Hn; cycle 1.
      { exfalso. apply dict_get_None in Hn. apply Hn, Hkeys. left. }
      rewrite (release_decrement _ _ _ _ _ _ Hc Hn), bind_Return.
      destruct (IH (dict_set k0 (n - 1) in_degree)
                  (if decide (n = 1) then queue ++ [k0] else queue) Hnd)
        as (in' & Hrun & Hk' & Hget).
      { intros k Hk. rewrite keys_dict_set_in; [auto|].
        apply dict_get_is_Some. by rewrite Hn. }
      exists in'. split_and!.
      * rewrite Hrun. do 2 f_equal.
        assert (newly_ready c (dict_set k0 (n - 1) in_degree) items
                = newly_ready c in_degree items) as ->.
        { unfold newly_ready. f_equal. apply filter_ext_in.
          intros [k t] Hin. simpl. rewrite dict_get_set_ne; [done|].
          intros ->. apply Hk0. eapply keys_dependents_subseteq.
          by eapply elem_keys. }
        unfold newly_ready at 2. rewrite dependents_cons_True by done.
        destruct (decide (n = 1)) as [->|Hn1].
        -- rewrite (filter_cons_True _ (k0, t0)) by done.
           unfold keys. rewrite fmap_cons. cbn [fst].
           by rewrite <- app_assoc.
        -- rewrite (filter_cons_False _ (k0, t0)); [done|].
           cbn [fst]. rewrite Hn. congruence.
      * rewrite Hk'. apply keys_dict_set_in, dict_get_is_Some. by rewrite Hn.
      * intros k. rewrite Hget, dict_get_set.
        rewrite dependents_cons_True by done.
        destruct (decide (k0 = k)) as [<-|Hne].
        -- rewrite decide_False; cycle 1.
           { intros ?. by apply Hk0, (keys_dependents_subseteq c). }
           rewrite decide_True by (unfold keys; simpl; left).
           by rewrite Hn.
        -- destruct (decide (k ∈ keys (dependents c items))) as [Hin|Hin].
           ++ rewrite decide_True; [done|]. unfold keys. simpl. by right.
           ++ rewrite decide_False; [done|]. unfold keys. simpl.
              rewrite not_elem_of_cons. by split.
    + rewrite (release_stay _ _ _ _ _ Hc), bind_Return.
      destruct (IH in_degree queue Hnd Hkeys') as (in' & Hrun & Hk' & Hget).
      exists in'. unfold newly_ready in *.
      rewrite dependents_cons_False by done. done.
Qed.

(** ** The [while] loop keeps its invariant *)

Lemma kahn_inv_in_keys g in_degree queue order k :
  kahn_inv g in_degree queue order → k ∈ order ++ queue → k ∈ keys (tasks g).
Proof.
  intros Hinv Hk. rewrite <- (inv_keys _ _ _ _ Hinv).
  apply dict_get_is_Some. apply (inv_ready _ _ _ _ Hinv) in Hk. by rewrite Hk.
Qed.

Lemma kahn_inv_length g in_degree queue order :
  kahn_inv g in_degree queue order →
  (length order + length queue ≤ length (tasks g))%nat.
Proof.
  intros Hinv. rewrite <- length_app.
  rewrite <- (length_fmap fst (tasks g)).
  apply submseteq_length, NoDup_submseteq; [apply Hinv|].
  intros k Hk. by eapply kahn_inv_in_keys.
Qed.

(** A node whose counter is at zero has all its dependencies emitted. *)
Lemma kahn_inv_zero g in_degree queue order k t d :
  kahn_inv g in_degree queue order → (k, t) ∈ tasks g →
  dict_get k in_degree = Some 0 → d ∈ depends_on t → d ∈ order.
Proof.
  intros Hinv Hin Hzero Hd.
  assert (NoDup order) as Hnd.
  { pose proof (inv_nodup _ _ _ _ Hinv) as H. by apply NoDup_app in H as [? _]. }
  rewrite (inv_degree _ _ _ _ Hinv _ _ Hin) in Hzero.
  apply (emitted_all order (depends_on t)); [done| |done].
  injection Hzero. lia.
Qed.

Lemma kahn_step g in_degree current queue order :
  dag_wf g → kahn_inv g in_degree (current :: queue) order →
  ∃ in_degree',
    for_each (release current) (tasks g) (in_degree, queue)
    = Return (in_degree', queue ++ newly_ready current in_degree (tasks g))
    ∧ kahn_inv g in_degree'
        (queue ++ newly_ready current in_degree (tasks g))
        (order ++ [current]).
Proof.
  intros Hwf Hinv. pose proof Hwf as [Hnd Hname].
  destruct (release_all current (tasks g) in_degree queue Hnd)
    as (in' & Hrun & Hkeys & Hget).
  { intros k. by rewrite (inv_keys _ _ _ _ Hinv). }
  exists in'. split; [done|].
  set (new := newly_ready current in_degree (tasks g)) in *.
  pose proof (inv_nodup _ _ _ _ Hinv) as Hnodup.
  assert (Hcur : current ∉ order).
  { apply NoDup_app in Hnodup as (_ & Hdisj & _). intros Hc.
    apply (Hdisj _ Hc). left. }
  assert (Hlist : (order ++ [current]) ++ queue ++ new
                  = (order ++ current :: queue) ++ new).
  { by rewrite <- !app_assoc. }
  (* membership among the dependents is decided by the node's own list *)
  assert (Hdep : ∀ k t, (k, t) ∈ tasks g →
            k ∈ keys (dependents current (tasks g)) ↔ current ∈ depends_on t).
  { intros k t Hin. rewrite elem_keys_dependents. split.
    - intros (t' & Hin' & Hc). by rewrite (dag_wf_functional g k t t').
    - intros Hc. by exists t. }
  assert (Hold : ∀ k, k ∈ order ++ current :: queue →
            dict_get k in' = Some 0 ∧ dict_get k in_degree = Some 0).
  { intros k Hk. apply (inv_ready _ _ _ _ Hinv) in Hk as Hzero.
    split; [|done]. rewrite Hget, Hzero.
    assert (k ∈ keys (tasks g)) as Hkk by (by eapply kahn_inv_in_keys).
    apply list_elem_of_fmap in Hkk as ([k' t] & -> & Hin). simpl in *.
    rewrite decide_False; [done|]. rewrite (Hdep _ _ Hin). intros Hc.
    apply Hcur. by eapply kahn_inv_zero. }
  split.
  - by rewrite Hkeys, (inv_keys _ _ _ _ Hinv).
  - rewrite Hlist. apply NoDup_app. split_and!; [done| |].
    + intros k Hk Hnew. apply Hold in Hk as [_ Hk].
      apply elem_newly_ready in Hnew as [Hone _]. congruence.
    + by apply NoDup_newly_ready.
  - intros k t Hin. rewrite Hget, (inv_degree _ _ _ _ Hinv _ _ Hin).
    rewrite emitted_snoc.
    destruct (decide (current ∈ depends_on t)) as [Hc|Hc].
    + rewrite decide_True by (by apply (Hdep _ _ Hin)). simpl. f_equal. lia.
    + rewrite decide_False by (by rewrite (Hdep _ _ Hin)). f_equal. lia.
  - intros k. rewrite Hlist, elem_of_app. split.
    + intros [Hk|Hk]; [by apply Hold|].
      apply elem_newly_ready in Hk as (Hone & t & Hin & Hc).
      rewrite Hget, decide_True by (by apply (Hdep _ _ Hin)).
      by rewrite Hone.
    + intros Hzero. rewrite Hget in Hzero.
      destruct (decide (k ∈ keys (dependents current (tasks g)))) as [Hk|Hk].
      * right. apply elem_newly_ready. split.
        -- destruct (dict_get k in_degree) as [n|]; simplify_eq/=.
           f_equal. lia.
        -- by apply elem_keys_dependents.
      * left. by apply (inv_ready _ _ _ _ Hinv).
  - rewrite Hlist. intros i n d Hi Hdepends.
    destruct (decide (i < length (order ++ current :: queue))%nat) as [Hlt|Hge].
    + rewrite lookup_app_l in Hi by done.
      destruct (inv_first _ _ _ _ Hinv i n d Hi Hdepends) as (j & Hj & Hlook).
      exists j. split; [done|]. by apply lookup_app_l_Some.
    + rewrite lookup_app_r in Hi by lia.
      apply list_elem_of_lookup_2, elem_newly_ready in Hi
        as (Hone & t & Hin & Hc).
      destruct Hdepends as (t' & Hin' & Hd).
      rewrite <- (dag_wf_functional g n t t' Hwf Hin Hin') in Hd.
      assert (d ∈ order ++ [current]) as Hemitted.
      { apply (emitted_all _ (depends_on t)); [| |done].
        - rewrite cons_middle, app_assoc in Hnodup.
          by apply NoDup_app in Hnodup as [? _].
        - rewrite emitted_snoc, decide_True by done.
          rewrite (inv_degree _ _ _ _ Hinv _ _ Hin) in Hone.
          injection Hone. lia. }
      apply list_elem_of_lookup_1 in Hemitted as [j Hj].
      exists j. split.
      * apply lookup_lt_Some in Hj. rewrite length_app in *. simpl in *. lia.
      * apply lookup_app_l_Some. rewrite cons_middle, app_assoc.
        by apply lookup_app_l_Some.
Qed.

(** The loop terminates within [len(self.tasks)] iterations, with the queue
    empty, and emits the queued nodes first, in the order of the queue. *)
Lemma while_queue_spec g fuel in_degree queue order :
  dag_wf g → kahn_inv g in_degree queue order →
  (length (tasks g) ≤ length order + fuel)%nat →
  ∃ in_degree' rest,
    while_queue fuel g in_degree queue order = Return (order ++ queue ++ rest)
    ∧ kahn_inv g in_degree' [] (order ++ queue ++ rest).
Proof.
  intros Hwf. revert in_degree queue order.
  induction fuel as [|fuel IH]; intros in_degree queue order Hinv Hfuel.
  - pose proof (kahn_inv_length _ _ _ _ Hinv) as Hlen.
    destruct queue as [|c queue]; [|simpl in Hlen; lia].
    exists in_degree, []. by rewrite !app_nil_r.
  - destruct queue as [|c queue].
    + exists in_degree, []. by rewrite !app_nil_r.
    + destruct (kahn_step g in_degree c queue order Hwf Hinv)
        as (in' & Hrun & Hinv').
      cbn [while_queue]. rewrite Hrun, bind_Return. cbn [fst snd].
      destruct (IH _ _ _ Hinv') as (in'' & rest & Hloop & Hinv'').
      { rewrite length_app. simpl. lia. }
      exists in'', (newly_ready c in_degree (tasks g) ++ rest).
      rewrite Hloop. rewrite <- !app_assoc in *. simpl. done.
Qed.

(** ** The scheduler as a whole *)

Lemma resolves_Forall g :
  resolves g
  ↔ Forall (λ t, Forall (.∈ keys (tasks g)) (depends_on t)) (values (tasks g)).
Proof.
  rewrite Forall_forall. split.
  - intros Hres t ([k t'] & -> & Hin)%list_elem_of_fmap.
    apply Forall_forall. intros d Hd. apply (Hres k). by exists t'.
  - intros Hall n d (t & Hin & Hd).
    specialize (Hall t (elem_values _ _ _ Hin)).
    rewrite Forall_forall in Hall. auto.
Qed.

Global Instance resolves_dec g : Decision (resolves g).
Proof.
  refine (cast_if (decide (Forall (λ t, Forall (.∈ keys (tasks g))
                                        (depends_on t)) (values (tasks g)))));
    by rewrite resolves_Forall.
Defined.

(** The state in which the [while] loop is entered. *)
Lemma kahn_inv_initial g in_degree :
  dag_wf g → keys in_degree = keys (tasks g) →
  (∀ k t, (k, t) ∈ tasks g →
     dict_get k in_degree = Some (Z.of_nat (length (depends_on t)))) →
  kahn_inv g in_degree (filter (λ item, item.2 = 0) in_degree).*1 [].
Proof.
  intros [Hnd Hname] Hkeys Hget.
  assert (dict_wf in_degree) as Hwf by (unfold dict_wf; by rewrite Hkeys).
  assert (Hready : ∀ k, k ∈ (filter (λ item : string * Z, item.2 = 0) in_degree).*1
                        ↔ dict_get k in_degree = Some 0).
  { intros k. rewrite list_elem_of_fmap. split.
    - intros ([k' n] & -> & Hin). apply list_elem_of_filter in Hin as [Hz Hin].
      simpl in *. subst n. by apply dict_get_elem.
    - intros Hz. exists (k, 0). split; [done|]. apply list_elem_of_filter.
      split; [done|]. by apply dict_get_Some_elem. }
  split; rewrite ?app_nil_l.
  - done.
  - eapply sublist_NoDup; [exact Hwf|]. apply fmap_sublist, sublist_filter.
  - intros k t Hin. rewrite (Hget _ _ Hin), filter_nil. simpl. f_equal. lia.
  - done.
  - intros i n d Hi (t & Hin & Hd). exfalso.
    apply list_elem_of_lookup_2, Hready in Hi.
    rewrite (Hget _ _ Hin) in Hi. destruct (depends_on t); [|done].
    by apply elem_of_nil in Hd.
Qed.

(** What [_topological_sort] does on a graph whose dependencies are all
    known: the two loops end, the second with an order that satisfies the
    invariant, and the length of that order decides between the order and
    the exception. *)
Lemma topological_sort_loops g :
  dag_wf g → resolves g →
  ∃ in_degree0 in_degree order,
    initial_in_degree g = Return in_degree0
    ∧ while_queue (length (tasks g)) g in_degree0
        (filter (λ item, item.2 = 0) in_degree0).*1 [] = Return order
    ∧ kahn_inv g in_degree [] order
    ∧ _topological_sort g
      = if decide (length order ≠ length (tasks g))
        then Raise (ValueError "Cycle detected in DAG")
        else Return order.
Proof.
  intros Hwf Hres.
  destruct (initial_in_degree_resolves g Hwf Hres) as (in0 & Hin0 & Hkeys & Hget).
  pose proof (kahn_inv_initial g in0 Hwf Hkeys Hget) as Hinv.
  destruct (while_queue_spec g (length (tasks g)) _ _ _ Hwf Hinv)
    as (in' & rest & Hloop & Hinv'); [simpl; lia|].
  rewrite app_nil_l in *. eexists in0, in', _.
  split_and!; [done|exact Hloop|exact Hinv'|].
  unfold _topological_sort. by rewrite Hin0, bind_Return, Hloop, bind_Return.
Qed.

Lemma topological_sort_resolves g :
  dag_wf g → resolves g →
  ∃ in_degree order,
    kahn_inv g in_degree [] order
    ∧ _topological_sort g
      = if decide (length order ≠ length (tasks g))
        then Raise (ValueError "Cycle detected in DAG")
        else Return order.
Proof.
  intros Hwf Hres.
  destruct (topological_sort_loops g Hwf Hres) as (_ & in' & o & _ & _ & ? & ?).
  by exists in', o.
Qed.

Lemma topological_sort_unknown g :
  dag_wf g → ¬ resolves g →
  ∃ k t dep, (k, t) ∈ tasks g ∧ dep ∈ depends_on t ∧ (dep ∉ keys (tasks g)) ∧
    _topological_sort g
    = Raise (ValueError ("Task '" +:+ name t +:+
                         "' depends on unknown task '" +:+ dep +:+ "'")).
Proof.
  intros Hwf Hres.
  destruct (initial_in_degree_unknown g Hwf Hres) as (k & t & d & ? & ? & ? & Hrun).
  exists k, t, d. unfold _topological_sort. by rewrite Hrun.
Qed.

(** The loop always ends: the bound on the iterations is never reached. *)
Lemma topological_sort_terminates g :
  dag_wf g → _topological_sort g ≠ OutOfFuel.
Proof.
  intros Hwf. destruct (decide (resolves g)) as [Hres|Hres].
  - destruct (topological_sort_resolves g Hwf Hres) as (? & ? & _ & ->).
    by case_decide.
  - destruct (topological_sort_unknown g Hwf Hres)
      as (? & ? & ? & _ & _ & _ & ->). done.
Qed.

(** A dependency path leads to strictly earlier positions. *)
Lemma dependencies_first_tc g order n m i :
  dependencies_first g order → tc (depends g) n m → order !! i = Some n →
  ∃ j, (j < i)%nat ∧ order !! j = Some m.
Proof.
  intros Hfirst Htc. revert i.
  induction Htc as [n m Hdep|n y m Hdep _ IH]; intros i Hi.
  - by apply (Hfirst i n).
  - destruct (Hfirst i n y Hi Hdep) as (j & Hj & Hy).
    destruct (IH j Hy) as (j' & Hj' & Hm). exists j'. split; [lia | done].
Qed.

(** A node on a cycle is never emitted. *)
Lemma cycle_not_emitted g order n :
  dependencies_first g order → NoDup order → tc (depends g) n n → n ∉ order.
Proof.
  intros Hfirst Hnd Htc [i Hi]%list_elem_of_lookup_1.
  destruct (dependencies_first_tc g order n n i Hfirst Htc Hi) as (j & Hj & Hn).
  pose proof (NoDup_lookup _ _ _ _ Hnd Hi Hn). lia.
Qed.

(** In a finite set in which every element has a successor in the set, a
    transitive relation relates some element to itself. *)
Lemma no_sink_cycle {A} `{!EqDecision A} (R : relation A) `{!Transitive R}
    (l : list A) :
  l ≠ [] → (∀ x, x ∈ l → ∃ y, y ∈ l ∧ R x y) → ∃ x, R x x.
Proof.
  induction l as [|x l IH]; [done|]. intros _ Hsucc.
  destruct (Hsucc x) as (y & Hy & Hxy); [left|].
  destruct (decide (y = x)) as [->|Hne]; [by exists x|].
  apply elem_of_cons in Hy as [?|Hy]; [done|].
  apply IH.
  - intros ->. by apply elem_of_nil in Hy.
  - intros z Hz. destruct (Hsucc z) as (w & Hw & Hzw); [by right|].
    apply elem_of_cons in Hw as [->|Hw].
    + exists y. split; [done|]. by trans x.
    + by exists w.
Qed.

(** At the end of the loop, a node that was not emitted has a dependency
    that was not emitted either. *)
Lemma not_emitted_dependency g in_degree order k :
  dag_wf g → resolves g → deps_distinct g →
  kahn_inv g in_degree [] order →
  k ∈ keys (tasks g) → k ∉ order →
  ∃ d, d ∈ keys (tasks g) ∧ (d ∉ order) ∧ depends g k d.
Proof.
  intros Hwf Hres Hdist Hinv Hk Hno.
  apply list_elem_of_fmap in Hk as ([k' t] & -> & Hin). simpl in *.
  destruct (decide (Forall (.∈ order) (depends_on t))) as [Hall|Hex].
  - exfalso. apply Hno. rewrite <- (app_nil_r order).
    apply (inv_ready _ _ _ _ Hinv). rewrite (inv_degree _ _ _ _ Hinv _ _ Hin).
    f_equal. pose proof (inv_nodup _ _ _ _ Hinv) as Hnd.
    rewrite app_nil_r in Hnd.
    pose proof (emitted_le order (depends_on t) Hnd).
    rewrite Forall_forall in Hall.
    pose proof (emitted_full order (depends_on t) (Hdist _ _ Hin) Hall). lia.
  - apply not_Forall_Exists in Hex; [|apply _].
    apply Exists_exists in Hex as (d & Hd & Hnd). simpl in Hnd.
    exists d. split_and!; [|done|by exists t].
    apply (Hres k'). by exists t.
Qed.

(** Without cycles and without repeated entries, every node is emitted. *)
Lemma acyclic_all_emitted g in_degree order k :
  dag_wf g → resolves g → deps_distinct g → acyclic g →
  kahn_inv g in_degree [] order →
  k ∈ keys (tasks g) → k ∈ order.
Proof.
  intros Hwf Hres Hdist Hacyc Hinv Hk.
  destruct (decide (k ∈ order)) as [|Hno]; [done|]. exfalso.
  set (left := filter (.∉ order) (keys (tasks g))).
  destruct (no_sink_cycle (tc (depends g)) left) as [x Hx].
  - intros Hnil. assert (k ∈ left) as Hin by (by apply list_elem_of_filter).
    rewrite Hnil in Hin. by apply elem_of_nil in Hin.
  - intros x [Hxno Hxk]%list_elem_of_filter.
    destruct (not_emitted_dependency g in_degree order x)
      as (d & Hd & Hdno & Hdep); try done.
    exists d. split; [by apply list_elem_of_filter | by apply tc_once].
  - by apply (Hacyc x).
Qed.

Lemma kahn_inv_final_nodup g in_degree order :
  kahn_inv g in_degree [] order → NoDup order.
Proof. intros Hinv. pose proof (inv_nodup _ _ _ _ Hinv) as H. by rewrite app_nil_r in H. Qed.

Lemma kahn_inv_final_first g in_degree order :
  kahn_inv g in_degree [] order → dependencies_first g order.
Proof. intros Hinv. pose proof (inv_first _ _ _ _ Hinv) as H. by rewrite app_nil_r in H. Qed.

Lemma kahn_inv_final_keys g in_degree order k :
  kahn_inv g in_degree [] order → k ∈ order → k ∈ keys (tasks g).
Proof. intros Hinv Hk. eapply kahn_inv_in_keys; [done|]. by rewrite app_nil_r. Qed.

(** An order that the scheduler returns is a permutation of the node names
    that puts every node after its dependencies; it is only returned when
    all dependencies are known. *)
Lemma topological_sort_Return g order :
  dag_wf g → _topological_sort g = Return order →
  resolves g ∧ NoDup order ∧ order ≡ₚ keys (tasks g)
  ∧ dependencies_first g order.
Proof.
  intros Hwf Hrun. destruct (decide (resolves g)) as [Hres|Hres]; cycle 1.
  { destruct (topological_sort_unknown g Hwf Hres)
      as (? & ? & ? & _ & _ & _ & Hraise). congruence. }
  destruct (topological_sort_resolves g Hwf Hres) as (in' & o & Hinv & Hsort).
  rewrite Hrun in Hsort. case_decide as Hlen; [done|]. simplify_eq.
  split_and!; [done|by eapply kahn_inv_final_nodup| |by eapply kahn_inv_final_first].
  apply submseteq_length_Permutation.
  - apply NoDup_submseteq; [by eapply kahn_inv_final_nodup|].
    intros k. by eapply kahn_inv_final_keys.
  - unfold keys. rewrite length_fmap. lia.
Qed.

(** The scheduler is correct on the acyclic graphs in which no node lists a
    dependency twice. *)
Lemma topological_sort_sound g :
  dag_wf g → resolves g → deps_distinct g → acyclic g →
  ∃ order, _topological_sort g = Return order
    ∧ order ≡ₚ keys (tasks g) ∧ dependencies_first g order.
Proof.
  intros Hwf Hres Hdist Hacyc.
  destruct (topological_sort_resolves g Hwf Hres) as (in' & order & Hinv & Hsort).
  assert (length order = length (tasks g)) as Hlen.
  { apply Nat.le_antisymm.
    - pose proof (kahn_inv_length _ _ _ _ Hinv). simpl in *. lia.
    - rewrite <- (length_fmap fst (tasks g)).
      apply submseteq_length, NoDup_submseteq; [apply Hwf|].
      intros k Hk. by eapply acyclic_all_emitted. }
  rewrite decide_False in Hsort by lia. exists order. split; [done|].
  by apply topological_sort_Return in Hsort as (_ & _ & ? & ?).
Qed.

Lemma tc_depends_key g n m : tc (depends g) n m → n ∈ keys (tasks g).
Proof.
  intros [? ? (t & Hin & _)|? ? ? (t & Hin & _) _]; by eapply elem_keys.
Qed.

(** On a graph with a cycle the emitted order is too short. *)
Lemma cycle_order_short g in_degree order n :
  dag_wf g → kahn_inv g in_degree [] order → tc (depends g) n n →
  (length order < length (tasks g))%nat.
Proof.
  intros Hwf Hinv Hcyc.
  pose proof (kahn_inv_final_nodup _ _ _ Hinv) as Hnd.
  assert (n ∉ order) as Hn
    by (eapply cycle_not_emitted; [by eapply kahn_inv_final_first|done..]).
  assert (n ∈ keys (tasks g)) as Hk.
  { by eapply tc_depends_key. }
  assert (length (n :: order) ≤ length (tasks g))%nat; [|simpl in *; lia].
  rewrite <- (length_fmap fst (tasks g)).
  apply submseteq_length, NoDup_submseteq; [by apply NoDup_cons|].
  intros k [->|Hko]%elem_of_cons; [done|]. by eapply kahn_inv_final_keys.
Qed.

Lemma topological_sort_cycle g n :
  dag_wf g → resolves g → tc (depends g) n n →
  _topological_sort g = Raise (ValueError "Cycle detected in DAG").
Proof.
  intros Hwf Hres Hcyc.
  destruct (topological_sort_resolves g Hwf Hres) as (in' & order & Hinv & ->).
  pose proof (cycle_order_short g in' order n Hwf Hinv Hcyc).
  rewrite decide_True; [done | lia].
Qed.
(** ** The nodes that the scheduler cannot emit *)

Lemma emitted_perm (order deps : list string) :
  NoDup order →
  (length deps ≤ length (filter (.∈ deps) order))%nat →
  filter (.∈ deps) order ≡ₚ deps.
Proof.
  intros Hnd Hlen. apply submseteq_length_Permutation; [|done].
  apply NoDup_submseteq; [by apply NoDup_filter|].
  intros x Hx. by apply list_elem_of_filter in Hx as [? _].
Qed.

(** A node that lists a dependency twice is never emitted: its counter
    starts above the number of nodes that can decrement it. *)
Lemma duplicate_not_emitted g in_degree order k t :
  kahn_inv g in_degree [] order → (k, t) ∈ tasks g →
  ¬ NoDup (depends_on t) → k ∉ order.
Proof.
  intros Hinv Hin Hdup Hk. apply Hdup.
  pose proof (kahn_inv_final_nodup _ _ _ Hinv) as Hnd.
  rewrite <- (app_nil_r order) in Hk.
  apply (inv_ready _ _ _ _ Hinv) in Hk.
  rewrite (inv_degree _ _ _ _ Hinv _ _ Hin) in Hk.
  rewrite <- (emitted_perm order (depends_on t) Hnd).
  - by apply NoDup_filter.
  - injection Hk. lia.
Qed.

Lemma topological_sort_Return_distinct g order :
  dag_wf g → _topological_sort g = Return order → deps_distinct g.
Proof.
  intros Hwf Hsort k t Hin.
  destruct (topological_sort_Return g order Hwf Hsort) as (Hres & _ & Hperm & _).
  destruct (topological_sort_resolves g Hwf Hres) as (in' & o & Hinv & Heq).
  rewrite Hsort in Heq. case_decide; [done|]. simplify_eq.
  destruct (decide (NoDup (depends_on t))) as [|Hdup]; [done|]. exfalso.
  apply (duplicate_not_emitted _ _ _ _ _ Hinv Hin Hdup).
  rewrite Hperm. by eapply elem_keys.
Qed.

Lemma topological_sort_Return_acyclic g order :
  dag_wf g → _topological_sort g = Return order → acyclic g.
Proof.
  intros Hwf Hsort n Hcyc.
  destruct (topological_sort_Return g order Hwf Hsort) as (Hres & _).
  by rewrite (topological_sort_cycle g n Hwf Hres Hcyc) in Hsort.
Qed.

(** ** The nodes without dependencies come first *)

Lemma filter_keys {V} (P : string * V → Prop) `{!∀ x, Decision (P x)}
    (d : dict V) :
  dict_wf d →
  (filter P d).*1
  = filter (λ k, from_option (λ v, P (k, v)) False (dict_get k d)) (keys d).
Proof.
  unfold dict_wf, keys. induction d as [|[k v] d IH]; [done|].
  rewrite fmap_cons, NoDup_cons. cbn [fst]. intros [Hk Hnd].
  assert (Hhead : dict_get k ((k, v) :: d) = Some v).
  { cbn [dict_get]. by rewrite decide_True. }
  assert (filter (λ k0, from_option (λ v, P (k0, v)) False
                          (dict_get k0 ((k, v) :: d))) d.*1
          = filter (λ k0, from_option (λ v, P (k0, v)) False (dict_get k0 d))
              d.*1)
    as Heq.
  { apply filter_ext_in. intros k0 Hk0. cbn [dict_get].
    rewrite decide_False; [done|]. by intros ->. }
  destruct (decide (P (k, v))) as [HP|HP].
  - rewrite (filter_cons_True _ (k, v)) by done.
    rewrite (filter_cons_True _ k) by (by rewrite Hhead).
    rewrite fmap_cons. cbn [fst]. f_equal. by rewrite Heq, <- IH.
  - rewrite (filter_cons_False _ (k, v)) by done.
    rewrite (filter_cons_False _ k) by (by rewrite Hhead).
    by rewrite Heq, <- IH.
Qed.

Lemma initial_queue_roots g in_degree :
  dag_wf g → keys in_degree = keys (tasks g) →
  (∀ k t, (k, t) ∈ tasks g →
     dict_get k in_degree = Some (Z.of_nat (length (depends_on t)))) →
  (filter (λ item, item.2 = 0) in_degree).*1 = roots g.
Proof.
  intros [Hnd _] Hkeys Hget. unfold roots.
  rewrite !filter_keys by (done || (unfold dict_wf; by rewrite Hkeys)).
  rewrite Hkeys. apply filter_ext_in. intros k Hk.
  apply list_elem_of_fmap in Hk as ([k' t] & -> & Hin). cbn [fst].
  rewrite (Hget _ _ Hin), (dict_get_elem _ _ _ Hnd Hin). cbn [from_option snd].
  destruct (depends_on t); simpl; split; (done || lia).
Qed.

(** ** One visit of the executor *)

Lemma upstream_failed_total (tasks : dict TaskNode) deps :
  (∀ d, d ∈ deps → d ∈ keys tasks) →
  ∃ b, upstream_failed tasks deps = Return b.
Proof.
  induction deps as [|d deps IH]; intros Hdeps; [by exists false|].
  cbn [upstream_failed]. unfold dict_item.
  destruct (dict_get d tasks) as [t|] eqn:Hd; cycle 1.
  { exfalso. apply dict_get_None in Hd. apply Hd, Hdeps. left. }
  rewrite bind_Return. case_decide; [by exists true|].
  apply IH. intros ??. apply Hdeps. by right.
Qed.

Lemma upstream_failed_true (tasks : dict TaskNode) deps :
  upstream_failed tasks deps = Return true →
  ∃ d td, d ∈ deps ∧ dict_get d tasks = Some td ∧ status td = FAILED.
Proof.
  induction deps as [|d deps IH]; [done|]. cbn [upstream_failed].
  unfold dict_item. destruct (dict_get d tasks) as [td|] eqn:Hd; [|done].
  rewrite bind_Return. case_decide.
  - intros _. exists d, td. split_and!; [left|done..].
  - intros (d' & td' & ? & ? & ?)%IH. exists d', td'. split_and!; [by right|done..].
Qed.

Lemma upstream_failed_false (tasks : dict TaskNode) deps d td :
  upstream_failed tasks deps = Return false →
  d ∈ deps → dict_get d tasks = Some td → status td ≠ FAILED.
Proof.
  induction deps as [|d' deps IH]; intros Hrun Hd Hget.
  { by apply elem_of_nil in Hd. }
  cbn [upstream_failed] in Hrun. unfold dict_item in Hrun.
  destruct (dict_get d' tasks) as [td'|] eqn:Hd'; [|done].
  rewrite bind_Return in Hrun. case_decide; [done|].
  apply elem_of_cons in Hd as [->|Hd]; [congruence | by apply IH].
Qed.


Lemma merge_upstream_total (tasks : dict TaskNode) shared deps context :
  (∀ d, d ∈ deps → d ∈ keys tasks) →
  ∃ context', merge_upstream tasks shared deps context = Return context'.
Proof.
  unfold merge_upstream. revert context.
  induction deps as [|d deps IH]; intros context Hdeps; [by exists context|].
  cbn [for_each]. unfold dict_item.
  destruct (dict_get d tasks) as [t|] eqn:Hd; cycle 1.
  { exfalso. apply dict_get_None in Hd. apply Hd, Hdeps. left. }
  rewrite !bind_Return. apply IH. intros ??. apply Hdeps. by right.
Qed.


(** Merging, said with what the nodes hold after the calls [pre]. *)
Lemma merge_upstream_merged g pre (nodes : dict TaskNode) shared deps context :
  (∀ d, d ∈ deps →
     ∃ t t', dict_get d (tasks g) = Some t ∧ dict_get d nodes = Some t'
       ∧ ∀ c, held shared c d t' = holds pre c d t) →
  merge_upstream nodes shared deps context
  = Return (merged g pre deps context).
Proof.
  unfold merge_upstream, merged. revert context.
  induction deps as [|d deps IH]; intros context Hdeps; [done|].
  destruct (Hdeps d) as (t & t' & Ht & Ht' & Hheld); [left|].
  cbn [for_each foldl]. rewrite (dict_item_Return _ _ _ Ht'), !bind_Return.
  rewrite Ht, Hheld. apply IH. intros ??. apply Hdeps. by right.
Qed.

Section visit_lemmas.
Variable elapsed_ms : string → Z.
Variable round2 : Z → Z.

Lemma invoke_definition n t c :
  name (invoke elapsed_ms n t c) = name t
  ∧ execute_fn (invoke elapsed_ms n t c) = execute_fn t
  ∧ depends_on (invoke elapsed_ms n t c) = depends_on t.
Proof. unfold invoke. by destruct (execute_fn _ c). Qed.

Lemma invoke_duration n t c :
  duration_ms (invoke elapsed_ms n t c) = elapsed_ms n.
Proof. unfold invoke. by destruct (execute_fn _ c). Qed.

(** What a call leaves in the node, by the way it ended. *)
Lemma invoke_Returns n t c context' value :
  execute_fn t c = Returns context' value →
  status (invoke elapsed_ms n t c) = SUCCESS
  ∧ error (invoke elapsed_ms n t c) = error t
  ∧ result (invoke elapsed_ms n t c)
    = holds_after (execute_fn t c) (result t) context'.
Proof. intros H. unfold invoke. simpl. by rewrite H. Qed.

Lemma invoke_Raises n t c context' str_exc :
  execute_fn t c = Raises context' str_exc →
  status (invoke elapsed_ms n t c) = FAILED
  ∧ error (invoke elapsed_ms n t c) = Some str_exc
  ∧ result (invoke elapsed_ms n t c) = result t.
Proof. intros H. unfold invoke. simpl. by rewrite H. Qed.

Lemma invoke_Escapes n t c context' exc :
  execute_fn t c = Escapes context' exc →
  status (invoke elapsed_ms n t c) = RUNNING
  ∧ error (invoke elapsed_ms n t c) = error t
  ∧ result (invoke elapsed_ms n t c) = result t.
Proof. intros H. unfold invoke. simpl. by rewrite H. Qed.

Lemma invoke_not_skipped n t c : status (invoke elapsed_ms n t c) ≠ SKIPPED.
Proof. unfold invoke. simpl. by destruct (execute_fn t c). Qed.

(** A visit of a node that is there, with its dependencies: the node is
    skipped, or its logic is called with the merged context. *)
Lemma visit_known st n t :
  dict_get n (st_tasks st) = Some t →
  (∀ d, d ∈ depends_on t → d ∈ keys (st_tasks st)) →
  (upstream_failed (st_tasks st) (depends_on t) = Return true
   ∧ visit elapsed_ms round2 st n = (skipped_state n t st, Return ()))
  ∨ (upstream_failed (st_tasks st) (depends_on t) = Return false
     ∧ ∃ context,
         merge_upstream (st_tasks st) (st_shared st) (depends_on t)
           (st_context st) = Return context
         ∧ visit elapsed_ms round2 st n
           = (ran_state elapsed_ms round2 n t context st,
              leaves (execute_fn t context))).
Proof.
  intros Hn Hdeps. unfold visit. rewrite (dict_item_Return _ _ _ Hn).
  destruct (upstream_failed_total _ _ Hdeps) as [[] Hf]; rewrite Hf.
  - by left.
  - right. split; [done|].
    destruct (merge_upstream_total _ (st_shared st) _ (st_context st) Hdeps)
      as [c Hc].
    exists c. split; [done|]. rewrite Hc. unfold ran_state, leaves.
    by destruct (execute_fn t c).
Qed.
End visit_lemmas.

(** ** What [run] leaves untouched *)

Lemma definitions_set (d : dict TaskNode) k t t' :
  dict_get k d = Some t →
  name t' = name t → execute_fn t' = execute_fn t →
  depends_on t' = depends_on t →
  definitions (dict_set k t' d) = definitions d.
Proof.
  intros Hget Hn Hf Hd. unfold definitions.
  induction d as [|[k0 t0] d IH]; [done|]. cbn [dict_get] in Hget.
  cbn [dict_set]. case_decide.
  - simplify_eq. cbn [map fst snd]. by rewrite Hn, Hf, Hd.
  - cbn [map]. f_equal. by apply IH.
Qed.

Lemma definitions_keys (d d' : dict TaskNode) :
  definitions d = definitions d' → keys d = keys d'.
Proof.
  unfold definitions, keys. revert d'.
  induction d as [|[k t] d IH]; intros [|[k' t'] d'] Heq; try done.
  simplify_eq/=. f_equal. by apply IH.
Qed.

Lemma definitions_get (d d' : dict TaskNode) k t :
  definitions d = definitions d' → dict_get k d = Some t →
  ∃ t', dict_get k d' = Some t' ∧ name t' = name t
        ∧ execute_fn t' = execute_fn t ∧ depends_on t' = depends_on t.
Proof.
  unfold definitions. revert d'.
  induction d as [|[k0 t0] d IH]; intros [|[k0' t0'] d'] Heq Hget; try done.
  simplify_eq/=. case_decide.
  - simplify_eq. by exists t0'.
  - by apply IH.
Qed.

Lemma definitions_length (d d' : dict TaskNode) :
  definitions d = definitions d' → length d = length d'.
Proof.
  intros H. apply (f_equal length) in H. unfold definitions in H.
  by rewrite !length_map in H.
Qed.

(** A graph with the definitions of a well-formed graph is well formed. *)
Lemma dag_wf_definitions g g' :
  definitions (tasks g') = definitions (tasks g) → dag_wf g → dag_wf g'.
Proof.
  intros Hdef [Hnd Hname]. split.
  - unfold dict_wf. by rewrite (definitions_keys _ _ Hdef).
  - revert Hname Hdef. unfold definitions. generalize (tasks g) (tasks g').
    induction l as [|[k t] l IH]; intros [|[k' t'] l'] Hname Heq;
      simplify_eq/=; constructor.
    + apply Forall_cons in Hname as [Hk _]. simpl in *. congruence.
    + apply Forall_cons in Hname as [_ Hl]. by apply IH.
Qed.

Lemma set_result_result t : set_result (result t) t = t.
Proof. by destruct t. Qed.

Lemma dict_get_published st n :
  dict_get n (published st)
  = (λ t, set_result (held (st_shared st) (st_context st) n t) t)
    <$> dict_get n (st_tasks st).
Proof.
  unfold published. induction (st_tasks st) as [|[k t] d IH]; [done|].
  cbn [map dict_get fst snd]. case_decide; [by subst|done].
Qed.

Lemma definitions_published st :
  definitions (published st) = definitions (st_tasks st).
Proof.
  unfold definitions, published. rewrite map_map. apply map_ext.
  by intros [k t].
Qed.

Section run_lemmas.
Variable elapsed_ms : string → Z.
Variable round2 : Z → Z.

Lemma visit_definitions st n :
  definitions (st_tasks (visit elapsed_ms round2 st n).1)
  = definitions (st_tasks st).
Proof.
  unfold visit, dict_item.
  destruct (dict_get n (st_tasks st)) as [t|] eqn:Hget; [|done].
  destruct (upstream_failed _ _) as [[]| |]; try done.
  - by eapply definitions_set.
  - destruct (merge_upstream _ _ _ _) as [c| |]; try done. simpl.
    eapply definitions_set; [done|..]; apply invoke_definition.
Qed.

Lemma run_loop_definitions execution_order st :
  definitions (st_tasks (run_loop elapsed_ms round2 execution_order st).1)
  = definitions (st_tasks st).
Proof.
  revert st. induction execution_order as [|n rest IH]; intros st; [done|].
  cbn [run_loop]. pose proof (visit_definitions st n) as Hv.
  destruct (visit elapsed_ms round2 st n) as [st1 [[]| |]]; try done.
  by rewrite IH.
Qed.

(** [run] changes neither the name of the graph nor the definition of a
    node, whatever its outcome. *)
Lemma run_definitions g ctx :
  dag_name (run elapsed_ms round2 g ctx).1.1 = dag_name g
  ∧ definitions (tasks (run elapsed_ms round2 g ctx).1.1)
    = definitions (tasks g).
Proof.
  unfold run. destruct (_topological_sort g) as [order| |]; [|done..].
  pose proof (run_loop_definitions order (initial_state g ctx)) as Hdef.
  destruct (run_loop _ _ _ _) as [st r]. simpl. split; [done|].
  by rewrite definitions_published.
Qed.
End run_lemmas.
(** ** The loop of the executor *)

Lemma depends_get g n d t :
  dict_get n (tasks g) = Some t → d ∈ depends_on t → depends g n d.
Proof. intros Hget Hd. exists t. split; [by apply dict_get_Some_elem | done]. Qed.


(** In an order with the dependencies first, the dependencies of a node
    are among the nodes before it. *)
Lemma deps_in_prefix g order pre n post d :
  dependencies_first g order → order = pre ++ n :: post → depends g n d →
  d ∈ pre.
Proof.
  intros Hfirst -> Hdep.
  destruct (Hfirst (length pre) n d) as (j & Hj & Hd); [|done|].
  { by rewrite list_lookup_middle. }
  rewrite lookup_app_l in Hd by done. by eapply list_elem_of_lookup_2.
Qed.

Lemma snoc_split {A} (pre post l : list A) x y :
  l ++ [y] = pre ++ x :: post →
  (post = [] ∧ pre = l ∧ x = y)
  ∨ ∃ post', post = post' ++ [y] ∧ l = pre ++ x :: post'.
Proof.
  destruct (decide (post = [])) as [->|Hne]; intros Heq; symmetry in Heq.
  - left. apply app_inj_tail in Heq as [-> ->]. done.
  - right. destruct (exists_last Hne) as (post' & z & ->).
    rewrite app_comm_cons, app_assoc in Heq.
    apply app_inj_tail in Heq as [<- ->]. by exists post'.
Qed.

Lemma dict_get_snoc_ne {V} (d : dict V) k k' v :
  k ≠ k' → dict_get k' (d ++ [(k, v)]) = dict_get k' d.
Proof.
  intros Hne. induction d as [|[k0 v0] d IH]; cbn [app dict_get].
  - by rewrite decide_False.
  - by rewrite IH.
Qed.

Lemma dict_get_snoc_eq {V} (d : dict V) k v :
  k ∉ keys d → dict_get k (d ++ [(k, v)]) = Some v.
Proof.
  unfold keys. induction d as [|[k0 v0] d IH]; cbn [app dict_get].
  - by rewrite decide_True.
  - rewrite fmap_cons, not_elem_of_cons. cbn [fst]. intros [Hne Hk].
    rewrite decide_False by done. by apply IH.
Qed.

Lemma elem_shared_after_ne shared n c m :
  m ≠ n → m ∈ shared_after shared n c ↔ m ∈ shared.
Proof.
  intros Hne. unfold shared_after.
  destruct c; [|done..]. destruct (returns_context _); set_solver.
Qed.

Lemma elem_shared_after_eq shared n c :
  n ∉ shared → n ∈ shared_after shared n c ↔ returns_context c = true.
Proof.
  intros Hn. unfold shared_after.
  destruct c as [c' v| |]; [|done..].
  destruct (returns_context (Returns c' v)); set_solver.
Qed.

Section loop_lemmas.
Variable elapsed_ms : string → Z.
Variable round2 : Z → Z.

Lemma run_inv_initial g ctx :
  run_inv elapsed_ms round2 g (default ∅ ctx) [] (initial_state g ctx).
Proof.
  split; simpl; try done.
  - intros [|??] * Heq; simplify_eq/=.
  - intros ? t H. by apply elem_of_nil in H.
Qed.

Lemma run_inv_calls_wf g initial prefix st :
  NoDup prefix → run_inv elapsed_ms round2 g initial prefix st →
  dict_wf (st_calls st).
Proof.
  intros Hnd Hinv. eapply sublist_NoDup; [exact Hnd|].
  apply (ri_calls _ _ _ _ _ _ Hinv).
Qed.

(** What a node holds in a state of the loop is what the calls made so far
    have left it. *)
Lemma run_inv_holds g initial prefix st d t :
  NoDup prefix → run_inv elapsed_ms round2 g initial prefix st →
  dict_get d (tasks g) = Some t →
  ∃ t', dict_get d (st_tasks st) = Some t'
    ∧ ∀ c, held (st_shared st) c d t' = holds (st_calls st) c d t.
Proof.
  intros Hnd Hinv Hd. pose proof (run_inv_calls_wf _ _ _ _ Hnd Hinv) as Hwf.
  destruct (decide (d ∈ prefix)) as [Hin|Hin].
  - destruct (ri_visited _ _ _ _ _ _ Hinv d t Hin Hd)
      as [(Hget & Hsh & _ & Hno & _)|(c0 & Hcall & Hleaves & Hget & Hsh & _)].
    + exists (set_status SKIPPED t). split; [done|]. intros c.
      unfold held, holds. rewrite decide_False by done.
      apply dict_get_None in Hno. by rewrite Hno.
    + exists (invoke elapsed_ms d t c0). split; [done|]. intros c.
      unfold held, holds. rewrite (dict_get_elem _ _ _ Hwf Hcall).
      destruct (execute_fn t c0) as [c' v|c' msg|c' exc] eqn:Hend;
        [| |done].
      * destruct (invoke_Returns elapsed_ms d t c0 c' v Hend) as (_ & _ & Hres).
        rewrite Hend in Hres. rewrite Hres.
        destruct (returns_context (Returns c' v)) eqn:Hrc.
        -- rewrite decide_True by (by apply Hsh).
           destruct v; try done. cbn [holds_after]. by rewrite Hrc.
        -- rewrite decide_False by (rewrite Hsh; congruence).
           destruct v; try done. cbn [holds_after]. by rewrite Hrc.
      * destruct (invoke_Raises elapsed_ms d t c0 c' msg Hend) as (_ & _ & Hres).
        rewrite decide_False by (rewrite Hsh; simpl; congruence).
        by rewrite Hres.
  - destruct (ri_unvisited _ _ _ _ _ _ Hinv d Hin) as [Hget Hsh].
    exists t. split; [congruence|]. intros c. unfold held, holds.
    rewrite decide_False by done.
    assert (d ∉ (st_calls st).*1) as Hno.
    { intros H. apply Hin. eapply elem_of_sublist; [exact H|apply Hinv]. }
    apply dict_get_None in Hno. by rewrite Hno.
Qed.

(** What the visit of a node wrote is not touched by the visit of another
    node, when that node is not one of its dependencies. *)
Lemma visited_skipped_stable st st' m tm new :
  visited_skipped st m tm →
  dict_get m (st_tasks st') = dict_get m (st_tasks st) →
  (m ∈ st_shared st' ↔ m ∈ st_shared st) →
  dict_get m (st_summary st') = dict_get m (st_summary st) →
  st_calls st' = st_calls st ++ new → m ∉ new.*1 →
  (∀ d, d ∈ depends_on tm →
     dict_get d (st_tasks st') = dict_get d (st_tasks st)) →
  visited_skipped st' m tm.
Proof.
  intros (Hget & Hsh & Hsum & Hno & d & td & Hd & Hgetd & Hst)
    Htasks Hshared Hsummary Hcalls Hnew Hdeps.
  split_and!.
  - congruence.
  - by rewrite Hshared.
  - congruence.
  - rewrite Hcalls, fmap_app, elem_of_app. tauto.
  - exists d, td. by rewrite Hdeps.
Qed.

Lemma visited_called_stable st st' m tm c new :
  visited_called elapsed_ms round2 st m tm c →
  dict_get m (st_tasks st') = dict_get m (st_tasks st) →
  (m ∈ st_shared st' ↔ m ∈ st_shared st) →
  dict_get m (st_summary st') = dict_get m (st_summary st) →
  st_calls st' = st_calls st ++ new →
  (∀ d, d ∈ depends_on tm →
     dict_get d (st_tasks st') = dict_get d (st_tasks st)) →
  visited_called elapsed_ms round2 st' m tm c.
Proof.
  intros (Hcall & Hleaves & Hget & Hsh & Hsum & Hdeps')
    Htasks Hshared Hsummary Hcalls Hdeps.
  split_and!.
  - rewrite Hcalls, elem_of_app. by left.
  - done.
  - congruence.
  - by rewrite Hshared.
  - congruence.
  - intros d td Hd. rewrite Hdeps by done. by apply Hdeps'.
Qed.

(** The visit of the next node of the order: it ends normally and the
    invariant holds of the longer prefix, or the logic of the node raises
    an exception that is not caught. *)
Lemma run_inv_visit g initial prefix st n t :
  dag_wf g → resolves g → NoDup prefix → n ∉ prefix →
  (∀ m d, m ∈ prefix → depends g m d → d ∈ prefix) →
  (∀ d, depends g n d → d ∈ prefix) →
  run_inv elapsed_ms round2 g initial prefix st →
  dict_get n (tasks g) = Some t →
  (∃ st', visit elapsed_ms round2 st n = (st', Return ())
     ∧ run_inv elapsed_ms round2 g initial (prefix ++ [n]) st')
  ∨ (∃ context' exc,
       let c := merged g (st_calls st) (depends_on t) (st_context st) in
       execute_fn t c = Escapes context' exc
       ∧ visit elapsed_ms round2 st n
         = (ran_state elapsed_ms round2 n t c st,
            Raise (SystemExiting exc))).
Proof.
  intros Hwf Hres Hnd Hn Hclosed Hdeps Hinv Hget.
  destruct (ri_unvisited _ _ _ _ _ _ Hinv n Hn) as [Hn_st Hn_sh].
  rewrite Hget in Hn_st.
  pose proof (definitions_keys _ _ (ri_definitions _ _ _ _ _ _ Hinv)) as Hkeys.
  assert (Hknown : ∀ d, d ∈ depends_on t → d ∈ keys (st_tasks st)).
  { intros d Hd. rewrite Hkeys. apply (Hres n). by eapply depends_get. }
  assert (Hne : ∀ d, d ∈ depends_on t → d ≠ n).
  { intros d Hd ->. apply Hn, Hdeps. by eapply depends_get. }
  assert (Hn_calls : n ∉ (st_calls st).*1).
  { intros H. apply Hn. eapply elem_of_sublist; [exact H|apply Hinv]. }
  assert (Hn_summary : n ∉ keys (st_summary st)).
  { by rewrite (ri_summary_keys _ _ _ _ _ _ Hinv). }
  (* the nodes visited before keep what they have *)
  assert (Hold : ∀ st' new,
            (∀ m, m ≠ n → dict_get m (st_tasks st') = dict_get m (st_tasks st)) →
            (∀ m, m ≠ n → m ∈ st_shared st' ↔ m ∈ st_shared st) →
            (∀ m, m ≠ n →
               dict_get m (st_summary st') = dict_get m (st_summary st)) →
            st_calls st' = st_calls st ++ new → (∀ m, m ∈ new.*1 → m = n) →
            ∀ m tm, m ∈ prefix → dict_get m (tasks g) = Some tm →
              visited_skipped st' m tm
              ∨ ∃ c, visited_called elapsed_ms round2 st' m tm c).
  { intros st' new Htasks Hshared Hsummary Hcalls Hnew m tm Hm Hgetm.
    assert (m ≠ n) as Hmn by (by intros ->).
    assert (∀ d, d ∈ depends_on tm →
              dict_get d (st_tasks st') = dict_get d (st_tasks st)) as Hdm.
    { intros d Hd. apply Htasks. intros ->. apply Hn, (Hclosed m); [done|].
      by eapply depends_get. }
    destruct (ri_visited _ _ _ _ _ _ Hinv m tm Hm Hgetm) as [Hs|[c Hc]].
    - left. eapply visited_skipped_stable; eauto.
    - right. exists c. eapply visited_called_stable; eauto. }
  destruct (visit_known elapsed_ms round2 st n t Hn_st Hknown)
    as [[Hfailed Hv]|(Hfailed & c & Hmerge & Hv)].
  - (* skipped *)
    left. eexists. split; [exact Hv|].
    split; cbn [skipped_state st_tasks st_context st_shared st_summary st_calls].
    + rewrite <- (ri_definitions _ _ _ _ _ _ Hinv). by eapply definitions_set.
    + rewrite dict_set_notin by done. unfold keys. rewrite fmap_app.
      by rewrite <- (ri_summary_keys _ _ _ _ _ _ Hinv).
    + apply sublist_inserts_r, Hinv.
    + apply Hinv.
    + apply Hinv.
    + intros m [Hm Hmn%not_elem_of_cons]%not_elem_of_app.
      destruct Hmn as [Hmn _]. rewrite dict_get_set_ne by done.
      by apply (ri_unvisited _ _ _ _ _ _ Hinv).
    + intros m tm [Hm|Hm%list_elem_of_singleton]%elem_of_app Hgetm.
      * apply (Hold (skipped_state n t st) []); simpl; try done.
        -- intros ??. by rewrite dict_get_set_ne.
        -- intros ??. by rewrite dict_get_set_ne.
        -- by rewrite app_nil_r.
        -- intros ? H. by apply elem_of_nil in H.
      * subst m. assert (tm = t) as -> by congruence.
        left. split_and!; simpl.
        -- by rewrite dict_get_set_eq.
        -- done.
        -- by rewrite dict_get_set_eq.
        -- done.
        -- apply upstream_failed_true in Hfailed as (d & td & Hd & Hgetd & Hst).
           exists d, td. rewrite dict_get_set_ne by (by apply not_eq_sym, Hne).
           done.
  - (* called *)
    assert (c = merged g (st_calls st) (depends_on t) (st_context st)) as Hc.
    { rewrite (merge_upstream_merged g (st_calls st)) in Hmerge.
      - by simplify_eq.
      - intros d Hd.
        assert (is_Some (dict_get d (tasks g))) as [td Htd].
        { apply dict_get_is_Some, (Hres n). by eapply depends_get. }
        destruct (run_inv_holds _ _ _ _ d td Hnd Hinv Htd) as (t' & ? & ?).
        by exists td, t'. }
    destruct (leaves (execute_fn t c)) as [[]|e|] eqn:Hleaves; cycle 1.
    { right. unfold leaves in Hleaves.
      destruct (execute_fn t c) as [c' v|c' msg|c' exc] eqn:Hend;
        [done|done|].
      exists c', exc. cbn zeta. rewrite <- Hc. split; [done|].
      rewrite Hv. by simplify_eq. }
    { unfold leaves in Hleaves. by destruct (execute_fn t c). }
    assert (Hsummary : st_summary (ran_state elapsed_ms round2 n t c st)
              = dict_set n
                  (RanEntry (status_value (status (invoke elapsed_ms n t c)))
                     (round2 (duration_ms (invoke elapsed_ms n t c)))
                     (error (invoke elapsed_ms n t c)))
                  (st_summary st)).
    { unfold ran_state. simpl. unfold leaves in Hleaves.
      by destruct (execute_fn t c). }
    left. eexists. split; [by rewrite Hv|].
    split; rewrite ?Hsummary;
      cbn [ran_state st_tasks st_context st_shared st_calls].
    + rewrite <- (ri_definitions _ _ _ _ _ _ Hinv).
      eapply definitions_set; [done|..]; apply invoke_definition.
    + rewrite dict_set_notin by done. unfold keys. rewrite fmap_app.
      by rewrite <- (ri_summary_keys _ _ _ _ _ _ Hinv).
    + rewrite fmap_app. apply sublist_app; [apply Hinv|done].
    + unfold context_left. by rewrite last_snoc, Hget.
    + intros pre n0 c0 post
        [(-> & -> & [= -> ->])|(post' & -> & Heq)]%snoc_split.
      * exists t. split; [done|].
        by rewrite <- (ri_context _ _ _ _ _ _ Hinv).
      * by apply (ri_chain _ _ _ _ _ _ Hinv pre n0 c0 post').
    + intros m [Hm Hmn%not_elem_of_cons]%not_elem_of_app.
      destruct Hmn as [Hmn _]. rewrite dict_get_set_ne by done.
      rewrite elem_shared_after_ne by done.
      by apply (ri_unvisited _ _ _ _ _ _ Hinv).
    + intros m tm [Hm|Hm%list_elem_of_singleton]%elem_of_app Hgetm.
      * apply (Hold (ran_state elapsed_ms round2 n t c st) [(n, c)]);
          rewrite ?Hsummary;
          cbn [ran_state st_tasks st_context st_shared st_calls]; try done.
        -- intros ??. by rewrite dict_get_set_ne.
        -- intros ??. by apply elem_shared_after_ne.
        -- intros ??. by rewrite dict_get_set_ne.
        -- by intros ? ->%list_elem_of_singleton.
      * subst m. assert (tm = t) as -> by congruence. right. exists c.
        split_and!; rewrite ?Hsummary;
          cbn [ran_state st_tasks st_context st_shared st_calls].
        -- rewrite elem_of_app, list_elem_of_singleton. by right.
        -- done.
        -- by rewrite dict_get_set_eq.
        -- by apply elem_shared_after_eq.
        -- by rewrite dict_get_set_eq.
        -- intros d td Hd.
           rewrite dict_get_set_ne by (by apply not_eq_sym, Hne).
           by eapply upstream_failed_false.
Qed.

(** The loop on the rest of the order: it runs to the end and the
    invariant holds of the whole order, or it stops at the first node
    whose logic raises an exception that is not caught. *)
Lemma run_loop_inv g initial order rest :
  dag_wf g → resolves g → NoDup order → dependencies_first g order →
  (∀ n, n ∈ order → n ∈ keys (tasks g)) →
  ∀ prefix st, order = prefix ++ rest →
    run_inv elapsed_ms round2 g initial prefix st →
    (∃ st', run_loop elapsed_ms round2 rest st = (st', Return ())
       ∧ run_inv elapsed_ms round2 g initial order st')
    ∨ (∃ pre n post st1 t context' exc,
         rest = pre ++ n :: post
         ∧ run_inv elapsed_ms round2 g initial (prefix ++ pre) st1
         ∧ dict_get n (tasks g) = Some t
         ∧ let c := merged g (st_calls st1) (depends_on t) (st_context st1) in
           execute_fn t c = Escapes context' exc
           ∧ run_loop elapsed_ms round2 rest st
             = (ran_state elapsed_ms round2 n t c st1,
                Raise (SystemExiting exc))).
Proof.
  intros Hwf Hres Hnd Hfirst Hknown.
  induction rest as [|n rest IH]; intros prefix st Horder Hinv.
  { left. exists st. rewrite app_nil_r in Horder. by subst. }
  assert (is_Some (dict_get n (tasks g))) as [t Ht].
  { apply dict_get_is_Some, Hknown. subst. set_solver. }
  assert (NoDup prefix ∧ n ∉ prefix) as [Hndp Hn].
  { subst. apply NoDup_app in Hnd as (? & Hdisj & _). split; [done|].
    intros Hin. apply (Hdisj _ Hin). left. }
  destruct (run_inv_visit g initial prefix st n t Hwf Hres Hndp Hn)
    as [(st1 & Hv & Hinv1)|(c' & exc & Hend & Hv)]; [| |done..| |].
  - intros m d Hm Hdep.
    apply list_elem_of_split in Hm as (p1 & p2 & ->).
    rewrite <- app_assoc in Horder. cbn [app] in Horder.
    apply elem_of_app. left. by eapply deps_in_prefix.
  - intros d Hdep. by eapply deps_in_prefix.
  - destruct (IH (prefix ++ [n]) st1) as
      [(st' & Hloop & Hinv')
      |(pre & n' & post & st2 & t' & c' & exc & -> & Hinv2 & Ht' & Hrest)];
      [by rewrite <- app_assoc|done|..].
    + left. exists st'. split; [|done]. cbn [run_loop]. by rewrite Hv.
    + right. exists (n :: pre), n', post, st2, t', c', exc.
      split_and!; [done| |done|].
      * by rewrite <- app_assoc in Hinv2.
      * cbn zeta in *. destruct Hrest as [Hend Hloop]. split; [done|].
        cbn [app run_loop]. by rewrite Hv.
  - right. exists [], n, rest, st, t, c', exc.
    rewrite app_nil_r. split_and!; [done..|].
    cbn zeta in *. split; [done|]. cbn [run_loop]. by rewrite Hv.
Qed.

(** [run] on a graph that schedules: it returns a summary, built from the
    state in which the loop ends, or the logic of a node raises an
    exception that is not caught, which ends [run]. *)
Lemma run_cases g ctx order :
  dag_wf g → _topological_sort g = Return order →
  (∃ st',
     run_loop elapsed_ms round2 order (initial_state g ctx)
     = (st', Return ())
     ∧ run_inv elapsed_ms round2 g (default ∅ ctx) order st'
     ∧ run elapsed_ms round2 g ctx
       = ({| dag_name := dag_name g; tasks := published st' |}, st_calls st',
          Return {| summary_pipeline := dag_name g;
                    summary_tasks := st_summary st';
                    summary_status :=
                      if forallb (λ t, bool_decide (status t = SUCCESS))
                           (values (published st'))
                      then "completed" else "failed" |}))
  ∨ (∃ pre n post st1 t context' exc,
       order = pre ++ n :: post
       ∧ run_inv elapsed_ms round2 g (default ∅ ctx) pre st1
       ∧ dict_get n (tasks g) = Some t
       ∧ let c := merged g (st_calls st1) (depends_on t) (st_context st1) in
         execute_fn t c = Escapes context' exc
         ∧ run elapsed_ms round2 g ctx
           = ({| dag_name := dag_name g;
                 tasks := published (ran_state elapsed_ms round2 n t c st1) |},
              st_calls st1 ++ [(n, c)], Raise (SystemExiting exc))).
Proof.
  intros Hwf Hsort.
  destruct (topological_sort_Return g order Hwf Hsort)
    as (Hres & Hnd & Hperm & Hfirst).
  destruct (run_loop_inv g (default ∅ ctx) order order Hwf Hres Hnd Hfirst)
    with (prefix := @nil string) (st := initial_state g ctx)
    as [(st' & Hloop & Hinv)
       |(pre & n & post & st1 & t & c' & exc & -> & Hinv & Ht & Hrest)].
  - intros n Hn. by rewrite <- Hperm.
  - done.
  - apply run_inv_initial.
  - left. exists st'. split; [done|]. split; [done|].
    unfold run. by rewrite Hsort, Hloop.
  - right. exists pre, n, post, st1, t, c', exc. split_and!; [done..|].
    cbn zeta in *. destruct Hrest as [Hend Hloop]. split; [done|].
    unfold run. by rewrite Hsort, Hloop.
Qed.

(** The nodes that a run leaves, when the loop has ended in a state of
    the invariant. *)
Lemma published_skipped g initial prefix st n t :
  run_inv elapsed_ms round2 g initial prefix st → visited_skipped st n t →
  visit_skipped (published st) (st_calls st) (st_summary st) n t.
Proof.
  intros Hinv (Hget & Hsh & Hsum & Hno & d & td & Hd & Hgetd & Hst).
  split_and!; [|done..|].
  - rewrite dict_get_published, Hget. cbn [fmap option_fmap option_map].
    unfold held. by rewrite decide_False.
  - eexists d, _. split; [done|]. rewrite dict_get_published, Hgetd.
    split; [done|]. done.
Qed.

Lemma published_called g initial prefix st n t c :
  NoDup prefix → run_inv elapsed_ms round2 g initial prefix st →
  dict_get n (tasks g) = Some t →
  visited_called elapsed_ms round2 st n t c →
  visit_called elapsed_ms round2 (published st) (st_calls st) (st_summary st)
    (context_left g initial (st_calls st)) n t c.
Proof.
  intros Hnd Hinv Ht (Hcall & Hleaves & Hget & Hsh & Hsum & Hdeps).
  split_and!; [done..| |done|].
  - rewrite dict_get_published, Hget. cbn [fmap option_fmap option_map].
    destruct (run_inv_holds g initial prefix st n t Hnd Hinv Ht)
      as (t' & Hget' & Hheld).
    rewrite Hget in Hget'. injection Hget' as <-. rewrite Hheld.
    unfold holds, finished.
    rewrite (dict_get_elem _ _ _ (run_inv_calls_wf _ _ _ _ Hnd Hinv) Hcall).
    by rewrite (ri_context _ _ _ _ _ _ Hinv).
  - intros d td Hd. rewrite dict_get_published.
    destruct (dict_get d (st_tasks st)) as [td0|] eqn:Hgetd; [|done].
    intros [= <-]. simpl. by eapply Hdeps.
Qed.

(** A run that returns, visit by visit. *)
Lemma run_returns g ctx order g' calls summary :
  dag_wf g → _topological_sort g = Return order →
  run elapsed_ms round2 g ctx = (g', calls, Return summary) →
  run_facts elapsed_ms round2 g (default ∅ ctx) order g' calls summary.
Proof.
  intros Hwf Hsort Hrun.
  destruct (topological_sort_Return g order Hwf Hsort)
    as (Hres & Hnd & Hperm & Hfirst).
  destruct (run_cases g ctx order Hwf Hsort)
    as [(st' & _ & Hinv & Heq)|(? & ? & ? & ? & ? & ? & ? & _ & _ & _ & Hrest)];
    cycle 1.
  { cbn zeta in Hrest. destruct Hrest as [_ Heq]. congruence. }
  rewrite Hrun in Heq. injection Heq as -> -> ->.
  split; cbn [dag_name tasks summary_pipeline summary_tasks summary_status];
    try done.
  - apply (dag_wf_definitions g); [|done]. cbn [tasks].
    rewrite definitions_published. apply Hinv.
  - rewrite definitions_published. apply Hinv.
  - apply Hinv.
  - apply Hinv.
  - apply Hinv.
  - intros n t Ht.
    assert (n ∈ order) as Hn.
    { rewrite Hperm. apply dict_get_is_Some. by rewrite Ht. }
    destruct (ri_visited _ _ _ _ _ _ Hinv n t Hn Ht) as [Hs|[c Hc]].
    + left. by eapply published_skipped.
    + right. exists c. by eapply published_called.
Qed.

(** When no logic raises an exception that is not caught, [run] on a graph
    that schedules returns. *)
Lemma run_total g ctx order :
  dag_wf g → _topological_sort g = Return order → catches g →
  ∃ g' calls summary,
    run elapsed_ms round2 g ctx = (g', calls, Return summary).
Proof.
  intros Hwf Hsort Hcatches.
  destruct (run_cases g ctx order Hwf Hsort)
    as [(st' & _ & Hinv & Heq)|(? & n & ? & ? & t & ? & ? & _ & _ & Ht & Hrest)].
  - by eexists _, _, _.
  - cbn zeta in Hrest. destruct Hrest as [Hend _].
    exfalso. eapply Hcatches; [by apply dict_get_Some_elem, Ht | exact Hend].
Qed.
End loop_lemmas.

(** ** The scheduler reads only the structure of the graph *)

Lemma for_each_ext {A S} (body body' : S → A → outcome S) l s :
  (∀ s x, x ∈ l → body s x = body' s x) →
  for_each body l s = for_each body' l s.
Proof.
  revert s. induction l as [|x l IH]; intros s Hext; [done|].
  cbn [for_each]. rewrite Hext by left. destruct (body' s x); [|done..].
  rewrite !bind_Return. apply IH. intros ???. apply Hext. by right.
Qed.

Lemma for_each_Forall2 {A B S} (R : A → B → Prop)
    (body : S → A → outcome S) (body' : S → B → outcome S) l l' s :
  Forall2 R l l' → (∀ s a b, R a b → body s a = body' s b) →
  for_each body l s = for_each body' l' s.
Proof.
  intros Hrel Hext. revert s.
  induction Hrel as [|a b l l' Hab _ IH]; intros s; [done|].
  cbn [for_each]. rewrite (Hext s a b Hab). destruct (body' s b); [|done..].
  rewrite !bind_Return. apply IH.
Qed.

Lemma structure_Forall2 g g' :
  structure g = structure g' →
  Forall2 (λ a b : string * TaskNode,
             a.1 = b.1 ∧ name a.2 = name b.2 ∧ depends_on a.2 = depends_on b.2)
    (tasks g) (tasks g').
Proof.
  unfold structure. generalize (tasks g) (tasks g'). clear g g'.
  induction l as [|a l IH]; intros [|b l'] Heq; simplify_eq/=; constructor.
  - done.
  - by apply IH.
Qed.

Lemma structure_keys g g' :
  structure g = structure g' → keys (tasks g) = keys (tasks g').
Proof.
  intros H%structure_Forall2. unfold keys.
  induction H as [|a b l l' (H1 & _) _ IH]; [done|]. simpl. by f_equal.
Qed.

Lemma initial_in_degree_structure g g' :
  structure g = structure g' → initial_in_degree g = initial_in_degree g'.
Proof.
  intros Hs. unfold initial_in_degree. rewrite (structure_keys _ _ Hs).
  apply (for_each_Forall2
           (λ a b, name a = name b ∧ depends_on a = depends_on b)).
  - apply structure_Forall2 in Hs. unfold values.
    apply Forall2_fmap. eapply Forall2_impl; [exact Hs|].
    by intros ?? (_ & ? & ?).
  - intros s a b [Hn Hd]. rewrite Hd. apply for_each_ext. intros in_degree d _.
    unfold count_dependency, dict_in. by rewrite Hn, (structure_keys _ _ Hs).
Qed.

Lemma while_queue_structure g g' fuel in_degree queue order :
  structure g = structure g' →
  while_queue fuel g in_degree queue order
  = while_queue fuel g' in_degree queue order.
Proof.
  intros Hs. revert in_degree queue order.
  induction fuel as [|fuel IH]; intros in_degree [|c queue] order; try done.
  cbn [while_queue].
  rewrite (for_each_Forall2 _ (release c) (release c) _ _ _
             (structure_Forall2 _ _ Hs)).
  - destruct (for_each _ _ _); [|done..]. rewrite !bind_Return. apply IH.
  - intros [in' q] [k t] [k' t'] (Hk & _ & Hd). simpl in *. subst.
    unfold release. by rewrite Hd.
Qed.

Lemma topological_sort_structure g g' :
  structure g = structure g' → _topological_sort g = _topological_sort g'.
Proof.
  intros Hs. unfold _topological_sort.
  rewrite (initial_in_degree_structure _ _ Hs).
  assert (length (tasks g) = length (tasks g')) as ->.
  { eapply Forall2_length, structure_Forall2, Hs. }
  destruct (initial_in_degree g'); [|done..]. rewrite !bind_Return.
  by rewrite (while_queue_structure _ _ _ _ _ _ Hs).
Qed.

Lemma definitions_structure g g' :
  definitions (tasks g) = definitions (tasks g') → structure g = structure g'.
Proof.
  unfold definitions, structure. generalize (tasks g) (tasks g'). clear g g'.
  induction l as [|[k t] l IH]; intros [|[k' t'] l'] Heq; simplify_eq/=;
    [done|].
  rewrite (IH l') by done. congruence.
Qed.

(** ** The queue is first in, first out *)

Lemma release_queue_grows c items in_degree queue in_degree' queue' :
  for_each (release c) items (in_degree, queue) = Return (in_degree', queue') →
  ∃ new, queue' = queue ++ new.
Proof.
  revert in_degree queue.
  induction items as [|[k t] items IH]; intros in_degree queue Hrun.
  - simplify_eq/=. exists []. by rewrite app_nil_r.
  - cbn [for_each] in Hrun.
    destruct (release c (in_degree, queue) (k, t)) as [[in1 q1]| |] eqn:Hrel;
      [|done..].
    rewrite bind_Return in Hrun. destruct (IH _ _ Hrun) as [new ->].
    unfold release in Hrel. case_bool_decide; [|by simplify_eq; exists new].
    destruct (dict_item k in_degree); [|done..]. rewrite bind_Return in Hrel.
    case_decide; simplify_eq.
    + exists ([k] ++ new). by rewrite <- app_assoc.
    + by exists new.
Qed.

(** Whatever the state of the loop, the nodes in the queue are emitted
    next, in the order of the queue, before any node queued later. *)
Lemma while_queue_fifo g fuel in_degree queue order result :
  while_queue fuel g in_degree queue order = Return result →
  ∃ rest, result = order ++ queue ++ rest.
Proof.
  revert in_degree queue order.
  induction fuel as [|fuel IH]; intros in_degree [|c queue] order Hrun;
    try (simplify_eq/=; exists []; by rewrite !app_nil_r).
  cbn [while_queue] in Hrun.
  destruct (for_each _ _ _) as [[in' q']| |] eqn:Hrel; [|done..].
  rewrite bind_Return in Hrun. cbn [fst snd] in Hrun.
  destruct (release_queue_grows _ _ _ _ _ _ Hrel) as [new ->].
  destruct (IH _ _ _ Hrun) as [rest ->]. exists (new ++ rest).
  by rewrite <- !app_assoc.
Qed.

(** ** The context along the calls *)

(** What a node holds depends on the context only when it holds the
    context. *)
Lemma holds_cases pre d t :
  (∀ c c', holds pre c d t = holds pre c' d t) ∨ (∀ c, holds pre c d t = c).
Proof.
  unfold holds. destruct (dict_get d pre) as [c0|]; [|by left].
  destruct (execute_fn t c0) as [c' []| |]; try by left.
  cbn [holds_after]. destruct (returns_context _); [by right | by left].
Qed.

(** Merging only adds keys, and the merged context has the keys of what
    each dependency holds. *)
Lemma merged_dom g pre deps context :
  dom context ⊆ dom (merged g pre deps context)
  ∧ ∀ d t, d ∈ deps → dict_get d (tasks g) = Some t →
      dom (holds pre (merged g pre deps context) d t)
      ⊆ dom (merged g pre deps context).
Proof.
  unfold merged. revert context.
  induction deps as [|d deps IH]; intros context.
  { split; [done|]. intros ?? H. by apply elem_of_nil in H. }
  cbn [foldl]. destruct (dict_get d (tasks g)) as [t|] eqn:Hd.
  - destruct (IH (holds pre context d t ∪ context)) as [Hsub Hdeps].
    rewrite dom_union_L in Hsub. split; [set_solver|].
    intros d' t' [->|Hin]%elem_of_cons Hd'; [|by apply Hdeps].
    assert (t' = t) as -> by congruence.
    destruct (holds_cases pre d t) as [Hc|Hc].
    + rewrite (Hc _ context). set_solver.
    + by rewrite Hc.
  - destruct (IH context) as [Hsub Hdeps]. split; [done|].
    intros d' t' [->|Hin]%elem_of_cons Hd'; [congruence | by apply Hdeps].
Qed.

(** When no logic removes keys, the context only gains keys along the
    calls of a run. *)
Lemma context_chain_grows g initial calls :
  context_chain g initial calls → keeps_keys g →
  ∀ pre n c post, calls = pre ++ (n, c) :: post →
    dom initial ⊆ dom c ∧ ∀ m cm, (m, cm) ∈ pre → dom cm ⊆ dom c.
Proof.
  intros Hchain Hkeeps pre. induction pre as [|[m cm] pre IH] using rev_ind;
    intros n c post Heq.
  - destruct (Hchain [] n c post Heq) as (t & _ & ->).
    split; [apply merged_dom|]. intros ?? H. by apply elem_of_nil in H.
  - destruct (Hchain _ n c post Heq) as (t & _ & Hc).
    rewrite <- app_assoc in Heq. cbn [app] in Heq.
    destruct (Hchain pre m cm _ Heq) as (tm & Htm & _).
    destruct (IH m cm _ Heq) as [Hinit Hpre].
    unfold context_left in Hc. rewrite last_snoc, Htm in Hc.
    assert (dom cm ⊆ dom c) as Hsub.
    { rewrite Hc.
      etrans; [|apply (proj1 (merged_dom g (pre ++ [(m, cm)]) (depends_on t)
                                (context_after (execute_fn tm cm))))].
      apply (Hkeeps m). by apply dict_get_Some_elem. }
    split; [set_solver|].
    intros m' cm' [Hin|[= -> ->]%list_elem_of_singleton]%elem_of_app;
      [|done].
    etrans; [by eapply Hpre | done].
Qed.
(** ** First ready, first out *)

Lemma index_of_app_l k (l l' : list string) :
  k ∈ l → index_of k (l ++ l') = index_of k l.
Proof.
  induction l as [|x l IH]; intros Hk; [by apply elem_of_nil in Hk|].
  cbn [app index_of]. case_decide; [done|].
  apply elem_of_cons in Hk as [->|Hk]; [done|]. by rewrite IH.
Qed.

Lemma index_of_app_r k (l l' : list string) :
  k ∉ l → index_of k (l ++ l') = (length l + index_of k l')%nat.
Proof.
  induction l as [|x l IH]; intros Hk; [done|].
  apply not_elem_of_cons in Hk as [Hne Hk].
  cbn [app index_of length]. rewrite decide_False by done.
  by rewrite IH.
Qed.

Lemma index_of_lt k (l : list string) :
  k ∈ l → (index_of k l < length l)%nat.
Proof.
  induction l as [|x l IH]; intros Hk; [by apply elem_of_nil in Hk|].
  cbn [index_of length]. case_decide; [lia|].
  apply elem_of_cons in Hk as [->|Hk]; [done|]. apply IH in Hk. lia.
Qed.

Lemma index_of_lookup (l : list string) i k :
  NoDup l → l !! i = Some k → index_of k l = i.
Proof.
  revert i. induction l as [|x l IH]; intros i Hnd Hi; [done|].
  apply NoDup_cons in Hnd as [Hx Hnd]. cbn [index_of].
  destruct i as [|i]; simplify_eq/=.
  - by rewrite decide_True.
  - rewrite decide_False.
    + f_equal. by apply IH.
    + intros ->. apply Hx. by eapply list_elem_of_lookup_2.
Qed.

(** In a list taken from [ks] in the order of [ks], positions in [ks]
    increase. *)
Lemma sublist_index_of (l ks : list string) i j x y :
  l `sublist_of` ks → NoDup ks →
  l !! i = Some x → l !! j = Some y → (i < j)%nat →
  (index_of x ks < index_of y ks)%nat.
Proof.
  intros Hsub. revert i j.
  induction Hsub as [|k l ks Hsub IH|k l ks Hsub IH];
    intros i j Hnd Hi Hj Hij; [done|..];
    apply NoDup_cons in Hnd as [Hk Hnd].
  - destruct j as [|j]; [lia|]. cbn [lookup list_lookup] in Hj.
    assert (y ∈ ks) as Hy.
    { eapply elem_of_sublist; [|done]. by eapply list_elem_of_lookup_2. }
    cbn [index_of]. rewrite (decide_False (P := k = y)) by (by intros ->).
    destruct i as [|i]; simplify_eq/=.
    + rewrite decide_True by done. lia.
    + assert (x ∈ ks) as Hx.
      { eapply elem_of_sublist; [|done]. by eapply list_elem_of_lookup_2. }
      rewrite decide_False by (by intros ->).
      apply Nat.succ_lt_mono in Hij. specialize (IH i j Hnd Hi Hj Hij). lia.
  - assert (x ∈ ks ∧ y ∈ ks) as [Hx Hy].
    { split; (eapply elem_of_sublist; [|done]);
        by eapply list_elem_of_lookup_2. }
    cbn [index_of]. rewrite !decide_False by (by intros ->).
    specialize (IH i j Hnd Hi Hj Hij). lia.
Qed.

Lemma max_list_le (l : list nat) (b : nat) :
  (∀ n, n ∈ l → (n ≤ b)%nat) → (max_list l ≤ b)%nat.
Proof.
  induction l as [|n l IH]; intros Hl; cbn [max_list]; [lia|].
  apply Nat.max_lub; [apply Hl; left|].
  apply IH. intros ??. apply Hl. by right.
Qed.

Lemma max_list_ge (l : list nat) (n : nat) :
  n ∈ l → (n ≤ max_list l)%nat.
Proof.
  induction l as [|m l IH]; intros Hn; [by apply elem_of_nil in Hn|].
  cbn [max_list]. apply elem_of_cons in Hn as [->|Hn].
  - apply Nat.le_max_l.
  - etrans; [by apply IH | apply Nat.le_max_r].
Qed.

(** When a node is ready does not change when nodes are emitted after its
    dependencies. *)
Lemma ready_after_app g (l l' : list string) n :
  (∀ t d, dict_get n (tasks g) = Some t → d ∈ depends_on t → d ∈ l) →
  ready_after g (l ++ l') n = ready_after g l n.
Proof.
  intros Hdeps. unfold ready_after.
  destruct (dict_get n (tasks g)) as [t|] eqn:Ht; [|done]. f_equal.
  apply list_fmap_ext. intros i d Hd. f_equal.
  apply index_of_app_l, (Hdeps t); [done|]. by eapply list_elem_of_lookup_2.
Qed.

Lemma ready_after_le g (l : list string) n :
  (∀ t d, dict_get n (tasks g) = Some t → d ∈ depends_on t → d ∈ l) →
  (ready_after g l n ≤ length l)%nat.
Proof.
  intros Hdeps. unfold ready_after.
  destruct (dict_get n (tasks g)) as [t|] eqn:Ht; [|lia].
  apply max_list_le. intros k (d & -> & Hd)%list_elem_of_fmap.
  by apply index_of_lt, (Hdeps t).
Qed.

(** A node whose last dependency is [c] is ready once [c] is emitted. *)
Lemma ready_after_last g (l l' : list string) c n t :
  dict_get n (tasks g) = Some t → c ∉ l → c ∈ depends_on t →
  (∀ d, d ∈ depends_on t → d ∈ l ++ [c]) →
  ready_after g (l ++ c :: l') n = S (length l).
Proof.
  intros Ht Hc Hcd Hdeps. unfold ready_after. rewrite Ht.
  assert (Hidx : index_of c (l ++ c :: l') = length l).
  { rewrite index_of_app_r by done. cbn [index_of].
    rewrite decide_True by done. lia. }
  apply Nat.le_antisymm.
  - apply max_list_le. intros k (d & -> & Hd)%list_elem_of_fmap.
    pose proof (Hdeps d Hd) as Hin. apply elem_of_app in Hin as [Hl|Hin].
    + rewrite index_of_app_l by done. apply index_of_lt in Hl. lia.
    + apply list_elem_of_singleton in Hin as ->. rewrite Hidx. lia.
  - rewrite <- Hidx. apply max_list_ge, list_elem_of_fmap. by exists c.
Qed.

Lemma newly_ready_sublist c in_degree (items : dict TaskNode) :
  newly_ready c in_degree items `sublist_of` keys items.
Proof.
  unfold newly_ready, keys, dependents. apply fmap_sublist.
  etrans; apply sublist_filter.
Qed.

(** One iteration of the [while] loop keeps the emitted and queued nodes
    in the order first ready, first out. *)
Lemma fifo_step g in_degree in_degree' c q order :
  dag_wf g → kahn_inv g in_degree (c :: q) order →
  kahn_inv g in_degree' (q ++ newly_ready c in_degree (tasks g))
    (order ++ [c]) →
  first_ready_first_out g (order ++ c :: q) →
  first_ready_first_out g
    ((order ++ [c]) ++ q ++ newly_ready c in_degree (tasks g)).
Proof.
  intros Hwf Hinv Hinv' Hfifo.
  set (new := newly_ready c in_degree (tasks g)) in *.
  set (L := order ++ c :: q) in *.
  assert (Hlist : (order ++ [c]) ++ q ++ new = L ++ new).
  { unfold L. by rewrite <- !app_assoc. }
  pose proof (inv_nodup _ _ _ _ Hinv') as Hnd. rewrite Hlist in Hnd |- *.
  assert (Hc : c ∉ order).
  { pose proof (inv_nodup _ _ _ _ Hinv) as H.
    apply NoDup_app in H as (_ & Hdisj & _). intros Hin.
    apply (Hdisj _ Hin). left. }
  (* the dependencies of the nodes emitted or queued are emitted *)
  assert (HL : ∀ x t d, x ∈ L → dict_get x (tasks g) = Some t →
            d ∈ depends_on t → d ∈ order).
  { intros x t d Hx Ht Hd. eapply (kahn_inv_zero g in_degree); [done| | |done].
    - by apply dict_get_Some_elem.
    - by apply (inv_ready _ _ _ _ Hinv). }
  assert (HL' : ∀ x t d, x ∈ L → dict_get x (tasks g) = Some t →
            d ∈ depends_on t → d ∈ L).
  { intros x t d Hx Ht Hd. apply elem_of_app. left. by eapply HL. }
  (* those of the nodes queued now are emitted, [c] last *)
  assert (Hnew : ∀ y, y ∈ new →
            ready_after g (L ++ new) y = S (length order)).
  { intros y Hy. pose proof Hy as (_ & t & Hin & Hcd)%elem_newly_ready.
    unfold L. rewrite <- app_assoc. cbn [app].
    apply (ready_after_last g order _ c y t); [by apply dag_wf_get|done..|].
    intros d Hd. eapply (kahn_inv_zero g in_degree'); [done|done| |done].
    apply (inv_ready _ _ _ _ Hinv'). rewrite Hlist.
    apply elem_of_app. by right. }
  assert (Hold : ∀ x, x ∈ L →
            ready_after g (L ++ new) x = ready_after g L x
            ∧ (ready_after g (L ++ new) x ≤ length order)%nat).
  { intros x Hx. split; [apply ready_after_app; intros; by eapply HL'|].
    unfold L. rewrite <- app_assoc. rewrite ready_after_app.
    - apply ready_after_le. intros. by eapply HL.
    - intros. by eapply HL. }
  intros i j x y Hi Hj Hij.
  destruct (decide (j < length L)%nat) as [Hj_old|Hj_new].
  - rewrite lookup_app_l in Hi by lia. rewrite lookup_app_l in Hj by lia.
    pose proof (Hfifo i j x y Hi Hj Hij) as Hserved.
    apply list_elem_of_lookup_2 in Hi, Hj.
    unfold served_before in *.
    destruct (Hold x Hi) as [-> _]. by destruct (Hold y Hj) as [-> _].
  - rewrite lookup_app_r in Hj by lia.
    pose proof (list_elem_of_lookup_2 _ _ _ Hj) as Hy.
    unfold served_before. rewrite (Hnew y Hy).
    destruct (decide (i < length L)%nat) as [Hi_old|Hi_new].
    + rewrite lookup_app_l in Hi by lia. apply list_elem_of_lookup_2 in Hi.
      left. destruct (Hold x Hi) as [_ Hle]. lia.
    + rewrite lookup_app_r in Hi by lia.
      pose proof (list_elem_of_lookup_2 _ _ _ Hi) as Hx.
      right. rewrite (Hnew x Hx). split; [done|].
      eapply (sublist_index_of new); [apply newly_ready_sublist|apply Hwf|
                                      exact Hi|exact Hj|lia].
Qed.

(** The [while] loop emits the nodes first ready, first out. *)
Lemma while_queue_sorted g fuel in_degree queue order result :
  dag_wf g → kahn_inv g in_degree queue order →
  first_ready_first_out g (order ++ queue) →
  while_queue fuel g in_degree queue order = Return result →
  first_ready_first_out g result.
Proof.
  intros Hwf. revert in_degree queue order.
  induction fuel as [|fuel IH]; intros in_degree [|c q] order Hinv Hfifo Hrun;
    try (simplify_eq/=; by rewrite app_nil_r in Hfifo).
  destruct (kahn_step g in_degree c q order Hwf Hinv) as (in' & Hrel & Hinv').
  cbn [while_queue] in Hrun. rewrite Hrel, bind_Return in Hrun.
  cbn [fst snd] in Hrun. eapply IH; [exact Hinv'| |exact Hrun].
  by eapply fifo_step.
Qed.

Lemma roots_sublist g : roots g `sublist_of` keys (tasks g).
Proof. unfold roots, keys. apply fmap_sublist, sublist_filter. Qed.

Lemma roots_fifo g : dag_wf g → first_ready_first_out g (roots g).
Proof.
  intros Hwf i j x y Hi Hj Hij. right.
  assert (Hroot : ∀ k n, roots g !! k = Some n → ready_after g (roots g) n = 0%nat).
  { intros k n Hk. apply list_elem_of_lookup_2 in Hk.
    unfold roots in Hk. apply list_elem_of_fmap in Hk as ([n' t] & -> & Hin).
    apply list_elem_of_filter in Hin as [Hdeps Hin]. cbn [fst snd] in *.
    unfold ready_after. rewrite (dag_wf_get g n' t Hwf Hin). by rewrite Hdeps. }
  rewrite (Hroot i x Hi), (Hroot j y Hj). split; [done|].
  eapply (sublist_index_of (roots g)); [apply roots_sublist|apply Hwf|done..].
Qed.

(** An order that [_topological_sort] returns emits the nodes first ready,
    first out. *)
Lemma topological_sort_fifo g order :
  dag_wf g → _topological_sort g = Return order →
  first_ready_first_out g order.
Proof.
  intros Hwf Hsort.
  destruct (topological_sort_Return g order Hwf Hsort) as (Hres & _).
  destruct (initial_in_degree_resolves g Hwf Hres) as (in0 & Hin0 & Hkeys & Hget).
  pose proof (kahn_inv_initial g in0 Hwf Hkeys Hget) as Hinv.
  unfold _topological_sort in Hsort. rewrite Hin0, bind_Return in Hsort.
  destruct (while_queue _ _ _ _ _) as [o| |] eqn:Hloop; [|done..].
  rewrite bind_Return in Hsort. case_decide; [done|]. simplify_eq.
  eapply while_queue_sorted; [done|exact Hinv| |exact Hloop].
  rewrite app_nil_l, (initial_queue_roots g in0 Hwf Hkeys Hget).
  by apply roots_fifo.
Qed.

(** Two nodes cannot each be served before the other. *)
Lemma served_before_asym g l1 l2 x y :
  ready_after g l1 x = ready_after g l2 x →
  ready_after g l1 y = ready_after g l2 y →
  served_before g l1 x y → served_before g l2 y x → False.
Proof. unfold served_before. intros -> ->. lia. Qed.

(** The rule first ready, first out leaves one schedule only. *)
Lemma fifo_schedule_unique g order order' :
  fifo_schedule g order → fifo_schedule g order' → order = order'.
Proof.
  intros (Hnd & Hperm & Hfirst & Hfifo) (Hnd' & Hperm' & Hfirst' & Hfifo').
  assert (Hgen : ∀ r r' p, order = p ++ r → order' = p ++ r' → r = r').
  { induction r as [|x r IH]; intros r' p Heq Heq'.
    - assert (length order = length order') as Hlen.
      { apply Permutation_length. by rewrite Hperm, Hperm'. }
      rewrite Heq, Heq', !length_app in Hlen. simpl in Hlen.
      destruct r'; [done|simpl in Hlen; lia].
    - destruct r' as [|y r'].
      { assert (length order = length order') as Hlen.
        { apply Permutation_length. by rewrite Hperm, Hperm'. }
        rewrite Heq, Heq', !length_app in Hlen. simpl in Hlen. lia. }
      assert (x = y) as <-; cycle 1.
      { f_equal. apply (IH r' (p ++ [x])); by rewrite <- app_assoc. }
      destruct (decide (x = y)) as [|Hne]; [done|]. exfalso.
      (* each of the two is emitted later in the other order *)
      assert (Hready : ∀ l n post, l = p ++ n :: post →
                dependencies_first g l → ∀ l' post', l' = p ++ post' →
                ready_after g l' n = ready_after g p n).
      { intros l n post -> Hdf l' post' ->. apply ready_after_app.
        intros t d Ht Hd. eapply (deps_in_prefix g); [exact Hdf|done|].
        by eapply depends_get. }
      assert (y ∈ r) as [i Hi]%list_elem_of_lookup_1.
      { assert (y ∈ order) as Hy.
        { rewrite Hperm, <- Hperm', Heq'. set_solver. }
        rewrite Heq in Hy. rewrite Heq' in Hnd'.
        apply NoDup_app in Hnd' as (_ & Hdisj & _). set_solver. }
      assert (x ∈ r') as [j Hj]%list_elem_of_lookup_1.
      { assert (x ∈ order') as Hx.
        { rewrite Hperm', <- Hperm, Heq. set_solver. }
        rewrite Heq' in Hx. rewrite Heq in Hnd.
        apply NoDup_app in Hnd as (_ & Hdisj & _). set_solver. }
      apply (served_before_asym g order order' x y).
      + rewrite (Hready order x r Heq Hfirst order (x :: r) Heq).
        by rewrite (Hready order x r Heq Hfirst order' (y :: r') Heq').
      + rewrite (Hready order' y r' Heq' Hfirst' order (x :: r) Heq).
        by rewrite (Hready order' y r' Heq' Hfirst' order' (y :: r') Heq').
      + apply (Hfifo (length p) (length p + S i)%nat).
        * rewrite Heq. by apply list_lookup_middle.
        * rewrite Heq, lookup_app_r by lia.
          by replace (length p + S i - length p)%nat with (S i) by lia.
        * lia.
      + apply (Hfifo' (length p) (length p + S j)%nat).
        * rewrite Heq'. by apply list_lookup_middle.
        * rewrite Heq', lookup_app_r by lia.
          by replace (length p + S j - length p)%nat with (S j) by lia.
        * lia. }
  by apply (Hgen order order' []).
Qed.

(** ** The tests of [tests/test_dag.py], replayed on the embedding *)

Example test_linear_dag_executes_in_order :
  let after := run no_time id linear None in
  summary_status <$> returned after.2 = Some "completed"
  ∧ after.1.2
    = [("a", ∅); ("b", {["from_a" := PyInt 1]});
       ("c", {["from_b" := PyInt 2]} ∪ {["from_a" := PyInt 1]})].
Proof. by vm_compute. Qed.

Example test_failed_task_skips_downstream :
  let after := run no_time id failure None in
  summary_status <$> returned after.2 = Some "failed"
  ∧ status <$> dict_get "fail" (tasks after.1.1) = Some FAILED
  ∧ status <$> dict_get "after" (tasks after.1.1) = Some SKIPPED
  ∧ after.1.2.*1 = ["fail"].
Proof. by vm_compute. Qed.

Example test_cycle_detection :
  (run no_time id two_cycle None).2
  = Raise (ValueError "Cycle detected in DAG").
Proof. by vm_compute. Qed.

Example test_diamond_dag :
  let after := run no_time id diamond None in
  summary_status <$> returned after.2 = Some "completed"
  ∧ (dict_get "d" (tasks after.1.1) ≫= λ t, result t !! "total")
    = Some (PyInt 32)
  ∧ after.1.2.*1 = ["a"; "b"; "c"; "d"].
Proof. by vm_compute. Qed.

Example test_to_dict_serialization :
  def_name (to_dict failure) = "test_failure"
  ∧ dict_get "after" (def_tasks (to_dict failure))
    = Some {| def_depends_on := ["fail"] |}.
Proof. by vm_compute. Qed.

(** ** The context object, handed to the logic as it is *)

(** A logic that returns the context it was handed: the node holds the
    context itself, which the merge for node q changes after the call. *)
Example returned_context_is_shared :
  let initial : gmap string Any := {["i" := PyInt 0]} in
  let after := run no_time id returns_its_argument (Some initial) in
  after.1.2
  = [("a", initial); ("m", initial); ("q", {["z" := PyInt 1]} ∪ initial)]
  ∧ result <$> dict_get "a" (tasks after.1.1)
    = Some ({["z" := PyInt 1]} ∪ initial)
  ∧ result <$> dict_get "m" (tasks after.1.1) = Some {["z" := PyInt 1]}.
Proof. by vm_compute. Qed.

(** A logic that writes to the context: the next node is called with what
    it wrote, without depending on it. *)
Example written_context_is_seen :
  (run no_time id writes None).1.2
  = [("w", ∅); ("r", {["seen" := PyBool true]})].
Proof. by vm_compute. Qed.

(** A logic that leaves with an exception that is not an [Exception]: the
    run ends there. *)
Example system_exit_ends_run :
  let after := run no_time id exits None in
  after.2 = Raise (SystemExiting "SystemExit")
  ∧ status <$> dict_get "stop" (tasks after.1.1) = Some RUNNING
  ∧ status <$> dict_get "next" (tasks after.1.1) = Some PENDING.
Proof. by vm_compute. Qed.
(** ** The graph that a run leaves *)

Lemma sublist_filter_eq {A} (P : A → Prop) `{!∀ x, Decision (P x)}
    (l1 l : list A) :
  l1 `sublist_of` l → NoDup l → (∀ x, x ∈ l → x ∈ l1 ↔ P x) →
  l1 = filter P l.
Proof.
  induction 1 as [|x l1 l Hsub IH|x l1 l Hsub IH]; intros Hnd Hiff; [done|..];
    apply NoDup_cons in Hnd as [Hx Hnd].
  - rewrite filter_cons_True by (apply Hiff; left). f_equal. apply IH; [done|].
    intros y Hy. rewrite <- Hiff by (by right). rewrite elem_of_cons.
    split; [by right|]. intros [->|?]; done.
  - rewrite filter_cons_False.
    + apply IH; [done|]. intros y Hy. apply Hiff. by right.
    + intros HP. apply Hx. eapply elem_of_sublist; [|done]. apply Hiff; [left|done].
Qed.

Lemma filter_all {A} (P : A → Prop) `{!∀ x, Decision (P x)} (l : list A) :
  Forall P l → filter P l = l.
Proof.
  induction 1 as [|x l HP _ IH]; [done|].
  by rewrite filter_cons_True, IH.
Qed.

Section finished_lemmas.
Variable elapsed_ms : string → Z.
Variable round2 : Z → Z.

Lemma finished_fields n t c context :
  name (finished elapsed_ms n t c context) = name t
  ∧ execute_fn (finished elapsed_ms n t c context) = execute_fn t
  ∧ depends_on (finished elapsed_ms n t c context) = depends_on t
  ∧ status (finished elapsed_ms n t c context)
    = status (invoke elapsed_ms n t c)
  ∧ error (finished elapsed_ms n t c context)
    = error (invoke elapsed_ms n t c)
  ∧ duration_ms (finished elapsed_ms n t c context) = elapsed_ms n
  ∧ result (finished elapsed_ms n t c context)
    = holds_after (execute_fn t c) (result t) context.
Proof.
  unfold finished. cbn [name execute_fn depends_on status error duration_ms
                         result set_result].
  destruct (invoke_definition elapsed_ms n t c) as (-> & -> & ->).
  by rewrite invoke_duration.
Qed.

(** A call that [run] survives ends in one of two ways. *)
Lemma finished_cases n t c context :
  leaves (execute_fn t c) = Return () →
  (∃ context' value,
     execute_fn t c = Returns context' value
     ∧ status (finished elapsed_ms n t c context) = SUCCESS
     ∧ error (finished elapsed_ms n t c context) = error t)
  ∨ (∃ context' str_exc,
       execute_fn t c = Raises context' str_exc
       ∧ status (finished elapsed_ms n t c context) = FAILED
       ∧ error (finished elapsed_ms n t c context) = Some str_exc
       ∧ result (finished elapsed_ms n t c context) = result t).
Proof.
  intros Hleaves.
  destruct (finished_fields n t c context)
    as (_ & _ & _ & -> & -> & _ & ->).
  destruct (execute_fn t c) as [c' v|c' msg|c' exc] eqn:Hend; [| |done].
  - left. exists c', v. split; [done|].
    by destruct (invoke_Returns elapsed_ms n t c c' v Hend) as (-> & -> & _).
  - right. exists c', msg. split; [done|].
    by destruct (invoke_Raises elapsed_ms n t c c' msg Hend) as (-> & -> & _).
Qed.

Lemma finished_not_skipped n t c context :
  status (finished elapsed_ms n t c context) ≠ SKIPPED.
Proof.
  destruct (finished_fields n t c context) as (_ & _ & _ & -> & _).
  apply invoke_not_skipped.
Qed.

(** The node that a run leaves under a key, seen from the node that was
    there before. *)
Lemma run_final_cases g initial order g' calls summary n t' :
  run_facts elapsed_ms round2 g initial order g' calls summary →
  dict_get n (tasks g') = Some t' →
  ∃ t, dict_get n (tasks g) = Some t
    ∧ depends_on t' = depends_on t
    ∧ ((t' = set_status SKIPPED t
        ∧ visit_skipped (tasks g') calls (summary_tasks summary) n t)
       ∨ ∃ c, t' = finished elapsed_ms n t c (context_left g initial calls)
              ∧ visit_called elapsed_ms round2 (tasks g') calls
                  (summary_tasks summary) (context_left g initial calls)
                  n t c).
Proof.
  intros F Hget.
  destruct (definitions_get _ _ _ _ (rf_definitions _ _ _ _ _ _ _ _ F) Hget)
    as (t & Ht & _ & _ & Hdeps).
  exists t. split; [done|]. split; [done|].
  destruct (rf_visits _ _ _ _ _ _ _ _ F n t Ht) as [Hs|[c Hc]].
  - left. split; [|done]. destruct Hs as (Hfin & _). congruence.
  - right. exists c. split; [|done]. destruct Hc as (_ & _ & Hfin & _).
    congruence.
Qed.

(** A node is called with one context only. *)
Lemma run_call_unique g initial order g' calls summary n c c' :
  run_facts elapsed_ms round2 g initial order g' calls summary →
  (n, c) ∈ calls → (n, c') ∈ calls → c = c'.
Proof.
  intros F H1 H2.
  assert (dict_wf calls) as Hwf.
  { eapply sublist_NoDup; [|exact (rf_calls _ _ _ _ _ _ _ _ F)].
    apply (rf_order _ _ _ _ _ _ _ _ F). }
  apply (dict_get_elem _ _ _ Hwf) in H1, H2. congruence.
Qed.

(** The node that a call has left. *)
Lemma run_called g initial order g' calls summary n t c :
  run_facts elapsed_ms round2 g initial order g' calls summary →
  dict_get n (tasks g) = Some t → (n, c) ∈ calls →
  visit_called elapsed_ms round2 (tasks g') calls (summary_tasks summary)
    (context_left g initial calls) n t c.
Proof.
  intros F Ht Hcall.
  destruct (rf_visits _ _ _ _ _ _ _ _ F n t Ht)
    as [(_ & _ & Hno & _)|(c' & Hc)].
  - exfalso. apply Hno, list_elem_of_fmap. by exists (n, c).
  - destruct Hc as (Hin & Hrest).
    by rewrite (run_call_unique _ _ _ _ _ _ _ _ _ F Hcall Hin).
Qed.

(** The calls of a run are the nodes of the order that do not end
    SKIPPED. *)
Lemma run_calls_filter g initial order g' calls summary :
  run_facts elapsed_ms round2 g initial order g' calls summary →
  calls.*1
  = filter (λ n, status <$> dict_get n (tasks g') ≠ Some SKIPPED) order.
Proof.
  intros F. destruct (rf_order _ _ _ _ _ _ _ _ F) as [Hnd Hperm].
  apply sublist_filter_eq; [apply F|done|]. intros n Hn.
  assert (is_Some (dict_get n (tasks g))) as [t Ht].
  { apply dict_get_is_Some. by rewrite <- Hperm. }
  destruct (rf_visits _ _ _ _ _ _ _ _ F n t Ht)
    as [(Hfin & _ & Hno & _)|(c & Hin & _ & Hfin & _)]; rewrite Hfin; simpl.
  - split; [done|]. by intros [].
  - split.
    + intros _ [=Hst]. by apply finished_not_skipped in Hst.
    + intros _. apply list_elem_of_fmap. by exists (n, c).
Qed.
End finished_lemmas.

(** ** The graph builder *)

Lemma DAG_init_wf name : dag_wf (DAG_init name).
Proof. split; [apply NoDup_nil_2 | constructor]. Qed.

Lemma add_task_wf g name execute_fn depends_on :
  dag_wf g → dag_wf (add_task g name execute_fn depends_on).1.
Proof.
  intros [Hnd Hname]. unfold add_task, dict_in. case_bool_decide as Hin; [done|].
  split; simpl.
  - by apply dict_wf_set.
  - rewrite dict_set_notin by done. apply Forall_app. split; [done|].
    by repeat constructor.
Qed.

(** * The properties of the specification *)

(** C1, at the input on which it fails: in [duplicate_entry] every
    dependency is known and there is no cycle, yet [_topological_sort]
    raises the exception of a cycle, because node b lists a twice: its
    counter starts at 2 and is decremented once. *)
Theorem C1_duplicate_entry_reported_as_cycle :
  dag_wf duplicate_entry ∧ resolves duplicate_entry ∧ acyclic duplicate_entry
  ∧ _topological_sort duplicate_entry
    = Raise (ValueError "Cycle detected in DAG").
Proof.
  split_and!.
  - by apply (bool_decide_unpack _).
  - by apply (bool_decide_unpack _).
  - assert (Hedge : ∀ n d, depends duplicate_entry n d → n = "b" ∧ d = "a").
    { intros n d (t & Hin & Hd).
      change (tasks duplicate_entry) with
        [("a", TaskNode_init "a" returns_none []);
         ("b", TaskNode_init "b" returns_none ["a"; "a"])] in Hin.
      apply elem_of_cons in Hin as [Hin|Hin]; simplify_eq.
      { by apply elem_of_nil in Hd. }
      apply elem_of_cons in Hin as [Hin|Hin]; simplify_eq.
      - split; [done|]. simpl in Hd. set_solver.
      - by apply elem_of_nil in Hin. }
    intros n Htc. inversion Htc as [? ? H1|? y ? H1 H2]; subst.
    + by apply Hedge in H1 as [-> ?].
    + apply Hedge in H1 as [-> ->].
      inversion H2 as [? ? H3|? ? ? H3 _]; subst; by apply Hedge in H3 as [? _].
  - reflexivity.
Qed.

(** C2, at the input on which it fails: in the chain a -> b -> c whose
    first node fails, b is skipped, but c, whose only dependency b is
    SKIPPED and not FAILED, is called and ends with status SUCCESS. *)
Theorem C2_skipped_dependency_does_not_skip (elapsed_ms : string → Z)
    (round2 : Z → Z) :
  let after := run elapsed_ms round2 failing_chain None in
  map (λ item, (item.1, status item.2)) (tasks after.1.1)
  = [("a", FAILED); ("b", SKIPPED); ("c", SUCCESS)]
  ∧ after.1.2.*1 = ["a"; "c"].
Proof. split; reflexivity. Qed.

(** C3: on a graph whose dependencies are all known and which has a cycle,
    the loops of [_topological_sort] end, the emitted order is shorter than
    the number of nodes, and both [_topological_sort] and [run] raise the
    exception of a cycle; [run] then calls no node and leaves the graph as
    it was. *)
Theorem C3_cycle_raises_cycle_error (g : DAG) (n : string) :
  dag_wf g → resolves g → tc (depends g) n n →
  (∃ in_degree order,
     initial_in_degree g = Return in_degree
     ∧ while_queue (length (tasks g)) g in_degree
         (filter (λ item, item.2 = 0) in_degree).*1 [] = Return order
     ∧ (length order < length (tasks g))%nat)
  ∧ _topological_sort g = Raise (ValueError "Cycle detected in DAG")
  ∧ ∀ elapsed_ms round2 initial_context,
      run elapsed_ms round2 g initial_context
      = (g, [], Raise (ValueError "Cycle detected in DAG")).
Proof.
  intros Hwf Hres Hcyc.
  pose proof (topological_sort_cycle g n Hwf Hres Hcyc) as Hsort.
  split_and!; [|done|].
  - destruct (topological_sort_loops g Hwf Hres)
      as (in0 & in' & order & Hin0 & Hloop & Hinv & _).
    exists in0, order. split_and!; [done..|]. by eapply cycle_order_short.
  - intros. unfold run. by rewrite Hsort.
Qed.

Lemma C3_witness :
  (∃ in_degree order,
     initial_in_degree two_cycle = Return in_degree
     ∧ while_queue (length (tasks two_cycle)) two_cycle in_degree
         (filter (λ item, item.2 = 0) in_degree).*1 [] = Return order
     ∧ (length order < length (tasks two_cycle))%nat)
  ∧ _topological_sort two_cycle = Raise (ValueError "Cycle detected in DAG")
  ∧ ∀ elapsed_ms round2 initial_context,
      run elapsed_ms round2 two_cycle initial_context
      = (two_cycle, [], Raise (ValueError "Cycle detected in DAG")).
Proof.
  apply (C3_cycle_raises_cycle_error two_cycle "a").
  - by apply (bool_decide_unpack _).
  - by apply (bool_decide_unpack _).
  - apply tc_l with "b"; [|apply tc_once];
      (eapply depends_get; [reflexivity | by apply (bool_decide_unpack _)]).
Defined.

(** C4: when some node lists a dependency that is not a node of the graph,
    [run] raises the exception that names such a node and the missing
    dependency, has called no node's logic, and leaves the graph, with the
    status, result, error and duration of every node, as it was. *)
Theorem C4_unknown_dependency_aborts_run (elapsed_ms : string → Z)
    (round2 : Z → Z) (g : DAG) (initial_context : option (gmap string Any))
    (n d : string) :
  dag_wf g → depends g n d → d ∉ keys (tasks g) →
  ∃ t dep, (name t, t) ∈ tasks g ∧ dep ∈ depends_on t
    ∧ (dep ∉ keys (tasks g))
    ∧ run elapsed_ms round2 g initial_context
      = (g, [],
         Raise (ValueError ("Task '" +:+ name t +:+
                            "' depends on unknown task '" +:+ dep +:+ "'"))).
Proof.
  intros Hwf Hdep Hd.
  destruct (topological_sort_unknown g Hwf) as (k & t & dep & Hin & ? & ? & Hsort).
  { intros Hres. by apply Hd, (Hres n). }
  exists t, dep. split; [by rewrite (dag_wf_name g k t Hwf Hin)|].
  do 2 (split; [done|]). unfold run. by rewrite Hsort.
Qed.

Lemma C4_witness :
  ∃ t dep, (name t, t) ∈ tasks dangling ∧ dep ∈ depends_on t
    ∧ (dep ∉ keys (tasks dangling))
    ∧ run no_time id dangling None
      = (dangling, [],
         Raise (ValueError ("Task '" +:+ name t +:+
                            "' depends on unknown task '" +:+ dep +:+ "'"))).
Proof.
  apply (C4_unknown_dependency_aborts_run no_time id dangling None "b" "missing").
  - by apply (bool_decide_unpack _).
  - eapply depends_get; [reflexivity | by apply (bool_decide_unpack _)].
  - by apply (bool_decide_unpack _).
Defined.



(** C6: on a graph that schedules, [run] returns a summary when no logic
    raises an exception that is not an [Exception], and the status of a
    summary that it returns is "completed" exactly when every node of the
    graph ends with status SUCCESS, and "failed" as soon as one node ends
    FAILED or SKIPPED. *)
Theorem C6_overall_status (elapsed_ms : string → Z) (round2 : Z → Z)
    (g : DAG) (initial_context : option (gmap string Any))
    (order : list string) :
  dag_wf g → _topological_sort g = Return order →
  (catches g →
   ∃ g' calls summary,
     run elapsed_ms round2 g initial_context = (g', calls, Return summary))
  ∧ ∀ g' calls summary,
      run elapsed_ms round2 g initial_context = (g', calls, Return summary) →
      (summary_status summary = "completed"
       ↔ ∀ k t, (k, t) ∈ tasks g' → status t = SUCCESS)
      ∧ ((∃ k t, (k, t) ∈ tasks g'
                 ∧ (status t = FAILED ∨ status t = SKIPPED))
         → summary_status summary = "failed").
Proof.
  intros Hwf Hsort. split; [by eapply run_total|].
  intros g' calls summary Hrun.
  pose proof (run_returns elapsed_ms round2 g initial_context order g' calls
                summary Hwf Hsort Hrun) as F.
  rewrite (rf_status _ _ _ _ _ _ _ _ F).
  destruct (forallb _ _) eqn:Hall.
  - assert (∀ k t, (k, t) ∈ tasks g' → status t = SUCCESS) as Hsuccess.
    { intros k t Hin. rewrite forallb_forall in Hall.
      specialize (Hall t). rewrite bool_decide_eq_true in Hall. apply Hall.
      apply list_elem_of_In. by eapply elem_values. }
    split; [done|]. intros (k & t & Hin & Hst). apply Hsuccess in Hin.
    rewrite Hin in Hst. by destruct Hst.
  - split; [|done]. split; [done|]. intros Hsuccess. exfalso.
    apply not_true_iff_false in Hall. apply Hall, forallb_forall.
    intros t Ht%list_elem_of_In. apply bool_decide_eq_true.
    apply list_elem_of_fmap in Ht as ([k t'] & -> & Hin). by eapply Hsuccess.
Qed.

Lemma C6_witness :
  (catches diamond →
   ∃ g' calls summary,
     run no_time id diamond None = (g', calls, Return summary))
  ∧ ∀ g' calls summary,
      run no_time id diamond None = (g', calls, Return summary) →
      (summary_status summary = "completed"
       ↔ ∀ k t, (k, t) ∈ tasks g' → status t = SUCCESS)
      ∧ ((∃ k t, (k, t) ∈ tasks g'
                 ∧ (status t = FAILED ∨ status t = SKIPPED))
         → summary_status summary = "failed").
Proof.
  apply (C6_overall_status no_time id diamond None ["a"; "b"; "c"; "d"]).
  - by apply (bool_decide_unpack _).
  - reflexivity.
Defined.

(** C7: on a graph whose dependencies are all known, without a cycle and
    without a repeated dependency, the scheduler returns an order; an
    order that it returns has every node once, after its dependencies, and
    emits the nodes first ready, first out: of two nodes, the one whose
    last dependency was emitted earlier comes first, and of two nodes made
    ready by the same node, or without dependencies, the one added to the
    graph first. There is one such order only, and the outcome of the
    scheduler is the same for every graph with the same keys, names and
    dependency lists: scheduling again the same graph, or the graph after
    a run, gives the same order. *)
Theorem C7_schedule_deterministic_fifo (g : DAG) :
  dag_wf g →
  (resolves g → acyclic g → deps_distinct g →
   ∃ order, _topological_sort g = Return order)
  ∧ (∀ order, _topological_sort g = Return order →
       fifo_schedule g order
       ∧ ∀ order', fifo_schedule g order' → order' = order)
  ∧ ∀ g', structure g' = structure g →
      _topological_sort g' = _topological_sort g.
Proof.
  intros Hwf. split_and!.
  - intros Hres Hacyc Hdist.
    destruct (topological_sort_sound g Hwf Hres Hdist Hacyc) as (order & ? & _).
    by exists order.
  - intros order Hsort.
    assert (fifo_schedule g order) as Hfifo.
    { destruct (topological_sort_Return g order Hwf Hsort) as (_ & ? & ? & ?).
      split_and!; [done..|]. by apply topological_sort_fifo. }
    split; [done|]. intros order' Hfifo'. by eapply fifo_schedule_unique.
  - intros g' Hs. by apply topological_sort_structure.
Qed.

(** [run] leaves the structure of the graph as it was. *)
Lemma run_structure elapsed_ms round2 g initial_context :
  structure (run elapsed_ms round2 g initial_context).1.1 = structure g.
Proof.
  apply definitions_structure.
  by destruct (run_definitions elapsed_ms round2 g initial_context).
Qed.

Lemma C7_witness :
  (resolves diamond → acyclic diamond → deps_distinct diamond →
   ∃ order, _topological_sort diamond = Return order)
  ∧ (∀ order, _topological_sort diamond = Return order →
       fifo_schedule diamond order
       ∧ ∀ order', fifo_schedule diamond order' → order' = order)
  ∧ ∀ g', structure g' = structure diamond →
      _topological_sort g' = _topological_sort diamond.
Proof.
  apply (C7_schedule_deterministic_fifo diamond).
  by apply (bool_decide_unpack _).
Defined.

(** C8: [to_dict] gives the name of the graph and, for each node, its
    dependency list; it gives the same before and after a run, whatever the
    outcome of the run, and the same for any two graphs with the same name,
    keys and dependency lists. *)
Theorem C8_to_dict_ignores_run_state (elapsed_ms : string → Z)
    (round2 : Z → Z) (g : DAG) (initial_context : option (gmap string Any)) :
  to_dict (run elapsed_ms round2 g initial_context).1.1 = to_dict g
  ∧ def_name (to_dict g) = dag_name g
  ∧ keys (def_tasks (to_dict g)) = keys (tasks g)
  ∧ (∀ k t, (k, t) ∈ tasks g →
       (k, {| def_depends_on := depends_on t |}) ∈ def_tasks (to_dict g))
  ∧ ∀ g', dag_name g' = dag_name g →
      map (λ item, (item.1, depends_on item.2)) (tasks g')
      = map (λ item, (item.1, depends_on item.2)) (tasks g) →
      to_dict g' = to_dict g.
Proof.
  assert (Hproj : ∀ g1 g2, dag_name g1 = dag_name g2 →
            map (λ item : string * TaskNode, (item.1, depends_on item.2)) (tasks g1)
            = map (λ item, (item.1, depends_on item.2)) (tasks g2) →
            to_dict g1 = to_dict g2).
  { intros g1 g2 Hname Hdeps. unfold to_dict. rewrite Hname. f_equal.
    revert Hdeps. generalize (tasks g1) (tasks g2).
    induction l as [|[k t] l IH]; intros [|[k' t'] l'] Heq; simplify_eq/=;
      [done|]. rewrite (IH l') by done. congruence. }
  split_and!.
  - destruct (run_definitions elapsed_ms round2 g initial_context) as [Hn Hd].
    apply Hproj; [done|]. apply (f_equal (map (λ x, (x.1, x.2.2)))) in Hd.
    unfold definitions in Hd. by rewrite !map_map in Hd.
  - done.
  - unfold to_dict, keys. simpl. by rewrite <- list_fmap_compose.
  - intros k t Hin. unfold to_dict. simpl.
    apply list_elem_of_fmap. by exists (k, t).
  - intros g'. apply Hproj.
Qed.

Lemma C8_witness :
  to_dict (run no_time id failing_chain None).1.1 = to_dict failing_chain
  ∧ def_name (to_dict failing_chain) = dag_name failing_chain
  ∧ keys (def_tasks (to_dict failing_chain)) = keys (tasks failing_chain)
  ∧ (∀ k t, (k, t) ∈ tasks failing_chain →
       (k, {| def_depends_on := depends_on t |})
       ∈ def_tasks (to_dict failing_chain))
  ∧ ∀ g', dag_name g' = dag_name failing_chain →
      map (λ item, (item.1, depends_on item.2)) (tasks g')
      = map (λ item, (item.1, depends_on item.2)) (tasks failing_chain) →
      to_dict g' = to_dict failing_chain.
Proof. apply (C8_to_dict_ignores_run_state no_time id failing_chain None). Defined.

(** C9: adding a node under a name that the graph already has raises the
    exception of a duplicate and leaves the graph as it was: no node is
    added and the node of that name keeps its logic and its dependencies. *)
Theorem C9_duplicate_name_rejected (g : DAG) (name : string)
    (execute_fn : gmap string Any → completion)
    (depends_on : option (list string)) :
  name ∈ keys (tasks g) →
  add_task g name execute_fn depends_on
  = (g, Raise (ValueError ("Duplicate task name: " +:+ name))).
Proof.
  intros Hin. unfold add_task, dict_in. by rewrite bool_decide_eq_true_2.
Qed.

Lemma C9_witness :
  add_task diamond "b" returns_none (Some ["d"])
  = (diamond, Raise (ValueError ("Duplicate task name: " +:+ "b"))).
Proof.
  apply (C9_duplicate_name_rejected diamond "b" returns_none (Some ["d"])).
  by apply (bool_decide_unpack _).
Defined.

(** C10, at the input on which it fails: in [forgets] the logic of node a
    empties the context it is handed. Node b, visited after it, is called
    with a context that has the key of the result of a but not the key
    "seed" of the initial context. *)
Lemma C10_context_can_lose_keys :
  let initial : gmap string Any := {["seed" := PyInt 0]} in
  (run no_time id forgets (Some initial)).1.2
  = [("a", initial); ("b", {["a_out" := PyInt 1]})]
  ∧ "seed" ∈ dom initial
  ∧ "seed" ∉ dom ({["a_out" := PyInt 1]} : gmap string Any).
Proof. split_and!; [by vm_compute|set_solver..]. Qed.

(** C10, amended: the nodes of the order that do not end SKIPPED are
    called, in that order, and the contexts of the calls form one chain:
    the context given to a node is the context as the call before it left
    it (the initial context for the first call) with the results of the
    node's dependencies merged in, so that it has the keys of what each of
    its dependencies holds. When no logic removes a key from the context,
    the context of a call has the keys of the initial context and of the
    context of every call before it, whether or not those keys come from
    the node's own dependencies. *)
Theorem C10_context_is_shared (elapsed_ms : string → Z) (round2 : Z → Z)
    (g : DAG) (initial_context : option (gmap string Any))
    (order : list string) :
  dag_wf g → _topological_sort g = Return order →
  (catches g →
   ∃ g' calls summary,
     run elapsed_ms round2 g initial_context = (g', calls, Return summary))
  ∧ ∀ g' calls summary,
      run elapsed_ms round2 g initial_context = (g', calls, Return summary) →
      calls.*1
      = filter (λ n, status <$> dict_get n (tasks g') ≠ Some SKIPPED) order
      ∧ context_chain g (default ∅ initial_context) calls
      ∧ ∀ pre n context post, calls = pre ++ (n, context) :: post →
          (∀ t d td, dict_get n (tasks g) = Some t → d ∈ depends_on t →
             dict_get d (tasks g) = Some td →
             dom (holds pre context d td) ⊆ dom context)
          ∧ (keeps_keys g →
             dom (default ∅ initial_context) ⊆ dom context
             ∧ ∀ m cm, (m, cm) ∈ pre → dom cm ⊆ dom context).
Proof.
  intros Hwf Hsort. split; [by eapply run_total|].
  intros g' calls summary Hrun.
  pose proof (run_returns elapsed_ms round2 g initial_context order g' calls
                summary Hwf Hsort Hrun) as F.
  split; [by eapply run_calls_filter|].
  pose proof (rf_chain _ _ _ _ _ _ _ _ F) as Hchain. split; [done|].
  intros pre n c post Heq. split.
  - intros t d td Ht Hd Htd.
    destruct (Hchain pre n c post Heq) as (t' & Ht' & ->).
    assert (t' = t) as -> by congruence. by apply merged_dom.
  - intros Hkeeps. by eapply context_chain_grows.
Qed.

(** In [two_branches], node b depends on a alone and yet is called with the
    key that x returned, merged when c was visited. *)
Lemma context_leaks_between_branches :
  (run no_time id two_branches None).1.2
  = [("x", ∅); ("a", ∅); ("c", {["x_out" := PyInt 7]});
     ("b", {["a_out" := PyInt 1]} ∪ {["x_out" := PyInt 7]})]
  ∧ ¬ depends two_branches "b" "x".
Proof.
  split; [by vm_compute|].
  intros (t & Hin & Hd).
  assert (dict_get "b" (tasks two_branches) = Some t) as Hget.
  { apply dict_get_elem; [|done]. by apply (bool_decide_unpack _). }
  vm_compute in Hget. simplify_eq. simpl in Hd. set_solver.
Qed.

Lemma C10_witness :
  (catches two_branches →
   ∃ g' calls summary,
     run no_time id two_branches None = (g', calls, Return summary))
  ∧ ∀ g' calls summary,
      run no_time id two_branches None = (g', calls, Return summary) →
      calls.*1
      = filter (λ n, status <$> dict_get n (tasks g') ≠ Some SKIPPED)
          ["x"; "a"; "c"; "b"]
      ∧ context_chain two_branches (default ∅ (@None (gmap string Any))) calls
      ∧ ∀ pre n context post, calls = pre ++ (n, context) :: post →
          (∀ t d td, dict_get n (tasks two_branches) = Some t →
             d ∈ depends_on t → dict_get d (tasks two_branches) = Some td →
             dom (holds pre context d td) ⊆ dom context)
          ∧ (keeps_keys two_branches →
             dom (default ∅ (@None (gmap string Any))) ⊆ dom context
             ∧ ∀ m cm, (m, cm) ∈ pre → dom cm ⊆ dom context).
Proof.
  apply (C10_context_is_shared no_time id two_branches None
           ["x"; "a"; "c"; "b"]).
  - by apply (bool_decide_unpack _).
  - reflexivity.
Defined.

(** * Further properties, one theorem each *)

(** X1: [add_task] under a name that the graph does not have yet returns
    normally and puts the new node last, PENDING, with an empty result, no
    error and the dependency list as given ([[]] for [None]); the nodes
    that were there stay as they were, whether or not the dependencies
    named are nodes of the graph; the graph stays well formed. *)
Theorem X1_add_task_appends (g : DAG) (name : string)
    (execute_fn : gmap string Any → completion)
    (depends_on : option (list string)) :
  dag_wf g → name ∉ keys (tasks g) →
  add_task g name execute_fn depends_on
  = ({| dag_name := dag_name g;
        tasks := tasks g
                 ++ [(name, TaskNode_init name execute_fn
                              (default [] depends_on))] |},
     Return ())
  ∧ dag_wf (add_task g name execute_fn depends_on).1.
Proof.
  intros Hwf Hnew. split; [|by apply add_task_wf].
  unfold add_task, dict_in. rewrite bool_decide_eq_false_2 by done.
  by rewrite dict_set_notin.
Qed.

Lemma X1_witness :
  add_task failure "later" returns_none (Some ["not_there"])
  = ({| dag_name := dag_name failure;
        tasks := tasks failure
                 ++ [("later", TaskNode_init "later" returns_none
                                 (default [] (Some ["not_there"])))] |},
     Return ())
  ∧ dag_wf (add_task failure "later" returns_none (Some ["not_there"])).1.
Proof.
  apply (X1_add_task_appends failure "later" returns_none (Some ["not_there"])).
  - by apply (bool_decide_unpack _).
  - by apply (bool_decide_unpack _).
Defined.

(** X2: an order that [_topological_sort] returns has every node name of
    the graph exactly once and every node after all its direct
    dependencies, and all dependency names of the graph are then nodes. *)
Theorem X2_returned_order_is_topological (g : DAG) (order : list string) :
  dag_wf g → _topological_sort g = Return order →
  resolves g ∧ NoDup order ∧ order ≡ₚ keys (tasks g)
  ∧ dependencies_first g order.
Proof. apply topological_sort_Return. Qed.

Lemma X2_witness :
  resolves diamond ∧ NoDup ["a"; "b"; "c"; "d"]
  ∧ ["a"; "b"; "c"; "d"] ≡ₚ keys (tasks diamond)
  ∧ dependencies_first diamond ["a"; "b"; "c"; "d"].
Proof.
  apply (X2_returned_order_is_topological diamond ["a"; "b"; "c"; "d"]).
  - by apply (bool_decide_unpack _).
  - reflexivity.
Defined.

(** X3: [_topological_sort] returns an order exactly when every dependency
    name is a node, no node reaches itself along dependencies, and no node
    lists the same dependency twice. *)
Theorem X3_schedules_iff (g : DAG) :
  dag_wf g →
  (∃ order, _topological_sort g = Return order)
  ↔ resolves g ∧ acyclic g ∧ deps_distinct g.
Proof.
  intros Hwf. split.
  - intros [order Hsort]. split_and!.
    + by apply topological_sort_Return in Hsort as (? & _).
    + by eapply topological_sort_Return_acyclic.
    + by eapply topological_sort_Return_distinct.
  - intros (Hres & Hacyc & Hdist).
    destruct (topological_sort_sound g Hwf Hres Hdist Hacyc) as (order & ? & _).
    by exists order.
Qed.

Lemma X3_witness :
  (∃ order, _topological_sort duplicate_entry = Return order)
  ↔ resolves duplicate_entry ∧ acyclic duplicate_entry
    ∧ deps_distinct duplicate_entry.
Proof.
  apply (X3_schedules_iff duplicate_entry). by apply (bool_decide_unpack _).
Defined.

(** X4: [_topological_sort] always ends, with one of three outcomes: an
    order, the exception of a cycle, or the exception that names a node of
    the graph and a dependency of it that is not a node. The last one is
    raised exactly when some dependency name is not a node, cycle or not. *)
Theorem X4_scheduler_outcomes (g : DAG) :
  dag_wf g →
  (resolves g ∧
     ((∃ order, _topological_sort g = Return order)
      ∨ _topological_sort g = Raise (ValueError "Cycle detected in DAG")))
  ∨ (¬ resolves g ∧
       ∃ t dep, (name t, t) ∈ tasks g ∧ dep ∈ depends_on t
         ∧ (dep ∉ keys (tasks g))
         ∧ _topological_sort g
           = Raise (ValueError ("Task '" +:+ name t +:+
                                "' depends on unknown task '" +:+ dep +:+ "'"))).
Proof.
  intros Hwf. destruct (decide (resolves g)) as [Hres|Hres].
  - left. split; [done|].
    destruct (topological_sort_resolves g Hwf Hres) as (? & order & _ & ->).
    case_decide; [by right | left; by exists order].
  - right. split; [done|].
    destruct (topological_sort_unknown g Hwf Hres)
      as (k & t & dep & Hin & ? & ? & ?).
    exists t, dep. split; [by rewrite (dag_wf_name g k t Hwf Hin) | done].
Qed.

Lemma X4_witness :
  (resolves two_cycle ∧
     ((∃ order, _topological_sort two_cycle = Return order)
      ∨ _topological_sort two_cycle
        = Raise (ValueError "Cycle detected in DAG")))
  ∨ (¬ resolves two_cycle ∧
       ∃ t dep, (name t, t) ∈ tasks two_cycle ∧ dep ∈ depends_on t
         ∧ (dep ∉ keys (tasks two_cycle))
         ∧ _topological_sort two_cycle
           = Raise (ValueError ("Task '" +:+ name t +:+
                                "' depends on unknown task '" +:+ dep +:+ "'"))).
Proof. apply (X4_scheduler_outcomes two_cycle). by apply (bool_decide_unpack _). Defined.

(** X5: a returned order begins with the nodes that have no dependencies,
    in the order in which they were added to the graph. *)
Theorem X5_roots_first (g : DAG) (order : list string) :
  dag_wf g → _topological_sort g = Return order →
  ∃ rest, order = roots g ++ rest.
Proof.
  intros Hwf Hsort.
  destruct (topological_sort_Return g order Hwf Hsort) as (Hres & _).
  destruct (initial_in_degree_resolves g Hwf Hres) as (in0 & Hin0 & Hkeys & Hget).
  unfold _topological_sort in Hsort. rewrite Hin0, bind_Return in Hsort.
  rewrite (initial_queue_roots g in0 Hwf Hkeys Hget) in Hsort.
  destruct (while_queue _ _ _ _ _) as [o| |] eqn:Hloop; [|done..].
  rewrite bind_Return in Hsort. case_decide; [done|]. simplify_eq.
  apply while_queue_fifo in Hloop as [rest ->]. by exists rest.
Qed.

Lemma X5_witness : ∃ rest, ["x"; "a"; "c"; "b"] = roots two_branches ++ rest.
Proof.
  apply (X5_roots_first two_branches ["x"; "a"; "c"; "b"]).
  - by apply (bool_decide_unpack _).
  - reflexivity.
Defined.

(** X6: [run] has three outcomes. It returns a summary, leaving a
    well-formed graph with the same name and the same node definitions; or
    it raises one of the two exceptions of the scheduler, having called no
    node and left the graph as it was; or the logic of a node has raised
    an exception that is not an [Exception], and [run] ends with that
    exception, right after that call, leaving that node RUNNING and the
    nodes after it in the schedule as they were. An [Exception] raised by
    the logic of a node never leaves [run]. *)
Theorem X6_run_outcomes (elapsed_ms : string → Z) (round2 : Z → Z) (g : DAG)
    (initial_context : option (gmap string Any)) :
  dag_wf g →
  (∃ g' calls summary,
     run elapsed_ms round2 g initial_context = (g', calls, Return summary)
     ∧ dag_wf g' ∧ dag_name g' = dag_name g
     ∧ definitions (tasks g') = definitions (tasks g))
  ∨ (∃ msg,
       run elapsed_ms round2 g initial_context
       = (g, [], Raise (ValueError msg)))
  ∨ (∃ g' calls n context t context' exc,
       run elapsed_ms round2 g initial_context
       = (g', calls ++ [(n, context)], Raise (SystemExiting exc))
       ∧ dict_get n (tasks g) = Some t
       ∧ execute_fn t context = Escapes context' exc
       ∧ status <$> dict_get n (tasks g') = Some RUNNING
       ∧ dag_name g' = dag_name g
       ∧ definitions (tasks g') = definitions (tasks g)
       ∧ ∃ pre post,
           _topological_sort g = Return (pre ++ n :: post)
           ∧ ∀ k, k ∈ post → dict_get k (tasks g') = dict_get k (tasks g)).
Proof.
  intros Hwf. destruct (_topological_sort g) as [order|e|] eqn:Hsort.
  - destruct (run_cases elapsed_ms round2 g initial_context order Hwf Hsort)
      as [(st' & _ & Hinv & Hrun)
         |(pre & n & post & st1 & t & c' & exc & Horder & Hinv & Ht & Hrest)].
    + left. eexists _, _, _. split; [exact Hrun|].
      pose proof (run_returns elapsed_ms round2 g initial_context order _ _ _
                    Hwf Hsort Hrun) as F.
      split_and!; apply F.
    + right. right. cbn zeta in Hrest. destruct Hrest as [Hend Hrun].
      eexists _, _, n, _, t, c', exc. split; [exact Hrun|].
      split_and!; [done..| |done| |].
      * cbn [tasks]. rewrite dict_get_published.
        cbn [ran_state st_tasks]. rewrite dict_get_set_eq.
        cbn [fmap option_fmap option_map status set_result]. f_equal.
        by destruct (invoke_Escapes elapsed_ms n t _ c' exc Hend) as (-> & _).
      * pose proof (run_definitions elapsed_ms round2 g initial_context)
          as [_ Hdef]. by rewrite Hrun in Hdef.
      * exists pre, post. split; [by rewrite Horder|]. intros k Hk.
        destruct (topological_sort_Return g order Hwf Hsort) as (_ & Hnd & _).
        rewrite Horder in Hnd. apply NoDup_app in Hnd as (_ & Hdisj & Hnd).
        apply NoDup_cons in Hnd as [Hn _].
        assert (k ≠ n) as Hne by (by intros ->).
        assert (k ∉ pre) as Hpre.
        { intros Hin. apply (Hdisj _ Hin). by right. }
        destruct (ri_unvisited _ _ _ _ _ _ Hinv k Hpre) as [Hget Hsh].
        cbn [tasks]. rewrite dict_get_published.
        cbn [ran_state st_tasks st_shared st_context].
        rewrite dict_get_set_ne, Hget by done.
        destruct (dict_get k (tasks g)) as [tk|]; [|done].
        cbn [fmap option_fmap option_map]. unfold held.
        rewrite decide_False by (by rewrite elem_shared_after_ne).
        by rewrite set_result_result.
  - right. left. assert (∃ msg, e = ValueError msg) as [msg ->].
    { destruct (decide (resolves g)) as [Hres|Hres].
      - destruct (topological_sort_resolves g Hwf Hres) as (? & o & _ & Heq).
        rewrite Hsort in Heq. case_decide; simplify_eq. by eexists.
      - destruct (topological_sort_unknown g Hwf Hres)
          as (? & ? & ? & _ & _ & _ & Heq).
        rewrite Hsort in Heq. simplify_eq. by eexists. }
    exists msg. unfold run. by rewrite Hsort.
  - by destruct (topological_sort_terminates g Hwf).
Qed.

Lemma X6_witness :
  (∃ g' calls summary,
     run no_time id exits None = (g', calls, Return summary)
     ∧ dag_wf g' ∧ dag_name g' = dag_name exits
     ∧ definitions (tasks g') = definitions (tasks exits))
  ∨ (∃ msg, run no_time id exits None = (exits, [], Raise (ValueError msg)))
  ∨ (∃ g' calls n context t context' exc,
       run no_time id exits None
       = (g', calls ++ [(n, context)], Raise (SystemExiting exc))
       ∧ dict_get n (tasks exits) = Some t
       ∧ execute_fn t context = Escapes context' exc
       ∧ status <$> dict_get n (tasks g') = Some RUNNING
       ∧ dag_name g' = dag_name exits
       ∧ definitions (tasks g') = definitions (tasks exits)
       ∧ ∃ pre post,
           _topological_sort exits = Return (pre ++ n :: post)
           ∧ ∀ k, k ∈ post →
               dict_get k (tasks g') = dict_get k (tasks exits)).
Proof.
  apply (X6_run_outcomes no_time id exits None).
  by apply (bool_decide_unpack _).
Defined.

(** X7: after a run that returns, every node has status SUCCESS, FAILED or
    SKIPPED; none is left PENDING or RUNNING. A run of a graph that
    schedules returns when no logic raises an exception that is not an
    [Exception]. *)
Theorem X7_final_statuses (elapsed_ms : string → Z)
    (round2 : Z → Z) (g : DAG) (initial_context : option (gmap string Any))
    (order : list string) :
  dag_wf g → _topological_sort g = Return order →
  (catches g →
   ∃ g' calls summary,
     run elapsed_ms round2 g initial_context = (g', calls, Return summary))
  ∧ ∀ g' calls summary,
      run elapsed_ms round2 g initial_context = (g', calls, Return summary) →
      ∀ n t', dict_get n (tasks g') = Some t' →
        status t' = SUCCESS ∨ status t' = FAILED ∨ status t' = SKIPPED.
Proof.
  intros Hwf Hsort. split; [by eapply run_total|].
  intros g' calls summary Hrun.
  pose proof (run_returns elapsed_ms round2 g initial_context order g' calls
                summary Hwf Hsort Hrun) as F.
  intros n t' Hget.
  destruct (run_final_cases _ _ _ _ _ _ _ _ _ _ F Hget)
    as (t & _ & _ & [[-> _]|(c & -> & _ & Hleaves & _)]).
  - by right; right.
  - destruct (finished_cases elapsed_ms n t c
                (context_left g (default ∅ initial_context) calls) Hleaves)
      as [(? & ? & _ & -> & _)|(? & ? & _ & -> & _)]; auto.
Qed.

Lemma X7_witness :
  (catches failing_chain →
   ∃ g' calls summary,
     run no_time id failing_chain None = (g', calls, Return summary))
  ∧ ∀ g' calls summary,
      run no_time id failing_chain None = (g', calls, Return summary) →
      ∀ n t', dict_get n (tasks g') = Some t' →
        status t' = SUCCESS ∨ status t' = FAILED ∨ status t' = SKIPPED.
Proof.
  apply (X7_final_statuses no_time id failing_chain None ["a"; "b"; "c"]).
  - by apply (bool_decide_unpack _).
  - reflexivity.
Defined.

(** X8: after a run that returns, a node is SKIPPED exactly when one of
    its direct dependencies is FAILED; a dependency that is itself SKIPPED
    does not count. *)
Theorem X8_skipped_iff_dependency_failed (elapsed_ms : string → Z)
    (round2 : Z → Z) (g : DAG) (initial_context : option (gmap string Any))
    (order : list string) :
  dag_wf g → _topological_sort g = Return order →
  (catches g →
   ∃ g' calls summary,
     run elapsed_ms round2 g initial_context = (g', calls, Return summary))
  ∧ ∀ g' calls summary,
      run elapsed_ms round2 g initial_context = (g', calls, Return summary) →
      ∀ n t', dict_get n (tasks g') = Some t' →
        status t' = SKIPPED
        ↔ ∃ d td, d ∈ depends_on t' ∧ dict_get d (tasks g') = Some td
                  ∧ status td = FAILED.
Proof.
  intros Hwf Hsort. split; [by eapply run_total|].
  intros g' calls summary Hrun.
  pose proof (run_returns elapsed_ms round2 g initial_context order g' calls
                summary Hwf Hsort Hrun) as F.
  intros n t' Hget.
  destruct (run_final_cases _ _ _ _ _ _ _ _ _ _ F Hget)
    as (t & _ & Hdeps & [[-> Hs]|(c & -> & Hc)]); rewrite Hdeps.
  - split; [|done]. intros _. apply Hs.
  - split.
    + intros Hst. by apply finished_not_skipped in Hst.
    + intros (d & td & Hd & Hgetd & Hst). destruct Hc as (_ & _ & _ & _ & Hno).
      by destruct (Hno d td).
Qed.

Lemma X8_witness :
  (catches failing_chain →
   ∃ g' calls summary,
     run no_time id failing_chain None = (g', calls, Return summary))
  ∧ ∀ g' calls summary,
      run no_time id failing_chain None = (g', calls, Return summary) →
      ∀ n t', dict_get n (tasks g') = Some t' →
        status t' = SKIPPED
        ↔ ∃ d td, d ∈ depends_on t' ∧ dict_get d (tasks g') = Some td
                  ∧ status td = FAILED.
Proof.
  apply (X8_skipped_iff_dependency_failed no_time id failing_chain None
           ["a"; "b"; "c"]).
  - by apply (bool_decide_unpack _).
  - reflexivity.
Defined.

(** X9: the calls of a run that returns are made in the order of the
    schedule, one for each node that does not end SKIPPED and none for a
    node that does. *)
Theorem X9_calls_follow_schedule (elapsed_ms : string → Z)
    (round2 : Z → Z) (g : DAG) (initial_context : option (gmap string Any))
    (order : list string) :
  dag_wf g → _topological_sort g = Return order →
  (catches g →
   ∃ g' calls summary,
     run elapsed_ms round2 g initial_context = (g', calls, Return summary))
  ∧ ∀ g' calls summary,
      run elapsed_ms round2 g initial_context = (g', calls, Return summary) →
      calls.*1
      = filter (λ n, status <$> dict_get n (tasks g') ≠ Some SKIPPED) order.
Proof.
  intros Hwf Hsort. split; [by eapply run_total|].
  intros g' calls summary Hrun. eapply run_calls_filter.
  by eapply run_returns.
Qed.

Lemma X9_witness :
  (catches failing_chain →
   ∃ g' calls summary,
     run no_time id failing_chain None = (g', calls, Return summary))
  ∧ ∀ g' calls summary,
      run no_time id failing_chain None = (g', calls, Return summary) →
      calls.*1
      = filter (λ n, status <$> dict_get n (tasks g') ≠ Some SKIPPED)
          ["a"; "b"; "c"].
Proof.
  apply (X9_calls_follow_schedule no_time id failing_chain None
           ["a"; "b"; "c"]).
  - by apply (bool_decide_unpack _).
  - reflexivity.
Defined.

(** X10: the summary that a run returns carries the name of the graph and
    one entry for each node, in the order of the schedule; the entry of a
    SKIPPED node is [{"status": "skipped"}], the entry of any other node
    has the value of its status, its rounded duration and its error as the
    node holds them after the run. *)
Theorem X10_summary_matches_nodes (elapsed_ms : string → Z)
    (round2 : Z → Z) (g : DAG) (initial_context : option (gmap string Any))
    (order : list string) :
  dag_wf g → _topological_sort g = Return order →
  (catches g →
   ∃ g' calls summary,
     run elapsed_ms round2 g initial_context = (g', calls, Return summary))
  ∧ ∀ g' calls summary,
      run elapsed_ms round2 g initial_context = (g', calls, Return summary) →
      summary_pipeline summary = dag_name g
      ∧ keys (summary_tasks summary) = order
      ∧ ∀ n t', dict_get n (tasks g') = Some t' →
          dict_get n (summary_tasks summary)
          = Some (if decide (status t' = SKIPPED) then SkippedEntry "skipped"
                  else RanEntry (status_value (status t'))
                         (round2 (duration_ms t')) (error t')).
Proof.
  intros Hwf Hsort. split; [by eapply run_total|].
  intros g' calls summary Hrun.
  pose proof (run_returns elapsed_ms round2 g initial_context order g' calls
                summary Hwf Hsort Hrun) as F.
  split_and!; [apply F..|]. intros n t' Hget.
  destruct (run_final_cases _ _ _ _ _ _ _ _ _ _ F Hget)
    as (t & _ & _ & [[-> Hs]|(c & -> & Hc)]).
  - destruct Hs as (_ & -> & _). by rewrite decide_True.
  - destruct Hc as (_ & _ & _ & -> & _).
    rewrite decide_False by apply finished_not_skipped.
    destruct (finished_fields elapsed_ms n t c
                (context_left g (default ∅ initial_context) calls))
      as (_ & _ & _ & -> & -> & -> & _).
    by rewrite invoke_duration.
Qed.

Lemma X10_witness :
  (catches failure →
   ∃ g' calls summary,
     run no_time id failure None = (g', calls, Return summary))
  ∧ ∀ g' calls summary,
      run no_time id failure None = (g', calls, Return summary) →
      summary_pipeline summary = dag_name failure
      ∧ keys (summary_tasks summary) = ["fail"; "after"]
      ∧ ∀ n t', dict_get n (tasks g') = Some t' →
          dict_get n (summary_tasks summary)
          = Some (if decide (status t' = SKIPPED) then SkippedEntry "skipped"
                  else RanEntry (status_value (status t'))
                         (id (duration_ms t')) (error t')).
Proof.
  apply (X10_summary_matches_nodes no_time id failure None ["fail"; "after"]).
  - by apply (bool_decide_unpack _).
  - reflexivity.
Defined.

(** X11: after a run that returns, a node whose logic was called and
    returned has status SUCCESS and the measured time as its duration; its
    error is not reset: it is the error the node had before the run. Its
    result is the object that the logic returned: the empty mapping for
    [None] (and for an empty mapping), the mapping returned by a logic
    that returned one of its own, and, for a logic that returned the
    context it was handed, the context itself, with the content that the
    rest of the run has given it, which is the content that the last call
    of the run left. *)
Theorem X11_return_is_stored (elapsed_ms : string → Z)
    (round2 : Z → Z) (g : DAG) (initial_context : option (gmap string Any))
    (order : list string) :
  dag_wf g → _topological_sort g = Return order →
  (catches g →
   ∃ g' calls summary,
     run elapsed_ms round2 g initial_context = (g', calls, Return summary))
  ∧ ∀ g' calls summary,
      run elapsed_ms round2 g initial_context = (g', calls, Return summary) →
      ∀ n t context context' value,
        dict_get n (tasks g) = Some t → (n, context) ∈ calls →
        execute_fn t context = Returns context' value →
        ∃ t', dict_get n (tasks g') = Some t' ∧ status t' = SUCCESS
          ∧ error t' = error t ∧ duration_ms t' = elapsed_ms n
          ∧ result t'
            = match value with
              | NoneValue => ∅
              | AMapping m => m
              | TheContext =>
                  if decide (context' = ∅) then ∅
                  else context_left g (default ∅ initial_context) calls
              end.
Proof.
  intros Hwf Hsort. split; [by eapply run_total|].
  intros g' calls summary Hrun.
  pose proof (run_returns elapsed_ms round2 g initial_context order g' calls
                summary Hwf Hsort Hrun) as F.
  intros n t c c' v Ht Hcall Hend.
  destruct (run_called _ _ _ _ _ _ _ _ _ _ _ F Ht Hcall)
    as (_ & _ & Hfin & _).
  eexists. split; [exact Hfin|].
  destruct (finished_fields elapsed_ms n t c
              (context_left g (default ∅ initial_context) calls))
    as (_ & _ & _ & -> & -> & -> & ->).
  destruct (invoke_Returns elapsed_ms n t c c' v Hend) as (-> & -> & _).
  split_and!; [done..|]. rewrite Hend.
  destruct v; [done| |done]. cbn [holds_after returns_context].
  by destruct (decide (c' = ∅)) as [->|?];
    [rewrite bool_decide_eq_false_2 by (by intros ?)
    |rewrite bool_decide_eq_true_2].
Qed.

Lemma X11_witness :
  (catches returns_its_argument →
   ∃ g' calls summary,
     run no_time id returns_its_argument (Some {["i" := PyInt 0]})
     = (g', calls, Return summary))
  ∧ ∀ g' calls summary,
      run no_time id returns_its_argument (Some {["i" := PyInt 0]})
      = (g', calls, Return summary) →
      ∀ n t context context' value,
        dict_get n (tasks returns_its_argument) = Some t →
        (n, context) ∈ calls →
        execute_fn t context = Returns context' value →
        ∃ t', dict_get n (tasks g') = Some t' ∧ status t' = SUCCESS
          ∧ error t' = error t ∧ duration_ms t' = no_time n
          ∧ result t'
            = match value with
              | NoneValue => ∅
              | AMapping m => m
              | TheContext =>
                  if decide (context' = ∅) then ∅
                  else context_left returns_its_argument
                         (default ∅ (Some {["i" := PyInt 0]})) calls
              end.
Proof.
  apply (X11_return_is_stored no_time id returns_its_argument
           (Some {["i" := PyInt 0]}) ["a"; "m"; "q"]).
  - by apply (bool_decide_unpack _).
  - reflexivity.
Defined.

(** X12: what a run does not touch. After a run that returns, a node that
    ends SKIPPED has the result, the error and the duration it had before
    the run, and a node that ends FAILED has the result it had before the
    run. *)
Theorem X12_stale_fields (elapsed_ms : string → Z)
    (round2 : Z → Z) (g : DAG) (initial_context : option (gmap string Any))
    (order : list string) :
  dag_wf g → _topological_sort g = Return order →
  (catches g →
   ∃ g' calls summary,
     run elapsed_ms round2 g initial_context = (g', calls, Return summary))
  ∧ ∀ g' calls summary,
      run elapsed_ms round2 g initial_context = (g', calls, Return summary) →
      ∀ n t t', dict_get n (tasks g) = Some t →
        dict_get n (tasks g') = Some t' →
        (status t' = SKIPPED →
           result t' = result t ∧ error t' = error t
           ∧ duration_ms t' = duration_ms t)
        ∧ (status t' = FAILED → result t' = result t).
Proof.
  intros Hwf Hsort. split; [by eapply run_total|].
  intros g' calls summary Hrun.
  pose proof (run_returns elapsed_ms round2 g initial_context order g' calls
                summary Hwf Hsort Hrun) as F.
  intros n t t' Ht Hget.
  destruct (rf_visits _ _ _ _ _ _ _ _ F n t Ht)
    as [(Hfin & _)|(c & _ & Hleaves & Hfin & _)];
    rewrite Hfin in Hget; injection Hget as <-.
  - split; [done|]. by intros [=].
  - destruct (finished_cases elapsed_ms n t c
                (context_left g (default ∅ initial_context) calls) Hleaves)
      as [(? & ? & _ & Hst & _)|(? & ? & _ & Hst & _ & Hres)]; rewrite Hst;
      split; intros [=]; done.
Qed.

Lemma X12_witness :
  (catches failure →
   ∃ g' calls summary,
     run no_time id failure None = (g', calls, Return summary))
  ∧ ∀ g' calls summary,
      run no_time id failure None = (g', calls, Return summary) →
      ∀ n t t', dict_get n (tasks failure) = Some t →
        dict_get n (tasks g') = Some t' →
        (status t' = SKIPPED →
           result t' = result t ∧ error t' = error t
           ∧ duration_ms t' = duration_ms t)
        ∧ (status t' = FAILED → result t' = result t).
Proof.
  apply (X12_stale_fields no_time id failure None ["fail"; "after"]).
  - by apply (bool_decide_unpack _).
  - reflexivity.
Defined.

(** X13: when every call of a node's logic returns, whatever context it is
    given, the run returns, it has called every node once, in the order of
    the schedule, every node ends SUCCESS and the status of the summary is
    "completed". *)
Theorem X13_no_fault_completes (elapsed_ms : string → Z)
    (round2 : Z → Z) (g : DAG) (initial_context : option (gmap string Any))
    (order : list string) :
  dag_wf g → _topological_sort g = Return order →
  Forall (λ t, ∀ context, ∃ context' value,
            execute_fn t context = Returns context' value)
    (values (tasks g)) →
  ∃ g' calls summary,
    run elapsed_ms round2 g initial_context = (g', calls, Return summary)
    ∧ calls.*1 = order
    ∧ (∀ n t', dict_get n (tasks g') = Some t' → status t' = SUCCESS)
    ∧ summary_status summary = "completed".
Proof.
  intros Hwf Hsort Hreturns. rewrite Forall_forall in Hreturns.
  destruct (run_total elapsed_ms round2 g initial_context order Hwf Hsort)
    as (g' & calls & summary & Hrun).
  { intros k t c c' exc Hin Hend.
    destruct (Hreturns t (elem_values _ _ _ Hin) c) as (? & ? & Hret).
    congruence. }
  pose proof (run_returns elapsed_ms round2 g initial_context order g' calls
                summary Hwf Hsort Hrun) as F.
  exists g', calls, summary. split; [done|].
  assert (Hnofail : ∀ n t', dict_get n (tasks g') = Some t' →
            status t' ≠ FAILED).
  { intros n t' Hget.
    destruct (run_final_cases _ _ _ _ _ _ _ _ _ _ F Hget)
      as (t & Ht & _ & [[-> _]|(c & -> & _ & Hleaves & _)]); [done|].
    destruct (finished_cases elapsed_ms n t c
                (context_left g (default ∅ initial_context) calls) Hleaves)
      as [(? & ? & _ & -> & _)|(? & ? & Hraise & _)]; [done|].
    exfalso. destruct (Hreturns t) with (context := c) as (? & ? & Hret).
    - eapply elem_values. by apply dict_get_Some_elem.
    - congruence. }
  assert (Hcalled : ∀ n t, dict_get n (tasks g) = Some t →
            ∃ c, visit_called elapsed_ms round2 (tasks g') calls
                   (summary_tasks summary)
                   (context_left g (default ∅ initial_context) calls) n t c).
  { intros n t Ht.
    destruct (rf_visits _ _ _ _ _ _ _ _ F n t Ht)
      as [(_ & _ & _ & d & td & _ & Hd & Hst)|Hc]; [|done].
    by destruct (Hnofail d td). }
  assert (Hsuccess : ∀ n t', dict_get n (tasks g') = Some t' →
            status t' = SUCCESS).
  { intros n t' Hget. specialize (Hnofail n t' Hget).
    destruct (run_final_cases _ _ _ _ _ _ _ _ _ _ F Hget)
      as (t & Ht & _ & [[-> Hs]|(c & -> & _ & Hleaves & _)]).
    - destruct (Hcalled n t Ht) as (c & _ & _ & Hfin & _).
      destruct Hs as (Hfin' & _). rewrite Hfin in Hfin'.
      apply (inj Some), (f_equal status) in Hfin'.
      cbn [status set_status] in Hfin'.
      by apply finished_not_skipped in Hfin'.
    - by destruct (finished_cases elapsed_ms n t c
                     (context_left g (default ∅ initial_context) calls)
                     Hleaves)
        as [(? & ? & _ & ? & _)|(? & ? & _ & ? & _)]. }
  destruct (rf_order _ _ _ _ _ _ _ _ F) as [Hnd Hperm].
  split_and!; [|done|].
  - rewrite (sublist_filter_eq (λ _, True) calls.*1 order);
      [|apply F|done|].
    + apply filter_all, Forall_forall. done.
    + intros n Hn. split; [done|]. intros _.
      assert (is_Some (dict_get n (tasks g))) as [t Ht].
      { apply dict_get_is_Some. by rewrite <- Hperm. }
      destruct (Hcalled n t Ht) as (c & Hin & _).
      apply list_elem_of_fmap. by exists (n, c).
  - rewrite (rf_status _ _ _ _ _ _ _ _ F).
    assert (forallb (λ t, bool_decide (status t = SUCCESS)) (values (tasks g'))
            = true) as ->; [|done].
    apply forallb_forall. intros t' Hin%list_elem_of_In.
    apply bool_decide_eq_true.
    apply list_elem_of_fmap in Hin as ([k t''] & -> & Hin).
    apply (Hsuccess k). apply dict_get_elem; [apply F | done].
Qed.

Lemma X13_witness :
  ∃ g' calls summary,
    run no_time id linear None = (g', calls, Return summary)
    ∧ calls.*1 = ["a"; "b"; "c"]
    ∧ (∀ n t', dict_get n (tasks g') = Some t' → status t' = SUCCESS)
    ∧ summary_status summary = "completed".
Proof.
  apply (X13_no_fault_completes no_time id linear None ["a"; "b"; "c"]).
  - by apply (bool_decide_unpack _).
  - reflexivity.
  - repeat constructor; intros ?; simpl; by eexists _, _.
Defined.

(** X14: after a run that returns, when the call of a node's logic has
    raised an [Exception], every node that lists that node as a direct
    dependency is SKIPPED and was not called. *)
Theorem X14_dependents_of_failed_are_skipped (elapsed_ms : string → Z)
    (round2 : Z → Z) (g : DAG) (initial_context : option (gmap string Any))
    (order : list string) :
  dag_wf g → _topological_sort g = Return order →
  (catches g →
   ∃ g' calls summary,
     run elapsed_ms round2 g initial_context = (g', calls, Return summary))
  ∧ ∀ g' calls summary,
      run elapsed_ms round2 g initial_context = (g', calls, Return summary) →
      ∀ n t context context' str_exc m tm',
        dict_get n (tasks g) = Some t → (n, context) ∈ calls →
        execute_fn t context = Raises context' str_exc →
        dict_get m (tasks g') = Some tm' → n ∈ depends_on tm' →
        status tm' = SKIPPED ∧ m ∉ calls.*1.
Proof.
  intros Hwf Hsort. split; [by eapply run_total|].
  intros g' calls summary Hrun.
  pose proof (run_returns elapsed_ms round2 g initial_context order g' calls
                summary Hwf Hsort Hrun) as F.
  intros n t c c' msg m tm' Ht Hcall Hraise Hm Hdep.
  assert (∃ t', dict_get n (tasks g') = Some t' ∧ status t' = FAILED)
    as (t' & Hn' & Hfailed).
  { destruct (run_called _ _ _ _ _ _ _ _ _ _ _ F Ht Hcall)
      as (_ & _ & Hfin & _).
    eexists. split; [exact Hfin|].
    destruct (finished_fields elapsed_ms n t c
                (context_left g (default ∅ initial_context) calls))
      as (_ & _ & _ & -> & _).
    by destruct (invoke_Raises elapsed_ms n t c c' msg Hraise) as (-> & _). }
  destruct (run_final_cases _ _ _ _ _ _ _ _ _ _ F Hm)
    as (tm & _ & Hdeps & [[-> Hs]|(c0 & -> & Hc)]).
  - split; [done|]. apply Hs.
  - exfalso. destruct Hc as (_ & _ & _ & _ & Hno). rewrite Hdeps in Hdep.
    by destruct (Hno n t' Hdep Hn').
Qed.

Lemma X14_witness :
  (catches failure →
   ∃ g' calls summary,
     run no_time id failure None = (g', calls, Return summary))
  ∧ ∀ g' calls summary,
      run no_time id failure None = (g', calls, Return summary) →
      ∀ n t context context' str_exc m tm',
        dict_get n (tasks failure) = Some t → (n, context) ∈ calls →
        execute_fn t context = Raises context' str_exc →
        dict_get m (tasks g') = Some tm' → n ∈ depends_on tm' →
        status tm' = SKIPPED ∧ m ∉ calls.*1.
Proof.
  apply (X14_dependents_of_failed_are_skipped no_time id failure None
           ["fail"; "after"]).
  - by apply (bool_decide_unpack _).
  - reflexivity.
Defined.

(** ** Graphs built by a sequence of [add_task] *)

Lemma foldl_add_task g
    (nodes : list (string * (gmap string Any → completion) * list string)) :
  NoDup (nodes.*1.*1) →
  (∀ n, n ∈ nodes.*1.*1 → n ∉ keys (tasks g)) →
  foldl (λ g node, (add_task g node.1.1 node.1.2 (Some node.2)).1) g nodes
  = {| dag_name := dag_name g;
       tasks := tasks g
                ++ map (λ node, (node.1.1,
                                 TaskNode_init node.1.1 node.1.2 node.2))
                     nodes |}.
Proof.
  revert g. induction nodes as [|[[n f] deps] nodes IH]; intros g Hnd Hnew.
  - simpl. rewrite app_nil_r. by destruct g.
  - rewrite !fmap_cons in Hnd, Hnew. cbn [fst] in Hnd, Hnew.
    apply NoDup_cons in Hnd as [Hn Hnd]. cbn [foldl fst snd].
    assert (n ∉ keys (tasks g)) as Hfresh by (apply Hnew; left).
    unfold add_task at 2, dict_in. rewrite bool_decide_eq_false_2 by done.
    cbn [fst]. rewrite dict_set_notin by done. rewrite IH; [|done|].
    + cbn [dag_name tasks map fst snd default]. by rewrite <- app_assoc.
    + intros n' Hn'. cbn [tasks]. unfold keys. rewrite fmap_app.
      rewrite fmap_cons, fmap_nil. cbn [fst].
      rewrite elem_of_app, list_elem_of_singleton.
      intros [Hin| ->]; [|done]. apply (Hnew n'); [by right | done].
Qed.

Lemma dict_get_map_init
    (nodes : list (string * (gmap string Any → completion) * list string))
    node :
  NoDup (nodes.*1.*1) → node ∈ nodes →
  dict_get node.1.1
    (map (λ node, (node.1.1, TaskNode_init node.1.1 node.1.2 node.2)) nodes)
  = Some (TaskNode_init node.1.1 node.1.2 node.2).
Proof.
  intros Hnd Hin. apply dict_get_elem.
  - unfold dict_wf, keys. rewrite <- list_fmap_compose.
    by rewrite <- !list_fmap_compose in Hnd.
  - apply list_elem_of_fmap. by exists node.
Qed.

(** X15: a graph built by adding nodes under pairwise distinct names is
    well formed, holds each node as it was declared, PENDING, under its
    name, and [to_dict] gives back the name of the graph and the declared
    dependency lists, in the order in which the nodes were added. *)
Theorem X15_build_then_to_dict (name : string)
    (nodes : list (string * (gmap string Any → completion) * list string)) :
  NoDup (nodes.*1.*1) →
  dag_wf (build name nodes)
  ∧ to_dict (build name nodes)
    = {| def_name := name;
         def_tasks :=
           map (λ node, (node.1.1, {| def_depends_on := node.2 |})) nodes |}
  ∧ ∀ node, node ∈ nodes →
      dict_get node.1.1 (tasks (build name nodes))
      = Some (TaskNode_init node.1.1 node.1.2 node.2).
Proof.
  intros Hnd. unfold build. rewrite foldl_add_task; [|done|]; cycle 1.
  { intros ? _. apply not_elem_of_nil. }
  cbn [DAG_init dag_name tasks app]. split_and!.
  - split; cbn [tasks].
    + unfold dict_wf, keys. rewrite <- list_fmap_compose.
      by rewrite <- !list_fmap_compose in Hnd.
    + apply Forall_forall. intros [k t] ([[n f] deps] & [= -> ->] & _)%list_elem_of_fmap.
      done.
  - unfold to_dict. cbn [dag_name tasks]. f_equal. by rewrite map_map.
  - intros node Hin. by apply dict_get_map_init.
Qed.

Lemma X15_witness :
  dag_wf (build "pair" [("x", returns_none, []); ("y", returns_none, ["x"])])
  ∧ to_dict (build "pair"
               [("x", returns_none, []); ("y", returns_none, ["x"])])
    = {| def_name := "pair";
         def_tasks :=
           map (λ node, (node.1.1, {| def_depends_on := node.2 |}))
             [("x", returns_none, []); ("y", returns_none, ["x"])] |}
  ∧ ∀ node, node ∈ [("x", returns_none, []); ("y", returns_none, ["x"])] →
      dict_get node.1.1
        (tasks (build "pair"
                  [("x", returns_none, []); ("y", returns_none, ["x"])]))
      = Some (TaskNode_init node.1.1 node.1.2 node.2).
Proof.
  apply (X15_build_then_to_dict "pair"
           [("x", returns_none, []); ("y", returns_none, ["x"])]).
  by apply (bool_decide_unpack _).
Defined.

(** ** The patient ingestion pipeline *)

(** When the call of [n] raises an [Exception], a node [m] whose only
    dependency is [n] is skipped, and a node [k] whose only dependency is
    [m] is called. *)
Lemma called_after_skipped elapsed_ms round2 g initial order g' calls summary
    n t c context' str_exc m tm k tk :
  run_facts elapsed_ms round2 g initial order g' calls summary →
  dict_get n (tasks g) = Some t → (n, c) ∈ calls →
  execute_fn t c = Raises context' str_exc →
  dict_get m (tasks g) = Some tm → depends_on tm = [n] →
  dict_get k (tasks g) = Some tk → depends_on tk = [m] →
  (m ∉ calls.*1) ∧ k ∈ calls.*1.
Proof.
  intros F Ht Hcall Hraise Hm Hdm Hk Hdk.
  assert (∃ t', dict_get n (tasks g') = Some t' ∧ status t' = FAILED)
    as (t' & Hn' & Hfailed).
  { destruct (run_called _ _ _ _ _ _ _ _ _ _ _ F Ht Hcall)
      as (_ & _ & Hfin & _).
    eexists. split; [exact Hfin|].
    destruct (finished_fields elapsed_ms n t c (context_left g initial calls))
      as (_ & _ & _ & -> & _).
    by destruct (invoke_Raises elapsed_ms n t c context' str_exc Hraise)
      as (-> & _). }
  destruct (rf_visits _ _ _ _ _ _ _ _ F m tm Hm)
    as [(Hmfin & _ & Hmno & _)|(c' & _ & _ & _ & _ & Hno)]; cycle 1.
  { exfalso. apply (Hno n t'); [|done..]. rewrite Hdm. left. }
  split; [done|].
  destruct (rf_visits _ _ _ _ _ _ _ _ F k tk Hk)
    as [(_ & _ & _ & d & td & Hd & Hgetd & Hst)|(c' & Hin & _)].
  - exfalso. rewrite Hdk in Hd. apply list_elem_of_singleton in Hd as ->.
    rewrite Hmfin in Hgetd. by simplify_eq.
  - apply list_elem_of_fmap. by exists (k, c').
Qed.

(** X16: whatever the five steps do, the ingestion pipeline is a
    well-formed graph that is always scheduled in the order extract,
    validate, check_consent, transform, load; [run] on it returns a
    summary when no step raises an exception that is not an [Exception],
    and a summary that it returns has the five entries in that order. *)
Theorem X16_pipeline_schedule
    (extract validate check_consent transform load
       : gmap string Any → completion)
    (elapsed_ms : string → Z) (round2 : Z → Z)
    (initial_context : option (gmap string Any)) :
  let pipeline :=
    build_patient_ingestion_pipeline extract validate check_consent
      transform load in
  dag_wf pipeline
  ∧ _topological_sort pipeline
    = Return ["extract"; "validate"; "check_consent"; "transform"; "load"]
  ∧ (catches pipeline →
     ∃ g' calls summary,
       run elapsed_ms round2 pipeline initial_context
       = (g', calls, Return summary))
  ∧ ∀ g' calls summary,
      run elapsed_ms round2 pipeline initial_context
      = (g', calls, Return summary) →
      summary_pipeline summary = "patient_ingestion"
      ∧ keys (summary_tasks summary)
        = ["extract"; "validate"; "check_consent"; "transform"; "load"].
Proof.
  intros pipeline.
  assert (dag_wf pipeline) as Hwf by (by apply (bool_decide_unpack _)).
  assert (_topological_sort pipeline
          = Return ["extract"; "validate"; "check_consent"; "transform"; "load"])
    as Hsort by reflexivity.
  split_and!; [done..|by eapply run_total|].
  intros g' calls summary Hrun.
  pose proof (run_returns elapsed_ms round2 pipeline initial_context _ g'
                calls summary Hwf Hsort Hrun) as F.
  split; apply F.
Qed.

(** The pipeline with an extract step that raises and four steps that
    return: validate is skipped, the three steps after it are called. *)
Example pipeline_extract_raises :
  (run no_time id
     (build_patient_ingestion_pipeline (raises "no source")
        returns_none returns_none returns_none returns_none) None).1.2.*1
  = ["extract"; "check_consent"; "transform"; "load"].
Proof. reflexivity. Qed.

(** X17: in the ingestion pipeline a failure skips only the next step.
    In a run that returns, when the call of extract has raised an
    [Exception], validate is skipped but check_consent is called; when
    validate has raised, check_consent is skipped but transform is called;
    when check_consent has raised, transform is skipped but load is
    called. *)
Theorem X17_pipeline_failure_skips_one_step
    (extract validate check_consent transform load
       : gmap string Any → completion)
    (elapsed_ms : string → Z) (round2 : Z → Z)
    (initial_context : option (gmap string Any)) :
  let pipeline :=
    build_patient_ingestion_pipeline extract validate check_consent
      transform load in
  (catches pipeline →
   ∃ g' calls summary,
     run elapsed_ms round2 pipeline initial_context
     = (g', calls, Return summary))
  ∧ ∀ g' calls summary,
      run elapsed_ms round2 pipeline initial_context
      = (g', calls, Return summary) →
      (∀ c c' str_exc,
         ("extract", c) ∈ calls → extract c = Raises c' str_exc →
         ("validate" ∉ calls.*1) ∧ "check_consent" ∈ calls.*1)
      ∧ (∀ c c' str_exc,
           ("validate", c) ∈ calls → validate c = Raises c' str_exc →
           ("check_consent" ∉ calls.*1) ∧ "transform" ∈ calls.*1)
      ∧ (∀ c c' str_exc,
           ("check_consent", c) ∈ calls →
           check_consent c = Raises c' str_exc →
           ("transform" ∉ calls.*1) ∧ "load" ∈ calls.*1).
Proof.
  intros pipeline.
  assert (dag_wf pipeline) as Hwf by (by apply (bool_decide_unpack _)).
  assert (_topological_sort pipeline
          = Return ["extract"; "validate"; "check_consent"; "transform"; "load"])
    as Hsort by reflexivity.
  split; [by eapply run_total|].
  intros g' calls summary Hrun.
  pose proof (run_returns elapsed_ms round2 pipeline initial_context _ g'
                calls summary Hwf Hsort Hrun) as F.
  split_and!; intros c c' msg Hcall Hraise.
  - eapply (called_after_skipped _ _ _ _ _ _ _ _ "extract" _ c c' msg
              "validate" _ "check_consent" _ F); try reflexivity; done.
  - eapply (called_after_skipped _ _ _ _ _ _ _ _ "validate" _ c c' msg
              "check_consent" _ "transform" _ F); try reflexivity; done.
  - eapply (called_after_skipped _ _ _ _ _ _ _ _ "check_consent" _ c c' msg
              "transform" _ "load" _ F); try reflexivity; done.
Qed.

(** ** Running a graph again *)


Section rerun.
Variable elapsed_ms : string → Z.
Variable round2 : Z → Z.




End rerun.


